(** * Nova HUD: animation clock, gauge bars and ring field

    A shallow embedding of [nov.py] and [nova.py] (two revisions of the same
    PySide6 dashboard) and the properties of their rendering core.

    Python [float]s are IEEE-754 binary64 numbers.  They are modelled by the
    Standard Library's executable specification [spec_float] at precision 53
    and maximal exponent 1024, so every rounding step of the source is part
    of the model. *)

From Stdlib Require Import ZArith Bool List String Ascii Lia.
From Stdlib Require Import QArith Qpower Lqa.
From Stdlib Require Import SpecFloat Decimal DecimalString.
Import ListNotations.
Local Open Scope Z_scope.

(* ===================================================================== *)
(** * Binary64 arithmetic *)
(* ===================================================================== *)

Module F64.

Definition prec : Z := 53.
Definition emax : Z := 1024.

Definition float : Type := spec_float.

Definition add : float -> float -> float := SFadd prec emax.
Definition sub : float -> float -> float := SFsub prec emax.
Definition mul : float -> float -> float := SFmul prec emax.
Definition div : float -> float -> float := SFdiv prec emax.
Definition neg : float -> float := SFopp.
Definition abs : float -> float := SFabs.
Definition ltb : float -> float -> bool := SFltb.
Definition leb : float -> float -> bool := SFleb.
Definition eqb : float -> float -> bool := SFeqb.

(** [valid x]: [x] is a binary64 datum (canonical mantissa, exponent in
    range).  Every Python float satisfies it. *)
Definition valid (x : float) : bool := valid_binary prec emax x.

(** Conversion of a Python or C++ [int] to a float (round to nearest). *)
Definition of_Z (z : Z) : float := binary_normalize prec emax z 0 false.

(** A decimal literal [n/d] of the source text: the binary64 number nearest
    to the rational [n/d], as the Python parser produces it. *)
Definition dec (n d : Z) : float := div (of_Z n) (of_Z d).

(** Reading of the decimal literals of the source ([0.0075], [360.0], [3]). *)
Definition of_number (n : Number.number) : option spec_float :=
  match n with
  | Number.Decimal (Decimal.Decimal i f) =>
      Some (dec (Z.of_int (Decimal.app_int i f)) (10 ^ Z.of_nat (Decimal.nb_digits f)))
  | _ => None
  end.

Definition to_number (x : spec_float) : option Number.number := None.

Definition is_zero (x : float) : bool :=
  match x with S754_zero _ => true | _ => false end.

Definition is_finite (x : float) : bool :=
  match x with S754_zero _ | S754_finite _ _ _ => true | _ => false end.

Definition sign (x : float) : bool :=
  match x with
  | S754_zero s | S754_infinity s | S754_finite s _ _ => s
  | S754_nan => false
  end.

(** Python [int(x)]: truncation toward zero; [None] stands for the
    [ValueError] (NaN) or [OverflowError] (infinity) that Python raises. *)
Definition trunc (x : float) : option Z :=
  match x with
  | S754_zero _ => Some 0
  | S754_finite s m e => Some (cond_Zopp s (Z.shiftl (Zpos m) e))
  | S754_infinity _ | S754_nan => None
  end.

(** C [fmod x y]: the remainder of the truncated quotient; it carries the
    sign of [x] and is computed without rounding. *)
Definition fmod (x y : float) : float :=
  match x, y with
  | S754_nan, _ | _, S754_nan => S754_nan
  | S754_infinity _, _ => S754_nan
  | _, S754_zero _ => S754_nan
  | _, S754_infinity _ => x
  | S754_zero _, _ => x
  | S754_finite sx mx ex, S754_finite _ my ey =>
      let ez := Z.min ex ey in
      let X := Zpos (fst (shl_align mx ex ez)) in
      let Y := Zpos (fst (shl_align my ey ez)) in
      binary_normalize prec emax (cond_Zopp sx (Z.rem X Y)) ez sx
  end.

(** CPython [float_rem] for a non-zero divisor: [fmod], then the result is
    moved to the sign of the divisor. *)
Definition float_mod (vx wx : float) : float :=
  let m := fmod vx wx in
  if is_zero m then S754_zero (sign wx)
  else if negb (Bool.eqb (ltb wx (S754_zero false)) (ltb m (S754_zero false)))
       then add m wx
       else m.

End F64.

Abbreviation float := F64.float.

Declare Scope f64_scope.
Delimit Scope f64_scope with f64.
Bind Scope f64_scope with spec_float F64.float.
Number Notation spec_float F64.of_number F64.to_number : f64_scope.
Infix "+" := F64.add : f64_scope.
Infix "-" := F64.sub : f64_scope.
Infix "*" := F64.mul : f64_scope.
Infix "/" := F64.div : f64_scope.
Notation "- x" := (F64.neg x) : f64_scope.
Infix "<?" := F64.ltb : f64_scope.
Infix "<=?" := F64.leb : f64_scope.
Infix "=?" := F64.eqb : f64_scope.



(* ===================================================================== *)
(** * Python builtins used by the source *)
(* ===================================================================== *)

Inductive exn : Type := ValueError | OverflowError | ZeroDivisionError.

Inductive result (A : Type) : Type :=
| Ok (a : A)
| Raise (e : exn).
Arguments Ok {A} a.
Arguments Raise {A} e.

Module Py.

(** [min(a, b)] keeps [a] unless [b < a]; [max(a, b)] keeps [a] unless
    [b > a] (a comparison with NaN is false, so NaN never replaces [a]). *)
Definition min (a b : float) : float := if (b <? a)%f64 then b else a.
Definition max (a b : float) : float := if (a <? b)%f64 then b else a.

(** [int(x)] on a float. *)
Definition int (x : float) : result Z :=
  match F64.trunc x with
  | Some z => Ok z
  | None => Raise (match x with S754_nan => ValueError | _ => OverflowError end)
  end.

(** [x / y] on floats. *)
Definition truediv (x y : float) : result float :=
  if F64.is_zero y then Raise ZeroDivisionError else Ok (x / y)%f64.

(** Conversion of an [int] operand in mixed arithmetic. *)
Definition float_of_int (z : Z) : result float :=
  let x := F64.of_Z z in
  if F64.is_finite x then Ok x else Raise OverflowError.

Definition range (n : nat) : list Z := map Z.of_nat (seq 0 n).

(** [str(z)] for an [int]. *)
Definition str (z : Z) : string := NilZero.string_of_int (Z.to_int z).

Definition round_half_even (num den : Z) : Z :=
  let q := num / den in
  match Z.compare (2 * (num mod den)) den with
  | Lt => q
  | Gt => q + 1
  | Eq => if Z.even q then q else q + 1
  end.

(** The format specification [:.1f]. *)
Definition format_1f (x : float) : string :=
  match x with
  | S754_nan => "nan"
  | S754_infinity s => if s then "-inf" else "inf"
  | S754_zero s => (if s then "-" else "") ++ "0.0"
  | S754_finite s m e =>
      let n := match e with
               | Zneg p => round_half_even (Zpos m * 10) (2 ^ Zpos p)
               | _ => Zpos m * 10 * 2 ^ e
               end in
      (if s then "-" else "") ++ str (n / 10) ++ "." ++ str (n mod 10)
  end%string.

(** [s.upper()], on the ASCII letters the widget titles are made of. *)
Definition upper_ascii (c : ascii) : ascii :=
  let n := nat_of_ascii c in
  if (Nat.leb 97 n && Nat.leb n 122)%bool then ascii_of_nat (n - 32) else c.

Fixpoint upper (s : string) : string :=
  match s with
  | EmptyString => EmptyString
  | String c s' => String (upper_ascii c) (upper s')
  end.

(** [s.count(c)] for a one-character [c]. *)
Fixpoint count (c : ascii) (s : string) : Z :=
  match s with
  | EmptyString => 0
  | String a s' => (if Ascii.eqb a c then 1 else 0) + count c s'
  end.

Definition startswith (p s : string) : bool := String.prefix p s.

End Py.

Declare Scope result_scope.
Delimit Scope result_scope with result.
Notation "x <- c ;; k" :=
  (match c with Ok x => k | Raise e => Raise e end)
  (at level 61, c at next level, right associativity) : result_scope.

(** ** Helpers of the source *)

Definition clamp (v lo hi : float) : float := Py.max lo (Py.min hi v).

Definition smoothstep (edge0 edge1 x : float) : result float :=
  (q <- Py.truediv (x - edge0)%f64 (edge1 - edge0)%f64 ;;
   let t := clamp q 0.0%f64 1.0%f64 in
   Ok (t * t * (3 - 2 * t))%f64)%result.

Definition math_pi : float := S754_finite false 7074237752028440 (-51).

(* ===================================================================== *)
(** * The part of Qt the widgets draw with *)
(* ===================================================================== *)

Module Qt.

Record QColor : Type := mkColor { red : Z; green : Z; blue : Z; alpha : Z }.

(** [QColor(r, g, b)] is opaque. *)
Definition rgb (r g b : Z) : QColor := mkColor r g b 255.
Definition rgba (r g b a : Z) : QColor := mkColor r g b a.

Record QPointF : Type := mkPoint { px : float; py : float }.

Definition point_add (a b : QPointF) : QPointF :=
  mkPoint (px a + px b)%f64 (py a + py b)%f64.

(** [QRect] has [int] coordinates, [QRectF] has [qreal] ones. *)
Record QRect : Type := mkQRect { left : Z; top : Z; width : Z; height : Z }.
Record QRectF : Type := mkQRectF { xf : float; yf : float; wf : float; hf : float }.

Inductive Rect : Type :=
| IntRect (r : QRect)
| RealRect (r : QRectF).

(** [widget.rect()] of a widget of [W] by [H] pixels. *)
Definition rect (W H : Z) : QRect := mkQRect 0 0 W H.

Definition adjusted (r : QRect) (dx1 dy1 dx2 dy2 : Z) : QRect :=
  mkQRect (left r + dx1) (top r + dy1) (width r + dx2 - dx1) (height r + dy2 - dy1).

(** [QRect::center]: the mean of the first and the last pixel column
    (row), by C++ integer division. *)
Definition center (r : QRect) : Z * Z :=
  (Z.quot (left r + (left r + width r - 1)) 2,
   Z.quot (top r + (top r + height r - 1)) 2).

Definition topLeft (r : QRectF) : QPointF := mkPoint (xf r) (yf r).
Definition topRight (r : QRectF) : QPointF := mkPoint (xf r + wf r)%f64 (yf r).

Inductive CapStyle : Type := SquareCap | RoundCap.

Inductive Pen : Type :=
| NoPen
| SolidPen (c : QColor) (width : float) (cap : CapStyle).

(** [QPen(color, width)] and the pen [setPen(color)] installs. *)
Definition QPen (c : QColor) (width : float) : Pen := SolidPen c width SquareCap.
Definition pen_of_color (c : QColor) : Pen := QPen c 1.0%f64.

Definition setCapStyle (cap : CapStyle) (p : Pen) : Pen :=
  match p with
  | NoPen => NoPen
  | SolidPen c w _ => SolidPen c w cap
  end.

Definition stops : Type := list (float * QColor).

(** [QGradient::setColorAt]: the stops stay ordered by position; a stop at
    an existing position is replaced; a position below 0 or above 1 is
    ignored; a NaN position goes first. *)
Fixpoint insert_stop (pos : float) (c : QColor) (l : stops) : stops :=
  match l with
  | [] => [(pos, c)]
  | (q, d) :: l' =>
      if (q <? pos)%f64 then (q, d) :: insert_stop pos c l'
      else if (q =? pos)%f64 then (pos, c) :: l'
      else (pos, c) :: (q, d) :: l'
  end.

Definition setColorAt (pos : float) (c : QColor) (l : stops) : stops :=
  if ((1 <? pos) || (pos <? 0))%f64%bool then l
  else match pos with
       | S754_nan => (pos, c) :: l
       | _ => insert_stop pos c l
       end.

Inductive Brush : Type :=
| NoBrush
| SolidBrush (c : QColor)
| QLinearGradient (start stop : QPointF) (st : stops)
| QRadialGradient (centre : QPointF) (radius : float) (st : stops).

Inductive Weight : Type := DemiBold | Bold | Black.

Record QFont : Type := mkFont { family : string; pointSize : Z; weight : Weight }.

(** Alignment flags. *)
Definition AlignLeft : Z := 1.
Definition AlignRight : Z := 2.
Definition AlignHCenter : Z := 4.
Definition AlignTop : Z := 32.
Definition AlignVCenter : Z := 128.
Definition AlignCenter : Z := Z.lor AlignHCenter AlignVCenter.

(** A draw primitive carries the pen, brush or font in effect when it was
    issued. *)
Inductive Prim : Type :=
| DrawRoundedRect (r : Rect) (rx ry : Z) (p : Pen) (b : Brush)
| DrawText (r : Rect) (flags : Z) (text : string) (p : Pen) (f : option QFont)
| DrawLine (a b : QPointF) (p : Pen)
| FillRect (r : Rect) (b : Brush)
| DrawArc (r : Rect) (startAngle spanAngle : Z) (p : Pen)
| DrawEllipse (c : QPointF) (rx ry : float) (p : Pen) (b : Brush).

(** The state of a [QPainter]: its settings and what it has drawn. *)
Record Painter : Type := mkPainter {
  pen : Pen;
  brush : Brush;
  font : option QFont;
  antialiasing : bool;
  drawn : list Prim
}.

(** [QPainter(widget)]: black one-pixel pen, no brush, the widget's font. *)
Definition QPainter : Painter :=
  mkPainter (pen_of_color (rgb 0 0 0)) NoBrush None false [].

(** Painting code: a state transformer on the painter that may raise. *)
Definition Paint (A : Type) : Type := Painter -> result (A * Painter).

Definition ret {A : Type} (a : A) : Paint A := fun p => Ok (a, p).

Definition bind {A B : Type} (c : Paint A) (k : A -> Paint B) : Paint B :=
  fun p => match c p with
           | Ok (a, p') => k a p'
           | Raise e => Raise e
           end.

Definition lift {A : Type} (r : result A) : Paint A :=
  fun p => match r with Ok a => Ok (a, p) | Raise e => Raise e end.

Definition setRenderHint (on : bool) : Paint unit :=
  fun p => Ok (tt, mkPainter (pen p) (brush p) (font p) on (drawn p)).

Definition setPen (q : Pen) : Paint unit :=
  fun p => Ok (tt, mkPainter q (brush p) (font p) (antialiasing p) (drawn p)).

Definition setBrush (b : Brush) : Paint unit :=
  fun p => Ok (tt, mkPainter (pen p) b (font p) (antialiasing p) (drawn p)).

Definition setFont (f : QFont) : Paint unit :=
  fun p => Ok (tt, mkPainter (pen p) (brush p) (Some f) (antialiasing p) (drawn p)).

Definition emit (mk : Painter -> Prim) : Paint unit :=
  fun p => Ok (tt, mkPainter (pen p) (brush p) (font p) (antialiasing p)
                             (drawn p ++ [mk p])).

Definition drawRoundedRect (r : Rect) (rx ry : Z) : Paint unit :=
  emit (fun p => DrawRoundedRect r rx ry (pen p) (brush p)).

Definition drawText (r : Rect) (flags : Z) (text : string) : Paint unit :=
  emit (fun p => DrawText r flags text (pen p) (font p)).

Definition drawLine (a b : QPointF) : Paint unit :=
  emit (fun p => DrawLine a b (pen p)).

Definition fillRect (r : Rect) (b : Brush) : Paint unit :=
  emit (fun _ => FillRect r b).

Definition drawArc (r : Rect) (a alen : Z) : Paint unit :=
  emit (fun p => DrawArc r a alen (pen p)).

Definition drawEllipse (c : QPointF) (rx ry : float) : Paint unit :=
  emit (fun p => DrawEllipse c rx ry (pen p) (brush p)).

(** A [for] loop whose body paints. *)
Fixpoint for_each {A : Type} (l : list A) (body : A -> Paint unit) : Paint unit :=
  match l with
  | [] => ret tt
  | a :: l' => bind (body a) (fun _ => for_each l' body)
  end.

Definition Painting : Type := Paint unit.

(** What a paint handler leaves on the widget. *)
Definition run (c : Paint unit) : result (list Prim) :=
  match c QPainter with
  | Ok (_, p) => Ok (drawn p)
  | Raise e => Raise e
  end.

End Qt.

Import Qt.

Declare Scope paint_scope.
Delimit Scope paint_scope with paint.
Notation "x <- c ;; k" := (Qt.bind c (fun x => k))
  (at level 61, c at next level, right associativity) : paint_scope.
Notation "c ;; k" := (Qt.bind c (fun _ => k))
  (at level 61, right associativity) : paint_scope.

(* ===================================================================== *)
(** * Widgets *)
(* ===================================================================== *)

Module NeonBar.

Record t : Type := mk {
  title : string;
  value : float;
  unit : string;
  style : string
}.

(** [NeonBar(title, init, style)]; [init] arrives as a number. *)
Definition init (title : string) (init : float) (style : string) : t :=
  mk title init "" style.

Definition setValue (self : t) (v : float) : t :=
  mk (title self) (clamp v 0.0%f64 100.0%f64) (unit self) (style self).

(** The gradient of the fill, by style. *)
Definition gradient (self : t) (start stop : QPointF) : Brush :=
  let stops :=
    if String.eqb (style self) "rainbow" then
      setColorAt 1.0%f64 (rgb 255 90 80)
        (setColorAt 0.5%f64 (rgb 255 200 60)
          (setColorAt 0.0%f64 (rgb 30 220 140) []))
    else if String.eqb (style self) "pink" then
      setColorAt 1.0%f64 (rgb 200 50 255)
        (setColorAt 0.0%f64 (rgb 255 100 220) [])
    else if String.eqb (style self) "green" then
      setColorAt 1.0%f64 (rgb 20 160 100)
        (setColorAt 0.0%f64 (rgb 40 220 120) [])
    else
      setColorAt 1.0%f64 (rgb 150 120 255)
        (setColorAt 0.0%f64 (rgb 80 200 255) []) in
  QLinearGradient start stop stops.

(** [paintEvent] on a widget of [W] by [H] pixels. *)
Definition paintEvent (self : t) (W H : Z) : Painting :=
  (setRenderHint true ;;
   let r := adjusted (rect W H) 8 8 (-8) (-8) in
   (* background card *)
   setPen NoPen ;;
   setBrush (SolidBrush (rgba 14 18 24 220)) ;;
   drawRoundedRect (IntRect (rect W H)) 10 10 ;;
   (* title label *)
   setPen (pen_of_color (rgb 170 190 210)) ;;
   setFont (mkFont "Segoe UI" 10 Bold) ;;
   drawText (IntRect (mkQRect (left r) (top r - 2) (width r) 16))
            (Z.lor AlignLeft AlignTop) (Py.upper (title self)) ;;
   (* bar background *)
   let bar := mkQRectF (F64.of_Z (left r)) (F64.of_Z (top r + 20))
                       (F64.of_Z (width r)) (F64.of_Z 14) in
   setBrush (SolidBrush (rgba 28 36 48 220)) ;;
   setPen NoPen ;;
   drawRoundedRect (RealRect bar) 8 8 ;;
   (* fill gradient depends on style *)
   let w := (wf bar * (value self / 100.0))%f64 in
   let fill := mkQRectF (xf bar) (yf bar) w (hf bar) in
   let grad := gradient self (topLeft fill) (topRight fill) in
   setBrush grad ;;
   drawRoundedRect (RealRect fill) 8 8 ;;
   (* glow line top *)
   setPen (QPen (rgba 255 255 255 70) 1.0%f64) ;;
   drawLine (point_add (topLeft bar) (mkPoint 0 1)%f64)
            (point_add (topRight bar) (mkPoint 0 1)%f64) ;;
   (* value text right *)
   setPen (pen_of_color (rgb 230 240 255)) ;;
   setFont (mkFont "Consolas" 11 DemiBold) ;;
   n <- lift (Py.int (value self)) ;;
   let txt := (Py.str n ++ (if String.eqb (unit self) "" then "%" else unit self))%string in
   drawText (IntRect r) (Z.lor AlignRight AlignVCenter) txt)%paint.

End NeonBar.

Module AnimatedRings.

Record t : Type := mk { phase : float }.

Definition init : t := mk 0.0%f64.

Section Trigonometry.

(** [math.cos] and [math.sin] of the C library. *)
Variables cos sin : float -> float.

Definition _draw_ring (self : t) (center : QPointF) (radius width offset : float)
    (color : QColor) : Painting :=
  (let base := F64.float_mod (phase self + offset)%f64 1.0%f64 in
   (* two arcs per ring *)
   for_each (Py.range 2) (fun i =>
     let start := ((base + F64.of_Z i * 0.48) * 360.0)%f64 in
     let span := if Z.eqb i 0 then 200.0%f64 else 120.0%f64 in
     let pen := setCapStyle RoundCap (QPen color width) in
     setPen pen ;;
     let rect := mkQRectF (px center - radius)%f64 (py center - radius)%f64
                          (radius * 2)%f64 (radius * 2)%f64 in
     a <- lift (Py.int (- start * 16)%f64) ;;
     alen <- lift (Py.int (- span * 16)%f64) ;;
     drawArc (RealRect rect) a alen) ;;
   (* dotted orbit *)
   setPen NoPen ;;
   let dots := 36%nat in
   for_each (Py.range dots) (fun k =>
     let t := F64.float_mod (F64.of_Z k / F64.of_Z (Z.of_nat dots) + base * 0.08)%f64 1.0%f64 in
     let ang := (t * 2 * math_pi)%f64 in
     let d := (radius - width * 1.6)%f64 in
     let x := (px center + cos ang * d)%f64 in
     let y := (py center + sin ang * d)%f64 in
     s <- lift (smoothstep 0.0%f64 1.0%f64 (1.0 - F64.abs (0.5 - t) * 2)%f64) ;;
     n <- lift (Py.int (80 * s)%f64) ;;
     let a := n + 40 in
     setBrush (SolidBrush (rgba 80 220 255 a)) ;;
     drawEllipse (mkPoint x y) 2.2%f64 2.2%f64))%paint.

(** The five rings: radius, stroke width, phase offset, colour. *)
Definition rings (radius : float) : list (float * float * float * QColor) :=
  [ ((radius * 1.02)%f64, 9.0%f64, 0.00%f64, rgba 80 220 255 220);
    ((radius * 0.86)%f64, 6.0%f64, 0.19%f64, rgba 255 160 90 210);
    ((radius * 0.72)%f64, 4.0%f64, 0.36%f64, rgba 180 120 255 200);
    ((radius * 0.59)%f64, 3.0%f64, 0.54%f64, rgba 100 220 200 200);
    ((radius * 0.46)%f64, 2.2%f64, 0.72%f64, rgba 255 110 200 180) ].

(** [paintEvent] on a widget of [W] by [H] pixels; [caption] is the text in
    the middle (["NOVA"] in [nov.py], ["J.A.R.V.I.S"] in [nova.py]). *)
Definition paintEvent (caption : string) (self : t) (W H : Z) : Painting :=
  (setRenderHint true ;;
   let rect := Qt.rect W H in
   let '(cx, cy) := Qt.center rect in
   let radius := (F64.of_Z (Z.min (width rect) (height rect)) * 0.42)%f64 in
   (* radial background subtle glow *)
   let bg := QRadialGradient (mkPoint (F64.of_Z cx) (F64.of_Z cy)) (radius * 1.8)%f64
               (setColorAt 1.0%f64 (rgba 6 8 12 0)
                 (setColorAt 0.0%f64 (rgb 10 12 16) [])) in
   fillRect (IntRect rect) bg ;;
   (* multiple rings with different speeds and widths *)
   for_each (rings radius) (fun '(r, w, off, col) =>
     _draw_ring self (mkPoint (F64.of_Z cx) (F64.of_Z cy)) r w off col) ;;
   (* central text *)
   setPen (pen_of_color (rgb 200 240 255)) ;;
   setFont (mkFont "Segoe UI" 42 Black) ;;
   drawText (IntRect rect) AlignCenter caption ;;
   setFont (mkFont "Segoe UI" 12 DemiBold) ;;
   setPen (pen_of_color (rgb 160 200 255)) ;;
   drawText (IntRect (adjusted rect 0 40 0 0)) (Z.lor AlignHCenter AlignTop)
            (String "226" (String "128" (String "162" "  ONLINE"))))%paint.

End Trigonometry.

End AnimatedRings.

Module NetworkStats.

Record t : Type := mk { ip : string; up : string; down : string }.

Definition init : t :=
  mk "IP Address: 0.0.0.0" "Upload: 0.0 MB/s" "Download: 0.0 MB/s".

End NetworkStats.

Module ClockCard.

Record t : Type := mk { timeLbl : string; dateLbl : string }.

Definition init : t := mk "--:--:--" "".

(** [tick]: the two [strftime] renderings of [datetime.now()] are inputs. *)
Definition tick (self : t) (hms date : string) : t := mk hms date.

End ClockCard.

(* ===================================================================== *)
(** * The system-statistics provider *)
(* ===================================================================== *)

(** An entry of [psutil.net_if_addrs()]. *)
Record snicaddr : Type := mkAddr { family : Z; address : string }.

(** What the calls into [psutil] return on one sampling cycle: a value, or
    an exception.  Dictionaries are listed in iteration order. *)
Record Psutil : Type := mkPsutil {
  cpu_percent : result float;
  sensors_temperatures : result (list (string * list float));
  has_sensors_battery : bool;
  sensors_battery : result (option float);
  virtual_memory : result float;
  disk_usage : result float;
  net_if_addrs : result (list (string * list snicaddr));
  net_io_counters : result (Z * Z)
}.

(** The surroundings of one sampling cycle: the [psutil] module ([None] when
    its import failed), the clock, and the numbers [random.uniform(a, b)]
    returns. *)
Record Env : Type := mkEnv {
  psutil : option Psutil;
  time_time : float;
  random_uniform : float -> float -> float
}.

(* ===================================================================== *)
(** * The main window *)
(* ===================================================================== *)

Module NovaHUD.

(** The two revisions of the program. *)
Inductive revision : Type := nov_py | nova_py.

Record t : Type := mk {
  cpu_util : NeonBar.t;
  cpu_temp : NeonBar.t;
  battery : NeonBar.t;
  mem : NeonBar.t;
  disk : NeonBar.t;
  rings : AnimatedRings.t;
  net : NetworkStats.t;
  clock : ClockCard.t;
  last_bytes : option (Z * Z)
}.

Definition set_rings (self : t) (r : AnimatedRings.t) : t :=
  mk (cpu_util self) (cpu_temp self) (battery self) (mem self) (disk self)
     r (net self) (clock self) (last_bytes self).

Definition set_clock (self : t) (c : ClockCard.t) : t :=
  mk (cpu_util self) (cpu_temp self) (battery self) (mem self) (disk self)
     (rings self) (net self) c (last_bytes self).

Definition animate (self : t) : t :=
  set_rings self
    (AnimatedRings.mk
       (F64.float_mod (AnimatedRings.phase (rings self) + 0.0075)%f64 1.0%f64)).

Definition tick (self : t) (hms date : string) : t :=
  set_clock self (ClockCard.tick (clock self) hms date).

Section Sampling.

(** [math.sin] of the C library. *)
Variable sin : float -> float.

(** The first reading of the first sensor that has one. *)
Fixpoint first_current (temps : list (string * list float)) : option float :=
  match temps with
  | [] => None
  | (_, v) :: rest =>
      match v with
      | [] => first_current rest
      | c :: _ => Some c
      end
  end.

(** The inner loop over the addresses of one interface. *)
Fixpoint scan_addresses (arr : list snicaddr) (ip : string) : string :=
  match arr with
  | [] => ip
  | a :: rest =>
      if (negb (Z.eqb (family a) 0)
          && Z.eqb (Py.count "."%char (address a)) 3
          && negb (Py.startswith "169.254" (address a)))%bool
      then address a
      else scan_addresses rest ip
  end.

(** The outer loop over the interfaces. *)
Fixpoint scan_interfaces (addrs : list (string * list snicaddr)) (ip : string) : string :=
  match addrs with
  | [] => ip
  | (_, arr) :: rest =>
      let ip' := scan_addresses arr ip in
      if negb (String.eqb ip' "0.0.0.0") then ip' else scan_interfaces rest ip'
  end.

Definition sample_cpu (env : Env) : float :=
  match psutil env with
  | Some ps =>
      match cpu_percent ps with
      | Ok v => v
      | Raise _ => random_uniform env 8 88
      end
  | None => random_uniform env 8 88
  end%f64.

Definition sample_temp (env : Env) : float :=
  let temp_c :=
    match psutil env with
    | Some ps =>
        match sensors_temperatures ps with
        | Ok temps => first_current temps
        | Raise _ => None
        end
    | None => None
    end in
  match temp_c with
  | Some c => c
  | None => (48 + 12 * sin (time_time env / 6.5) + random_uniform env (-2) 2)%f64
  end.

Definition sample_battery (env : Env) : float :=
  let batt_pct :=
    match psutil env with
    | Some ps =>
        if has_sensors_battery ps then
          match sensors_battery ps with
          | Ok (Some pct) => Some pct
          | Ok None => None
          | Raise _ => None
          end
        else None
    | None => None
    end in
  match batt_pct with
  | Some pct => pct
  | None => (70 + 8 * sin (time_time env / 10.0) + random_uniform env (-4) 4)%f64
  end.

Definition sample_mem (env : Env) : float :=
  match psutil env with
  | Some ps =>
      match virtual_memory ps with
      | Ok v => v
      | Raise _ => random_uniform env 22 86
      end
  | None => random_uniform env 22 86
  end%f64.

Definition sample_disk (env : Env) : float :=
  match psutil env with
  | Some ps =>
      match disk_usage ps with
      | Ok v => v
      | Raise _ => random_uniform env 12 88
      end
  | None => random_uniform env 12 88
  end%f64.

(** The throughput of one direction, from two readings of a byte counter. *)
Definition throughput (now last : Z) : result float :=
  (d <- Py.float_of_int (now - last) ;;
   Ok (d / 1024.0 / 1024.0)%f64)%result.

(** The network part of [sampleStats]: the labels and [last_bytes]. *)
Definition sample_network (env : Env) (net : NetworkStats.t) (last : option (Z * Z))
  : NetworkStats.t * option (Z * Z) :=
  match psutil env with
  | Some ps =>
      let ip :=
        match net_if_addrs ps with
        | Ok addrs => ("IP Address: " ++ scan_interfaces addrs "0.0.0.0")%string
        | Raise _ => "IP Address: 0.0.0.0"%string
        end in
      match net_io_counters ps with
      | Ok nowb =>
          match last with
          | Some lastb =>
              match throughput (fst nowb) (fst lastb), throughput (snd nowb) (snd lastb) with
              | Ok up, Ok down =>
                  (NetworkStats.mk ip
                     ("Upload: " ++ Py.format_1f up ++ " MB/s")
                     ("Download: " ++ Py.format_1f down ++ " MB/s"),
                   Some nowb)
              | _, _ => (NetworkStats.mk ip (NetworkStats.up net) (NetworkStats.down net), last)
              end
          | None =>
              (NetworkStats.mk ip (NetworkStats.up net) (NetworkStats.down net), Some nowb)
          end
      | Raise _ => (NetworkStats.mk ip (NetworkStats.up net) (NetworkStats.down net), last)
      end
  | None =>
      (NetworkStats.mk "IP Address: 192.168.1.101"
         ("Upload: " ++ Py.format_1f (random_uniform env 0.4 3.2)%f64 ++ " MB/s")
         ("Download: " ++ Py.format_1f (random_uniform env 3.3 18.3)%f64 ++ " MB/s"),
       last)
  end%string.

(** The value handed to the BATTERY bar: [nov.py] turns the percentage into
    a pseudo-temperature, [nova.py] shows the percentage. *)
Definition battery_reading (rev : revision) (batt_pct : float) : float :=
  match rev with
  | nov_py => let pseudo_temp := (60 + (batt_pct / 100.0) * 20)%f64 in
              clamp pseudo_temp 0 100
  | nova_py => clamp batt_pct 0 100
  end%f64.

Definition sampleStats (rev : revision) (self : t) (env : Env) : t :=
  let cpu_util' := NeonBar.setValue (cpu_util self) (sample_cpu env) in
  let cpu_temp' := NeonBar.setValue (cpu_temp self)
                     (clamp ((sample_temp env / 100.0) * 100) 0 100)%f64 in
  let battery' := NeonBar.setValue (battery self)
                    (battery_reading rev (sample_battery env)) in
  let mem' := NeonBar.setValue (mem self) (sample_mem env) in
  let disk' := NeonBar.setValue (disk self) (sample_disk env) in
  let '(net', last') := sample_network env (net self) (last_bytes self) in
  mk cpu_util' cpu_temp' battery' mem' disk' (rings self) net' (clock self) last'.

(** The window as [__init__] builds it, before its first [sampleStats] and
    [tick]. *)
Definition widgets : t :=
  mk (NeonBar.init "CPU UTILIZATION" 65%f64 "rainbow")
     (NeonBar.init "CPU TEMPERATURE" 62%f64 "rainbow")
     (NeonBar.init "BATTERY" 72%f64 "rainbow")
     (NeonBar.init "MEMORY USAGE" 50%f64 "pink")
     (NeonBar.init "DISK USAGE" 75%f64 "green")
     AnimatedRings.init NetworkStats.init ClockCard.init None.

(** [NovaHUD()]: the constructor samples and ticks once. *)
Definition init (rev : revision) (env : Env) (hms date : string) : t :=
  tick (sampleStats rev widgets env) hms date.

(** The three timers of the window and the slots they are connected to. *)
Inductive event : Type :=
| animTimer
| statTimer (env : Env)
| clockTimer (hms date : string).

Definition handle (rev : revision) (self : t) (ev : event) : t :=
  match ev with
  | animTimer => animate self
  | statTimer env => sampleStats rev self env
  | clockTimer hms date => tick self hms date
  end.

(** The window after a sequence of timer events. *)
Definition run (rev : revision) (self : t) (evs : list event) : t :=
  fold_left (handle rev) evs self.

End Sampling.

(** The caption in the middle of the ring field. *)
Definition caption (rev : revision) : string :=
  match rev with
  | nov_py => "NOVA"
  | nova_py => "J.A.R.V.I.S"
  end.

(** A repaint of the ring field of the window, on [W] by [H] pixels. *)
Definition paint_rings (cos sin : float -> float) (rev : revision) (self : t) (W H : Z)
  : result (list Prim) :=
  Qt.run (AnimatedRings.paintEvent cos sin (caption rev) (rings self) W H).

End NovaHUD.

(* ===================================================================== *)
(** * The camera card of [nova.py] *)
(* ===================================================================== *)

Module Cv2.

(** A numpy array holding an image: its shape and its bytes. *)
Record Image : Type := mkImage {
  rows : Z;
  cols : Z;
  channels : Z;
  data : list Z
}.

Inductive Font : Type := FONT_HERSHEY_SIMPLEX.

(** What [cv2.rectangle] and [cv2.putText] draw into an array, in place. *)
Inductive Mark : Type :=
| Rectangle (pt1 pt2 : Z * Z) (color : Z * Z * Z) (thickness : Z)
| Text (text : string) (org : Z * Z) (fontFace : Font) (fontScale : float)
       (color : Z * Z * Z) (thickness : Z).

(** An array that is drawn into: the image it started as and the marks
    made on it since, oldest first. *)
Record Mat : Type := mkMat {
  image : Image;
  marks : list Mark
}.

Definition rectangle (img : Mat) (pt1 pt2 : Z * Z) (color : Z * Z * Z) (thickness : Z) : Mat :=
  mkMat (image img) (marks img ++ [Rectangle pt1 pt2 color thickness]).

Definition putText (img : Mat) (text : string) (org : Z * Z) (fontFace : Font)
    (fontScale : float) (color : Z * Z * Z) (thickness : Z) : Mat :=
  mkMat (image img) (marks img ++ [Text text org fontFace fontScale color thickness]).

(** [cv2.error], which OpenCV raises on an array it refuses. *)
Inductive error : Type := cv2_error.

(** The outcome of a call that may raise [cv2.error]. *)
Inductive checked (A : Type) : Type :=
| Returns (a : A)
| Throws (e : error).
Arguments Returns {A} a.
Arguments Throws {A} e.

(** A [cv2.VideoCapture]: whether the device is open, and how often
    [release] was called. *)
Record VideoCapture : Type := mkCapture {
  isOpened : bool;
  released : nat
}.

Definition release (c : VideoCapture) : VideoCapture := mkCapture false (S (released c)).

(** [capture.read()]: the next image of the device when the capture is open
    and the device delivers one; [None] stands for [(False, None)]. *)
Definition read (c : VideoCapture) (next : option Image) : option Image :=
  if isOpened c then next else None.

End Cv2.

Module PyStr.

Definition lower_ascii (c : ascii) : ascii :=
  let n := nat_of_ascii c in
  if (Nat.leb 65 n && Nat.leb n 90)%bool then ascii_of_nat (n + 32) else c.

Fixpoint lower (s : string) : string :=
  match s with
  | EmptyString => EmptyString
  | String c s' => String (lower_ascii c) (lower s')
  end.

(** [s.capitalize()], on ASCII: the first character in upper case, the
    others in lower case. *)
Definition capitalize (s : string) : string :=
  match s with
  | EmptyString => EmptyString
  | String c s' => String (Py.upper_ascii c) (lower s')
  end.

(** [d[key]] on a dictionary with string keys; [None] stands for
    [KeyError]. *)
Fixpoint getitem {A : Type} (d : list (string * A)) (key : string) : option A :=
  match d with
  | [] => None
  | (k, v) :: rest => if String.eqb k key then Some v else getitem rest key
  end.

End PyStr.

Module CameraWidget.

Import Cv2.

Inductive Format : Type := Format_BGR888.

(** [QImage(data, width, height, bytesPerLine, format)]. *)
Record QImage : Type := mkQImage {
  bits : Mat;
  width : Z;
  height : Z;
  bytesPerLine : Z;
  format : Format
}.

(** What the video label shows: its text, or a pixmap. *)
Inductive Label : Type :=
| LabelText (s : string)
| LabelPixmap (img : QImage).

Record t : Type := mk {
  video_label : Label;
  capture : VideoCapture;
  timer : bool
}.

(** [__init__]: [opened] tells whether [cv2.VideoCapture(0)] found a
    device; the timer is started. *)
Definition init (opened : bool) : t :=
  mk (LabelText "Initializing Camera...") (mkCapture opened 0) true.

Section Vision.

(** The image operations of OpenCV and numpy, and the face and emotion
    detectors: their results are not interpreted. *)
Variable resize_data : Image -> Z -> Z -> list Z.
Variable gray_data rgb_data : Image -> list Z.
Variable roi : Image -> Z -> Z -> Z -> Z -> Image.
Variable detectMultiScale : Image -> list (Z * Z * Z * Z).
(** [DeepFace.analyze(roi, actions=['emotion'], enforce_detection=False)]:
    a list of dictionaries, or [None] when it raises. *)
Variable analyze : Image -> option (list (list (string * string))).

(** [cv2.resize(img, (w, h))]: an empty array is refused. *)
Definition resize (img : Image) (w h : Z) : checked Image :=
  if ((rows img <=? 0) || (cols img <=? 0))%bool then Throws cv2_error
  else Returns (mkImage h w (channels img) (resize_data img w h)).

(** [cv2.cvtColor] from BGR to grey and to RGB: a new array each time; an
    array that has neither 3 nor 4 channels is refused. *)
Definition to_gray (img : Image) : checked Image :=
  if ((channels img =? 3) || (channels img =? 4))%bool
  then Returns (mkImage (rows img) (cols img) 1 (gray_data img))
  else Throws cv2_error.

Definition to_rgb (img : Image) : checked Image :=
  if ((channels img =? 3) || (channels img =? 4))%bool
  then Returns (mkImage (rows img) (cols img) 3 (rgb_data img))
  else Throws cv2_error.

(** The body of the [try] block for one face: [Some emotion] when no
    statement before [putText] raises. *)
Definition emotion_of (rgb_frame : Image) (x y w h : Z) : option string :=
  let face_roi := roi rgb_frame y (y + h) x (x + w) in
  match analyze face_roi with
  | Some analysis =>
      match analysis with
      | first :: _ =>
          match PyStr.getitem first "dominant_emotion" with
          | Some e => Some (PyStr.capitalize e)
          | None => None
          end
      | [] => None
      end
  | None => None
  end.

(** One turn of the loop over the faces. *)
Definition annotate (rgb_frame : Image) (frame : Mat) (face : Z * Z * Z * Z) : Mat :=
  let '(x, y, w, h) := face in
  let frame := rectangle frame (x, y) (x + w, y + h) (100, 220, 255) 2 in
  match emotion_of rgb_frame x y w h with
  | Some emotion =>
      putText frame emotion (x, y - 10) FONT_HERSHEY_SIMPLEX 0.7%f64 (100, 220, 255) 2
  | None => frame
  end.

(** [update_frame]; [next] is what the device delivers.  The calls before
    the loop are outside any [try]: their [cv2.error] leaves the method,
    before the label is touched. *)
Definition update_frame (self : t) (next : option Image) : checked t :=
  match read (capture self) next with
  | None => Returns self
  | Some frame =>
      match resize frame 320 240 with
      | Throws e => Throws e
      | Returns frame =>
          match to_gray frame with
          | Throws e => Throws e
          | Returns gray_frame =>
              match to_rgb frame with
              | Throws e => Throws e
              | Returns rgb_frame =>
                  let faces := detectMultiScale gray_frame in
                  let frame := fold_left (annotate rgb_frame) faces (mkMat frame []) in
                  let '(h, w, ch) :=
                    (rows (image frame), cols (image frame), channels (image frame)) in
                  let bytes_per_line := ch * w in
                  let qt_image := mkQImage frame w h bytes_per_line Format_BGR888 in
                  Returns (mk (LabelPixmap qt_image) (capture self) (timer self))
              end
          end
      end
  end.

Definition stop_camera (self : t) : t :=
  let self := mk (video_label self) (capture self) false in
  if isOpened (capture self)
  then mk (video_label self) (release (capture self)) (timer self)
  else self.

(** What happens to the widget: its timer fires (only while it is
    active), or the window is closed ([closeEvent] calls [stop_camera]). *)
Inductive event : Type :=
| timeout (next : option Image)
| closeEvent.

(** An exception that leaves a slot is reported by PySide6 and the event
    loop goes on, with the widget as the slot left it. *)
Definition handle (self : t) (ev : event) : t :=
  match ev with
  | timeout next =>
      if timer self
      then match update_frame self next with
           | Returns self' => self'
           | Throws _ => self
           end
      else self
  | closeEvent => stop_camera self
  end.

Definition run (self : t) (evs : list event) : t := fold_left handle evs self.

End Vision.

End CameraWidget.
(* ===================================================================== *)
(** * The ring field as effectful code *)
(* ===================================================================== *)

(** The handlers of the window run in a process that holds more than the
    painter: the widgets and their attributes, the generator behind
    [random.uniform] and the clock behind [time.time].  Here the code of
    the ring field is written against all of it. *)
Module Runtime.

Record World : Type := mkWorld {
  window : NovaHUD.t;
  (** the numbers [random.random()] will hand out, and how many it has *)
  generator : nat -> float;
  consumed : nat;
  (** what [time.time()] returns *)
  wall_clock : float
}.

(** Code of a handler: it may read and write the world, paint, and raise. *)
Definition Handler (A : Type) : Type := World -> Painter -> result (A * World * Painter).

Definition ret {A : Type} (a : A) : Handler A := fun w p => Ok (a, w, p).

Definition bind {A B : Type} (c : Handler A) (k : A -> Handler B) : Handler B :=
  fun w p => match c w p with
             | Ok (a, w', p') => k a w' p'
             | Raise e => Raise e
             end.

Definition lift {A : Type} (r : result A) : Handler A :=
  fun w p => match r with Ok a => Ok (a, w, p) | Raise e => Raise e end.

(** A call on the painter. *)
Definition paint {A : Type} (c : Paint A) : Handler A :=
  fun w p => match c p with
             | Ok (a, p') => Ok (a, w, p')
             | Raise e => Raise e
             end.

(** [self.phase] of the ring field, read and written. *)
Definition get_phase : Handler float :=
  fun w p => Ok (AnimatedRings.phase (NovaHUD.rings (window w)), w, p).

Definition set_phase (v : float) : Handler unit :=
  fun w p => Ok (tt, mkWorld (NovaHUD.set_rings (window w) (AnimatedRings.mk v))
                             (generator w) (consumed w) (wall_clock w), p).

(** [random.random()] advances the generator. *)
Definition random_random : Handler float :=
  fun w p => Ok (generator w (consumed w),
                 mkWorld (window w) (generator w) (S (consumed w)) (wall_clock w), p).

(** [random.uniform(a, b)] is [a + (b - a) * random()]. *)
Definition random_uniform (a b : float) : Handler float :=
  bind random_random (fun u => ret (a + (b - a) * u)%f64).

Definition time_time : Handler float := fun w p => Ok (wall_clock w, w, p).

Fixpoint for_each {A : Type} (l : list A) (body : A -> Handler unit) : Handler unit :=
  match l with
  | [] => ret tt
  | a :: l' => bind (body a) (fun _ => for_each l' body)
  end.

End Runtime.

Declare Scope handler_scope.
Delimit Scope handler_scope with handler.
Notation "x <- c ;; k" := (Runtime.bind c (fun x => k))
  (at level 61, c at next level, right associativity) : handler_scope.
Notation "c ;; k" := (Runtime.bind c (fun _ => k))
  (at level 61, right associativity) : handler_scope.

(** [AnimatedRings] of the window, statement by statement. *)
Module RingField.

Import Runtime.

Section Trigonometry.

(** [math.cos] and [math.sin] of the C library. *)
Variables cos sin : float -> float.

Definition _draw_ring (center : QPointF) (radius width offset : float) (color : QColor)
  : Handler unit :=
  (self_phase <- get_phase ;;
   let base := F64.float_mod (self_phase + offset)%f64 1.0%f64 in
   (* two arcs per ring *)
   for_each (Py.range 2) (fun i =>
     let start := ((base + F64.of_Z i * 0.48) * 360.0)%f64 in
     let span := if Z.eqb i 0 then 200.0%f64 else 120.0%f64 in
     let pen := setCapStyle RoundCap (QPen color width) in
     paint (setPen pen) ;;
     let rect := mkQRectF (px center - radius)%f64 (py center - radius)%f64
                          (radius * 2)%f64 (radius * 2)%f64 in
     a <- lift (Py.int (- start * 16)%f64) ;;
     alen <- lift (Py.int (- span * 16)%f64) ;;
     paint (drawArc (RealRect rect) a alen)) ;;
   (* dotted orbit *)
   paint (setPen NoPen) ;;
   let dots := 36%nat in
   for_each (Py.range dots) (fun k =>
     let t := F64.float_mod (F64.of_Z k / F64.of_Z (Z.of_nat dots) + base * 0.08)%f64 1.0%f64 in
     let ang := (t * 2 * math_pi)%f64 in
     let d := (radius - width * 1.6)%f64 in
     let x := (px center + cos ang * d)%f64 in
     let y := (py center + sin ang * d)%f64 in
     s <- lift (smoothstep 0.0%f64 1.0%f64 (1.0 - F64.abs (0.5 - t) * 2)%f64) ;;
     n <- lift (Py.int (80 * s)%f64) ;;
     let a := n + 40 in
     paint (setBrush (SolidBrush (rgba 80 220 255 a))) ;;
     paint (drawEllipse (mkPoint x y) 2.2%f64 2.2%f64)))%handler.

(** [paintEvent] on a widget of [W] by [H] pixels, with the caption of the
    revision in the middle. *)
Definition paintEvent (caption : string) (W H : Z) : Handler unit :=
  (paint (setRenderHint true) ;;
   let rect := Qt.rect W H in
   let '(cx, cy) := Qt.center rect in
   let radius := (F64.of_Z (Z.min (width rect) (height rect)) * 0.42)%f64 in
   (* radial background subtle glow *)
   let bg := QRadialGradient (mkPoint (F64.of_Z cx) (F64.of_Z cy)) (radius * 1.8)%f64
               (setColorAt 1.0%f64 (rgba 6 8 12 0)
                 (setColorAt 0.0%f64 (rgb 10 12 16) [])) in
   paint (fillRect (IntRect rect) bg) ;;
   (* multiple rings with different speeds and widths *)
   for_each (AnimatedRings.rings radius) (fun '(r, w, off, col) =>
     _draw_ring (mkPoint (F64.of_Z cx) (F64.of_Z cy)) r w off col) ;;
   (* central text *)
   paint (setPen (pen_of_color (rgb 200 240 255))) ;;
   paint (setFont (mkFont "Segoe UI" 42 Black)) ;;
   paint (drawText (IntRect rect) AlignCenter caption) ;;
   paint (setFont (mkFont "Segoe UI" 12 DemiBold)) ;;
   paint (setPen (pen_of_color (rgb 160 200 255))) ;;
   paint (drawText (IntRect (adjusted rect 0 40 0 0)) (Z.lor AlignHCenter AlignTop)
            (String "226" (String "128" (String "162" "  ONLINE")))))%handler.

End Trigonometry.

(** [NovaHUD.animate]: the one writer of [phase]. *)
Definition animate : Handler unit :=
  (self_phase <- get_phase ;;
   set_phase (F64.float_mod (self_phase + 0.0075)%f64 1.0%f64))%handler.

(** A repaint of the ring field in a world: [paintEvent] with a painter of
    its own; what it drew, and the world it leaves. *)
Definition render (cos sin : float -> float) (rev : NovaHUD.revision) (W H : Z) (w : World)
  : result (list Prim * World) :=
  match paintEvent cos sin (NovaHUD.caption rev) W H w QPainter with
  | Ok (_, w', p) => Ok (drawn p, w')
  | Raise e => Raise e
  end.

(** Two repaints, one after the other. *)
Definition render_twice (cos sin : float -> float) (rev : NovaHUD.revision) (W H : Z)
    (w : World) : result (list Prim * list Prim * World) :=
  match render cos sin rev W H w with
  | Ok (first, w') =>
      match render cos sin rev W H w' with
      | Ok (second, w'') => Ok (first, second, w'')
      | Raise e => Raise e
      end
  | Raise e => Raise e
  end.

End RingField.
(* ===================================================================== *)
(** * Vocabulary of the statements *)
(* ===================================================================== *)

(** ** Sizes and signs of floats *)

(** The exponent function of binary64. *)
Abbreviation fexp := (SpecFloat.fexp F64.prec F64.emax).

Definition bounded_size (K : Z) (x : spec_float) : Prop :=
  match x with
  | S754_zero _ => True
  | S754_finite _ m e => bounded F64.prec F64.emax m e = true /\ Zpos (digits2_pos m) + e <= K
  | _ => False
  end.

Definition sign_is (s : bool) (x : spec_float) : Prop :=
  match x with
  | S754_zero s' | S754_infinity s' | S754_finite s' _ _ => s' = s
  | S754_nan => False
  end.

(** [nonneg x]: [x] is a zero or a positive finite number. *)
Definition nonneg (x : float) : Prop :=
  match x with
  | S754_zero _ | S754_finite false _ _ => True
  | _ => False
  end.

(** [strict_nonneg x]: as [nonneg], and a zero is [+0.0]. *)
Definition strict_nonneg (x : float) : Prop :=
  match x with
  | S754_zero false | S754_finite false _ _ => True
  | _ => False
  end.

(** [unit_interval x]: a float with [0 <= x < 1]. *)
Definition unit_interval (x : float) : Prop :=
  F64.valid x = true /\ (0 <=? x)%f64 = true /\ (x <? 1.0)%f64 = true.

(** What [float_mod _ 1.0] returns for a non-negative argument. *)
Definition mod_result (x : float) : Prop := strict_nonneg x /\ bounded_size 0 x.

(** A decidable form of [mod_result], for the literals of the source. *)
Definition mod_resultb (x : float) : bool :=
  match x with
  | S754_zero false => true
  | S754_finite false m e =>
      bounded F64.prec F64.emax m e && (Zpos (digits2_pos m) + e <=? 0)
  | _ => false
  end.

(** ** The rational value of a float *)

Definition F2Q (x : float) : Q :=
  match x with
  | S754_finite s m e => inject_Z (cond_Zopp s (Zpos m)) * 2 ^ e
  | _ => 0
  end%Q.

(** The relative and the absolute error of one rounding. *)
Definition eps : Q := (2 ^ (-52))%Q.
Definition eta : Q := (2 ^ (-1074))%Q.

(** [near v r]: [r] is a rounding of the exact value [v]. *)
Definition near (v r : Q) : Prop :=
  (v - 3 * (eps * v + eta) <= r <= v + (eps * v + eta))%Q.

(** ** The primitives of the ring field *)

Section RingTerms.

Variables cos sin : float -> float.

(** The sub-expressions of [_draw_ring]. *)
Definition local_phase (phase offset : float) : float :=
  F64.float_mod (phase + offset)%f64 1.0%f64.

Definition arc_start (base : float) (i : Z) : float :=
  ((base + F64.of_Z i * 0.48) * 360.0)%f64.

Definition dot_fraction (base : float) (k : Z) : float :=
  F64.float_mod (F64.of_Z k / F64.of_Z 36 + base * 0.08)%f64 1.0%f64.

Definition pulse (t : float) : float := (1.0 - F64.abs (0.5 - t) * 2)%f64.

Definition dot_alpha (t : float) : result Z :=
  (s <- smoothstep 0.0%f64 1.0%f64 (pulse t) ;;
   n <- Py.int (80 * s)%f64 ;;
   Ok (n + 40))%result.

Definition dot_centre (center : QPointF) (radius width t : float) : QPointF :=
  let ang := (t * 2 * math_pi)%f64 in
  let d := (radius - width * 1.6)%f64 in
  mkPoint (px center + cos ang * d)%f64 (py center + sin ang * d)%f64.

Definition unwrap (r : result Z) : Z :=
  match r with Ok z => z | Raise _ => 0 end.

Definition ring_rect (center : QPointF) (radius : float) : Rect :=
  RealRect (mkQRectF (px center - radius)%f64 (py center - radius)%f64
                     (radius * 2)%f64 (radius * 2)%f64).

Definition ring_pen (color : QColor) (width : float) : Pen := SolidPen color width RoundCap.

Definition arc_prim (center : QPointF) (radius width : float) (color : QColor)
    (base : float) (i : Z) : Prim :=
  DrawArc (ring_rect center radius)
          (unwrap (Py.int (- arc_start base i * 16)%f64))
          (if Z.eqb i 0 then -3200 else -1920)
          (ring_pen color width).

Definition dot_brush (base : float) (k : Z) : Brush :=
  SolidBrush (rgba 80 220 255 (unwrap (dot_alpha (dot_fraction base k)))).

Definition dot_prim (center : QPointF) (radius width base : float) (k : Z) : Prim :=
  DrawEllipse (dot_centre center radius width (dot_fraction base k)) 2.2%f64 2.2%f64
              NoPen (dot_brush base k).

Definition ring_prims (center : QPointF) (radius width : float) (color : QColor)
    (base : float) : list Prim :=
  [arc_prim center radius width color base 0; arc_prim center radius width color base 1]
  ++ map (dot_prim center radius width base) (Py.range 36).

Definition dot_step (center : QPointF) (radius width base : float) (k : Z)
    (p : Painter) : Painter :=
  mkPainter (pen p) (dot_brush base k) (font p) (antialiasing p)
    (drawn p ++ [DrawEllipse (dot_centre center radius width (dot_fraction base k))
                   2.2%f64 2.2%f64 (pen p) (dot_brush base k)]).

Definition arc_step (center : QPointF) (radius width : float) (color : QColor)
    (base : float) (i : Z) (p : Painter) : Painter :=
  mkPainter (ring_pen color width) (brush p) (font p) (antialiasing p)
    (drawn p ++ [arc_prim center radius width color base i]).

Definition field_centre (W H : Z) : QPointF :=
  mkPoint (F64.of_Z (fst (Qt.center (Qt.rect W H)))) (F64.of_Z (snd (Qt.center (Qt.rect W H)))).

Definition field_radius (W H : Z) : float := (F64.of_Z (Z.min W H) * 0.42)%f64.

Definition ring_of (phase : float) (centre : QPointF) (ring : float * float * float * QColor)
  : list Prim :=
  let '(r, w, off, col) := ring in
  ring_prims centre r w col (local_phase phase off).

Definition background (W H : Z) : Prim :=
  FillRect (IntRect (Qt.rect W H))
    (QRadialGradient (field_centre W H) (field_radius W H * 1.8)%f64
       [(0.0%f64, rgb 10 12 16); (1.0%f64, rgba 6 8 12 0)]).

Definition captions (caption : string) (W H : Z) : list Prim :=
  [ DrawText (IntRect (Qt.rect W H)) AlignCenter caption
      (pen_of_color (rgb 200 240 255)) (Some (mkFont "Segoe UI" 42 Black));
    DrawText (IntRect (adjusted (Qt.rect W H) 0 40 0 0)) (Z.lor AlignHCenter AlignTop)
      (String "226" (String "128" (String "162" "  ONLINE")))
      (pen_of_color (rgb 160 200 255)) (Some (mkFont "Segoe UI" 12 DemiBold)) ].

Definition field_prims (caption : string) (phase : float) (W H : Z) : list Prim :=
  background W H
  :: List.concat (map (ring_of phase (field_centre W H)) (AnimatedRings.rings (field_radius W H)))
  ++ captions caption W H.

Definition ring_step (phase : float) (centre : QPointF)
    (ring : float * float * float * QColor) (p : Painter) : Painter :=
  mkPainter NoPen (dot_brush (local_phase phase (snd (fst ring))) 35)
    (font p) (antialiasing p) (drawn p ++ ring_of phase centre ring).

End RingTerms.

(** ** The primitives of a gauge *)

(** The gradient stops [paintEvent] sets for a style. *)
Definition style_stops (style : string) : stops :=
  if String.eqb style "rainbow" then
    [(0.0%f64, rgb 30 220 140); (0.5%f64, rgb 255 200 60); (1.0%f64, rgb 255 90 80)]
  else if String.eqb style "pink" then
    [(0.0%f64, rgb 255 100 220); (1.0%f64, rgb 200 50 255)]
  else if String.eqb style "green" then
    [(0.0%f64, rgb 40 220 120); (1.0%f64, rgb 20 160 100)]
  else
    [(0.0%f64, rgb 80 200 255); (1.0%f64, rgb 150 120 255)].

(** The track and the fill of a bar on a widget of width [W]. *)
Definition track (W : Z) : QRectF :=
  mkQRectF (F64.of_Z 8) (F64.of_Z 28) (F64.of_Z (W - 16)) (F64.of_Z 14).

Definition fill_width (self : NeonBar.t) (W : Z) : float :=
  (wf (track W) * (NeonBar.value self / 100.0))%f64.

Definition fill (self : NeonBar.t) (W : Z) : QRectF :=
  mkQRectF (xf (track W)) (yf (track W)) (fill_width self W) (hf (track W)).

Definition fill_prim (self : NeonBar.t) (W : Z) : Prim :=
  DrawRoundedRect (RealRect (fill self W)) 8 8 NoPen
    (QLinearGradient (topLeft (fill self W)) (topRight (fill self W))
       (style_stops (NeonBar.style self))).

Definition bar_prims (self : NeonBar.t) (W H : Z) (n : Z) : list Prim :=
  [ DrawRoundedRect (IntRect (Qt.rect W H)) 10 10 NoPen (SolidBrush (rgba 14 18 24 220));
    DrawText (IntRect (mkQRect 8 6 (W - 16) 16)) (Z.lor AlignLeft AlignTop)
      (Py.upper (NeonBar.title self)) (pen_of_color (rgb 170 190 210))
      (Some (mkFont "Segoe UI" 10 Bold));
    DrawRoundedRect (RealRect (track W)) 8 8 NoPen (SolidBrush (rgba 28 36 48 220));
    fill_prim self W;
    DrawLine (point_add (topLeft (track W)) (mkPoint 0 1)%f64)
             (point_add (topRight (track W)) (mkPoint 0 1)%f64)
             (QPen (rgba 255 255 255 70) 1.0%f64);
    DrawText (IntRect (mkQRect 8 8 (W - 16) (H - 16))) (Z.lor AlignRight AlignVCenter)
      (Py.str n ++ (if String.eqb (NeonBar.unit self) "" then "%" else NeonBar.unit self))%string
      (pen_of_color (rgb 230 240 255)) (Some (mkFont "Consolas" 11 DemiBold)) ].

(** ** The animation clock *)

(** One step of the animation clock. *)
Definition advance (p : float) : float := F64.float_mod (p + 0.0075)%f64 1.0%f64.

(** The number of animation ticks among some timer events. *)
Fixpoint ticks (evs : list NovaHUD.event) : nat :=
  match evs with
  | [] => 0
  | NovaHUD.animTimer :: evs' => S (ticks evs')
  | _ :: evs' => ticks evs'
  end.

(** ** Environments and the formulas of the specification *)

(** A sampling environment without [psutil], whose [random.uniform(a, b)]
    returns [a]; used for concrete runs. *)
Definition quiet_env : Env := mkEnv None 0.0%f64 (fun a _ => a).

(** [(N * 0.0075) % 1.0], the closed form the specification gives for the
    phase after [N] ticks. *)
Definition closed_form (N : nat) : float :=
  F64.float_mod (F64.of_Z (Z.of_nat N) * 0.0075)%f64 1.0%f64.

(** A cycle on which [psutil.cpu_percent] raises and [random.uniform(8, 88)]
    returns 10. *)
Definition failing_cpu : Psutil :=
  mkPsutil (Raise ValueError) (Ok []) true (Ok (Some 50%f64))
           (Ok 10%f64) (Ok 10%f64) (Ok []) (Ok (0, 0)).

Definition failing_env : Env :=
  mkEnv (Some failing_cpu) 0.0%f64 (fun a b => if (a =? 8)%f64 then 10%f64 else a).

(** The cycle before: the provider answers and reports a CPU load of 30. *)
Definition working_env : Env :=
  mkEnv (Some (mkPsutil (Ok 30%f64) (Ok []) true (Ok (Some 50%f64))
                        (Ok 10%f64) (Ok 10%f64) (Ok []) (Ok (0, 0))))
        0.0%f64 (fun a _ => a).

(** [(bytes_now - bytes_previous) / elapsed_seconds / 1,048,576], the
    throughput the specification asks for. *)
Definition spec_throughput (bytes_now bytes_previous : Z) (elapsed_seconds : float) : float :=
  (F64.of_Z (bytes_now - bytes_previous) / elapsed_seconds / 1048576)%f64.

(** A provider whose byte counters read [(sent, recv)]. *)
Definition counting (sent recv : Z) : Psutil :=
  mkPsutil (Ok 10%f64) (Ok []) true (Ok (Some 50%f64)) (Ok 10%f64) (Ok 10%f64) (Ok [])
           (Ok (sent, recv)).

(** [40 + 80 * smoothstep(0, 1, 1 - |0.5 - t| * 2)], the opacity the
    specification gives for a dot at fraction [t]. *)
Definition spec_opacity (t : float) : result float :=
  (s <- smoothstep 0.0%f64 1.0%f64 (1.0 - F64.abs (0.5 - t) * 2)%f64 ;;
   Ok (40 + 80 * s)%f64)%result.

(** ** Kinds of draw primitives *)

Definition is_arc (d : Prim) : bool :=
  match d with DrawArc _ _ _ _ => true | _ => false end.

Definition is_ellipse (d : Prim) : bool :=
  match d with DrawEllipse _ _ _ _ _ => true | _ => false end.

(** ** The state of the window *)

(** A gauge whose stored value lies in [0, 100]. *)
Definition in_range (b : NeonBar.t) : Prop :=
  (0 <=? NeonBar.value b)%f64 = true /\ (NeonBar.value b <=? 100)%f64 = true.

Definition gauges_in_range (h : NovaHUD.t) : Prop :=
  in_range (NovaHUD.cpu_util h) /\ in_range (NovaHUD.cpu_temp h) /\
  in_range (NovaHUD.battery h) /\ in_range (NovaHUD.mem h) /\ in_range (NovaHUD.disk h).

(** The addresses [sampleStats] accepts for the IP label: a truthy family,
    exactly three dots, not link-local. *)
Definition usable (a : snicaddr) : bool :=
  negb (Z.eqb (family a) 0)
  && Z.eqb (Py.count "."%char (address a)) 3
  && negb (Py.startswith "169.254" (address a)).

(** ** A provider for concrete runs *)

(** Interfaces as [psutil.net_if_addrs()] lists them: a loopback device
    without addresses, then a device with a link-local address, an IPv6
    address and a private address, then a second device. *)
Definition listing : list (string * list snicaddr) :=
  [ ("lo", []);
    ("eth0", [mkAddr 2 "169.254.10.2"; mkAddr 10 "fe80::1"; mkAddr 2 "192.168.1.7"]);
    ("wlan0", [mkAddr 2 "10.0.0.3"]) ]%string.

(** Sensor groups: one without readings, then one reading 55.0 first. *)
Definition sensors : list (string * list float) :=
  [ ("acpitz", []); ("coretemp", [55.0; 48.0]) ]%string%f64.

Definition desktop (addrs : result (list (string * list snicaddr))) : Psutil :=
  mkPsutil (Ok 10%f64) (Ok sensors) true (Ok None) (Ok 10%f64) (Ok 10%f64) addrs (Ok (4096, 8192)).

Definition desktop_env (addrs : result (list (string * list snicaddr))) : Env :=
  mkEnv (Some (desktop addrs)) 0.0%f64 (fun a _ => a).

(** ** The marks of the camera card *)

Definition is_rectangle (m : Cv2.Mark) : bool :=
  match m with Cv2.Rectangle _ _ _ _ => true | _ => false end.

Section FaceMarks.

Variable roi : Cv2.Image -> Z -> Z -> Z -> Z -> Cv2.Image.
Variable analyze : Cv2.Image -> option (list (list (string * string))).

(** What [update_frame] draws for one face: its box, then its emotion when
    the analysis gave one. *)
Definition face_marks (rgb_frame : Cv2.Image) (face : Z * Z * Z * Z) : list Cv2.Mark :=
  let '(x, y, w, h) := face in
  Cv2.Rectangle (x, y) (x + w, y + h) (100, 220, 255) 2
  :: match CameraWidget.emotion_of roi analyze rgb_frame x y w h with
     | Some emotion =>
         [Cv2.Text emotion (x, y - 10) Cv2.FONT_HERSHEY_SIMPLEX 0.7%f64 (100, 220, 255) 2]
     | None => []
     end.

End FaceMarks.

(** A provider whose byte counters cannot be read. *)
Definition counters_fail : Psutil :=
  mkPsutil (Ok 10%f64) (Ok []) true (Ok (Some 50%f64)) (Ok 10%f64) (Ok 10%f64) (Ok [])
           (Raise ValueError).

(** ** The timers of the window *)

Inductive timer : Type := anim_timer | stat_timer | clock_timer.

(** The timer an event comes from. *)
Definition timer_of (ev : NovaHUD.event) : timer :=
  match ev with
  | NovaHUD.animTimer => anim_timer
  | NovaHUD.statTimer _ => stat_timer
  | NovaHUD.clockTimer _ _ => clock_timer
  end.

Definition same_timer (a b : timer) : bool :=
  match a, b with
  | anim_timer, anim_timer | stat_timer, stat_timer | clock_timer, clock_timer => true
  | _, _ => false
  end.

(** The events of one timer, in the order they fire. *)
Definition events_of (tm : timer) (evs : list NovaHUD.event) : list NovaHUD.event :=
  filter (fun ev => same_timer (timer_of ev) tm) evs.

(** The part of the window that [sampleStats] writes. *)
Definition sampled (h : NovaHUD.t)
  : NeonBar.t * NeonBar.t * NeonBar.t * NeonBar.t * NeonBar.t * NetworkStats.t * option (Z * Z) :=
  (NovaHUD.cpu_util h, NovaHUD.cpu_temp h, NovaHUD.battery h, NovaHUD.mem h, NovaHUD.disk h,
   NovaHUD.net h, NovaHUD.last_bytes h).

(** ** Handlers that only paint *)

(** A handler does what painting code does on a ring widget [self]: in
    every world whose ring field is [self] it paints the same, returns the
    same, and leaves the world as it found it. *)
Definition paints_as {A : Type} (self : AnimatedRings.t) (c : Paint A)
    (s : Runtime.Handler A) : Prop :=
  forall (w : Runtime.World) (p : Painter),
    NovaHUD.rings (Runtime.window w) = self ->
    s w p = match c p with
            | Ok (a, p') => Ok (a, w, p')
            | Raise e => Raise e
            end.

(** The outcome of a repaint without the world. *)
Definition drawing (out : result (list Prim * Runtime.World)) : result (list Prim) :=
  match out with
  | Ok (prims, _) => Ok prims
  | Raise e => Raise e
  end.

(* ===================================================================== *)
(** * Facts about binary64 rounding *)
(* ===================================================================== *)

(** digits *)
Lemma digits2_pos_bounds (m : positive) :
  2 ^ (Zpos (digits2_pos m) - 1) <= Zpos m < 2 ^ Zpos (digits2_pos m).
Proof.
  induction m as [p IH | p IH |]; cbn [digits2_pos].
  - rewrite Pos2Z.inj_succ. replace (Z.succ (Zpos (digits2_pos p)) - 1) with (Zpos (digits2_pos p) - 1 + 1) by lia.
    rewrite Z.pow_succ_r by lia. rewrite Z.pow_add_r by lia. change (2 ^ 1) with 2. lia.
  - rewrite Pos2Z.inj_succ. replace (Z.succ (Zpos (digits2_pos p)) - 1) with (Zpos (digits2_pos p) - 1 + 1) by lia.
    rewrite Z.pow_succ_r by lia. rewrite Z.pow_add_r by lia. change (2 ^ 1) with 2. lia.
  - cbn. lia.
Qed.

Lemma Zdigits2_nonneg (m : Z) : 0 <= Zdigits2 m.
Proof. destruct m; cbn; lia. Qed.

Lemma Zdigits2_bounds (m : Z) : 0 < m ->
  2 ^ (Zdigits2 m - 1) <= m < 2 ^ Zdigits2 m.
Proof. destruct m; try lia. intros _. apply digits2_pos_bounds. Qed.

Lemma Zdigits2_le (m k : Z) : 0 <= m -> 0 <= k -> m < 2 ^ k -> Zdigits2 m <= k.
Proof.
  intros Hm Hk Hlt. destruct (Z.eq_dec m 0) as [->|Hn]; [cbn; lia|].
  destruct (Zdigits2_bounds m ltac:(lia)) as [Hlo _].
  destruct (Z_le_gt_dec (Zdigits2 m) k) as [|Hgt]; [assumption|exfalso].
  assert (2 ^ k <= 2 ^ (Zdigits2 m - 1)) by (apply Z.pow_le_mono_r; lia). lia.
Qed.

Lemma Zdigits2_ge (m k : Z) : 0 <= k -> 2 ^ k <= m -> k + 1 <= Zdigits2 m.
Proof.
  intros Hk Hle. assert (0 < 2 ^ k) by (apply Z.pow_pos_nonneg; lia).
  destruct (Zdigits2_bounds m ltac:(lia)) as [_ Hhi].
  destruct (Z_le_gt_dec (k + 1) (Zdigits2 m)) as [|Hgt]; [assumption|exfalso].
  assert (2 ^ Zdigits2 m <= 2 ^ k) by (apply Z.pow_le_mono_r; lia). lia.
Qed.

Lemma Zdigits2_mono (a b : Z) : 0 <= a <= b -> Zdigits2 a <= Zdigits2 b.
Proof.
  intros [Ha Hab]. destruct (Z.eq_dec b 0) as [->|Hb].
  - replace a with 0 by lia. lia.
  - apply Zdigits2_le; [lia | apply Zdigits2_nonneg |].
    destruct (Zdigits2_bounds b ltac:(lia)). lia.
Qed.

Lemma Zdigits2_pos (m : Z) : 0 < m -> 0 < Zdigits2 m.
Proof. destruct m; cbn; lia. Qed.

(** shifting right *)
Lemma shr_1_m (mrs : shr_record) : 0 <= shr_m mrs -> shr_m (shr_1 mrs) = shr_m mrs / 2.
Proof.
  destruct mrs as [m r s]. cbn [shr_m]. intros Hm.
  destruct m as [|p|p]; [reflexivity| |lia].
  destruct p as [p|p|]; cbn [shr_1 shr_m].
  - rewrite Pos2Z.inj_xI. apply Z.div_unique with (r := 1); lia.
  - rewrite Pos2Z.inj_xO. apply Z.div_unique with (r := 0); lia.
  - reflexivity.
Qed.

Lemma iter_shr_1_m (n : positive) : forall mrs, 0 <= shr_m mrs ->
  shr_m (iter_pos shr_1 n mrs) = shr_m mrs / 2 ^ Zpos n.
Proof.
  induction n as [n IH | n IH |]; intros mrs Hm; cbn [iter_pos].
  - assert (H1 : 0 <= shr_m (shr_1 mrs)) by (rewrite shr_1_m by lia; apply Z.div_pos; lia).
    assert (P : 0 < 2 ^ Zpos n) by (apply Z.pow_pos_nonneg; lia).
    assert (H2 : 0 <= shr_m (iter_pos shr_1 n (shr_1 mrs))) by (rewrite IH by lia; apply Z.div_pos; lia).
    rewrite IH by lia. rewrite IH by lia. rewrite shr_1_m by lia.
    rewrite !Z.div_div by lia. f_equal.
    assert (E : 2 ^ Z.pos n~1 = 2 * (2 ^ Z.pos n * 2 ^ Z.pos n)).
    { rewrite <- Z.pow_add_r by lia. rewrite <- Z.pow_succ_r by lia. f_equal. lia. }
    lia.
  - assert (P : 0 < 2 ^ Zpos n) by (apply Z.pow_pos_nonneg; lia).
    assert (H2 : 0 <= shr_m (iter_pos shr_1 n mrs)) by (rewrite IH by lia; apply Z.div_pos; lia).
    rewrite IH by lia. rewrite IH by lia.
    rewrite !Z.div_div by lia. f_equal.
    assert (E : 2 ^ Z.pos n~0 = 2 ^ Z.pos n * 2 ^ Z.pos n).
    { rewrite <- Z.pow_add_r by lia. f_equal. lia. }
    lia.
  - rewrite shr_1_m by lia. reflexivity.
Qed.

Lemma Zdigits2_div_pow (m n : Z) : 0 < m -> 0 <= n -> n < Zdigits2 m ->
  Zdigits2 (m / 2 ^ n) = Zdigits2 m - n.
Proof.
  intros Hm Hn Hlt.
  destruct (Zdigits2_bounds m Hm) as [Hlo Hhi].
  assert (P : 0 < 2 ^ n) by (apply Z.pow_pos_nonneg; lia).
  assert (E1 : 2 ^ (Zdigits2 m - 1) = 2 ^ (Zdigits2 m - 1 - n) * 2 ^ n)
    by (rewrite <- Z.pow_add_r by lia; f_equal; lia).
  assert (E2 : 2 ^ (Zdigits2 m) = 2 ^ (Zdigits2 m - n) * 2 ^ n)
    by (rewrite <- Z.pow_add_r by lia; f_equal; lia).
  assert (L : 2 ^ (Zdigits2 m - 1 - n) <= m / 2 ^ n).
  { apply Z.div_le_lower_bound; lia. }
  assert (U : m / 2 ^ n < 2 ^ (Zdigits2 m - n)).
  { apply Z.div_lt_upper_bound; lia. }
  apply Z.le_antisymm.
  - apply Zdigits2_le; try lia; apply Z.div_pos; lia.
  - pose proof (Zdigits2_ge (m / 2 ^ n) (Zdigits2 m - 1 - n) ltac:(lia) L). lia.
Qed.

Lemma Zdigits2_div_pow_zero (m n : Z) : 0 <= m -> 0 <= n -> Zdigits2 m <= n ->
  m / 2 ^ n = 0.
Proof.
  intros Hm Hn Hle. destruct (Z.eq_dec m 0) as [->|Hz]; [apply Z.div_0_l; 
    assert (0 < 2 ^ n) by (apply Z.pow_pos_nonneg; lia); lia|].
  destruct (Zdigits2_bounds m ltac:(lia)) as [_ Hhi].
  apply Z.div_small. split; [lia|].
  assert (2 ^ Zdigits2 m <= 2 ^ n) by (apply Z.pow_le_mono_r; lia). lia.
Qed.

Lemma Zdigits2_succ (m : Z) : 0 <= m -> Zdigits2 (m + 1) <= Zdigits2 m + 1.
Proof.
  intros Hm. destruct (Z.eq_dec m 0) as [->|Hz]; [cbn; lia|].
  destruct (Zdigits2_bounds m ltac:(lia)) as [_ Hhi].
  apply Zdigits2_le; try lia. { pose proof (Zdigits2_nonneg m); lia. }
  rewrite Z.pow_add_r by (pose proof (Zdigits2_nonneg m); lia). change (2 ^ 1) with 2. lia.
Qed.

Lemma fexp_eq (e : Z) : fexp e = Z.max (e - 53) (-1074).
Proof. reflexivity. Qed.

Lemma shr_record_of_loc_m (m : Z) (l : location) : shr_m (shr_record_of_loc m l) = m.
Proof. destruct l as [|[]]; reflexivity. Qed.

Lemma shr_fexp_spec (mx ex : Z) (lx : location) (mrs : shr_record) (e' : Z) :
  0 <= mx -> ex <= fexp (Zdigits2 mx + ex) ->
  shr_fexp F64.prec F64.emax mx ex lx = (mrs, e') ->
  e' = fexp (Zdigits2 mx + ex) /\ shr_m mrs = mx / 2 ^ (e' - ex).
Proof.
  intros Hm Hal. unfold shr_fexp, shr.
  destruct (fexp (Zdigits2 mx + ex) - ex) as [|p|p] eqn:En; intros E; inversion E; subst; clear E.
  - split; [lia|]. replace (e' - e') with 0 by lia. rewrite shr_record_of_loc_m.
    change (2 ^ 0) with 1. now rewrite Z.div_1_r.
  - split; [lia|]. rewrite iter_shr_1_m by (rewrite shr_record_of_loc_m; lia).
    rewrite shr_record_of_loc_m. f_equal. f_equal. lia.
  - lia.
Qed.

Lemma round_nearest_even_cases (m : Z) (l : location) :
  round_nearest_even m l = m \/ round_nearest_even m l = m + 1.
Proof. destruct l as [|[]]; cbn; try (now left); try (now right). destruct (Z.even m); [now left|now right]. Qed.

Lemma binary_round_aux_spec (s : bool) (mx ex : Z) (lx : location) :
  0 <= mx -> ex <= fexp (Zdigits2 mx + ex) ->
  let R := binary_round_aux F64.prec F64.emax s mx ex lx in
  valid_binary F64.prec F64.emax R = true /\ sign_is s R /\
  forall K, Zdigits2 mx + ex + 1 <= K -> -1073 <= K -> K <= 1024 -> bounded_size K R.
Proof.
  intros Hm Hal. unfold binary_round_aux.
  destruct (shr_fexp F64.prec F64.emax mx ex lx) as [mrs1 e1] eqn:E1.
  destruct (shr_fexp_spec _ _ _ _ _ Hm Hal E1) as [He1 Hm1].
  set (m1 := shr_m mrs1) in *.
  set (m2 := round_nearest_even m1 (loc_of_shr_record mrs1)).
  assert (P1 : 0 < 2 ^ (e1 - ex)) by (apply Z.pow_pos_nonneg; lia).
  assert (Hm1' : 0 <= m1) by (rewrite Hm1; apply Z.div_pos; lia).
  assert (Hm2 : m1 <= m2 <= m1 + 1)
    by (destruct (round_nearest_even_cases m1 (loc_of_shr_record mrs1)); fold m2 in H; lia).
  assert (Hd2 : Zdigits2 m1 <= Zdigits2 m2 <= Zdigits2 m1 + 1).
  { split; [apply Zdigits2_mono; lia|].
    transitivity (Zdigits2 (m1 + 1)); [apply Zdigits2_mono; lia | apply Zdigits2_succ; lia]. }
  assert (Hsz : (0 < m1 /\ Zdigits2 m1 + e1 = Zdigits2 mx + ex) \/
                (m1 = 0 /\ e1 = -1074)).
  { destruct (Z_lt_le_dec (e1 - ex) (Zdigits2 mx)) as [Hlt|Hge].
    - left. assert (0 < mx) by (destruct mx; cbn in Hlt; lia).
      rewrite Hm1, Zdigits2_div_pow by lia. split; [|lia].
      pose proof (Zdigits2_div_pow mx (e1 - ex) ltac:(lia) ltac:(lia) Hlt) as Hd.
      destruct (mx / 2 ^ (e1 - ex)) as [|q|q] eqn:Eq; cbn in Hd; lia.
    - right. split; [rewrite Hm1; apply Zdigits2_div_pow_zero; lia|].
      rewrite fexp_eq in He1. lia. }
  assert (Hal2 : e1 <= fexp (Zdigits2 m2 + e1)).
  { rewrite fexp_eq in He1 |- *. pose proof (Zdigits2_nonneg m1).
    destruct Hsz as [[_ Hs]|[Hz He]]; lia. }
  assert (Hm2' : 0 <= m2) by lia.
  destruct (shr_fexp F64.prec F64.emax m2 e1 loc_Exact) as [mrs3 e3] eqn:E3.
  destruct (shr_fexp_spec _ _ _ _ _ Hm2' Hal2 E3) as [He3 Hm3].
  assert (P3 : 0 < 2 ^ (e3 - e1)) by (apply Z.pow_pos_nonneg; lia).
  destruct (shr_m mrs3) as [|m3|m3] eqn:Em3.
  - cbn. split; [reflexivity|]. split; [reflexivity|]. trivial.
  - assert (Hd3 : Zpos (digits2_pos m3) + e3 = Zdigits2 m2 + e1).
    { destruct (Z_lt_le_dec (e3 - e1) (Zdigits2 m2)) as [Hlt|Hge].
      - assert (0 < m2) by (destruct m2; cbn in Hlt; lia).
        pose proof (Zdigits2_div_pow m2 (e3 - e1) ltac:(lia) ltac:(lia) Hlt) as Hd.
        rewrite <- Hm3 in Hd. cbn in Hd. lia.
      - pose proof (Zdigits2_div_pow_zero m2 (e3 - e1) ltac:(lia) ltac:(lia) Hge). lia. }
    destruct (e3 <=? F64.emax - F64.prec) eqn:Ele.
    + assert (Hb : bounded F64.prec F64.emax m3 e3 = true).
      { unfold bounded, canonical_mantissa. rewrite Ele, andb_true_r.
        apply Z.eqb_eq. rewrite fexp_eq in He3 |- *. lia. }
      cbn [valid_binary sign_is bounded_size]. split; [exact Hb|]. split; [reflexivity|].
      intros K HK1 HK2 HK3. split; [exact Hb|].
      destruct Hsz as [[_ Hs]|[Hz He]]; [lia|].
      rewrite Hz in Hd2. cbn in Hd2. lia.
    + cbn [valid_binary sign_is bounded_size]. split; [reflexivity|]. split; [reflexivity|].
      intros K HK1 HK2 HK3. apply Z.leb_gt in Ele. unfold F64.emax, F64.prec in Ele.
      rewrite fexp_eq in He3.
      destruct Hsz as [[_ Hs]|[Hz He]]; [lia|].
      rewrite Hz in Hd2. cbn in Hd2. lia.
  - pose proof (Z.div_pos m2 (2 ^ (e3 - e1)) ltac:(lia) P3). lia.
Qed.

Lemma binary_round_aux_canonical (s : bool) (m : positive) (e : Z) :
  bounded F64.prec F64.emax m e = true ->
  binary_round_aux F64.prec F64.emax s (Zpos m) e loc_Exact = S754_finite s m e.
Proof.
  unfold bounded, canonical_mantissa. intros Hb.
  apply andb_true_iff in Hb. destruct Hb as [Hc He]. apply Z.eqb_eq in Hc.
  unfold binary_round_aux, shr_fexp. cbn [Zdigits2].
  rewrite Hc, Z.sub_diag. cbn [shr shr_record_of_loc loc_of_shr_record round_nearest_even shr_m Zdigits2].
  rewrite Hc, Z.sub_diag. cbn [shr shr_record_of_loc shr_m].
  now rewrite He.
Qed.

Lemma iter_xO_Z (d m : positive) : Zpos (Pos.iter xO m d) = Zpos m * 2 ^ Zpos d.
Proof.
  induction d as [|d IH] using Pos.peano_ind.
  - cbn. lia.
  - rewrite Pos.iter_succ, Pos2Z.inj_xO, IH, Pos2Z.inj_succ, Z.pow_succ_r by lia. lia.
Qed.

Lemma shl_align_spec (mx : positive) (ex ez : Z) : ez <= ex ->
  Zpos (fst (shl_align mx ex ez)) = Zpos mx * 2 ^ (ex - ez) /\ snd (shl_align mx ex ez) = ez.
Proof.
  intros H. unfold shl_align. destruct (ez - ex) as [|p|p] eqn:E; cbn [fst snd].
  - replace (ex - ez) with 0 by lia. change (2 ^ 0) with 1. lia.
  - lia.
  - rewrite iter_xO_Z. replace (ex - ez) with (Zpos p) by lia. lia.
Qed.

Lemma Zdigits2_mul_pow (m k : Z) : 0 < m -> 0 <= k -> Zdigits2 (m * 2 ^ k) = Zdigits2 m + k.
Proof.
  intros Hm Hk. destruct (Zdigits2_bounds m Hm) as [Hlo Hhi].
  pose proof (Zdigits2_pos m Hm) as Hd.
  assert (P : 0 < 2 ^ k) by (apply Z.pow_pos_nonneg; lia).
  assert (E1 : 2 ^ (Zdigits2 m - 1 + k) = 2 ^ (Zdigits2 m - 1) * 2 ^ k) by (apply Z.pow_add_r; lia).
  assert (E2 : 2 ^ (Zdigits2 m + k) = 2 ^ (Zdigits2 m) * 2 ^ k) by (apply Z.pow_add_r; lia).
  apply Z.le_antisymm.
  - apply Zdigits2_le; nia.
  - pose proof (Zdigits2_ge (m * 2 ^ k) (Zdigits2 m - 1 + k) ltac:(lia) ltac:(nia)). lia.
Qed.

Lemma binary_round_spec (s : bool) (mx : positive) (ex : Z) :
  let R := binary_round F64.prec F64.emax s mx ex in
  valid_binary F64.prec F64.emax R = true /\ sign_is s R /\
  forall K, Zpos (digits2_pos mx) + ex + 1 <= K -> -1073 <= K -> K <= 1024 -> bounded_size K R.
Proof.
  unfold binary_round.
  destruct (shl_align mx ex (fexp (Zpos (digits2_pos mx) + ex))) as [mz ez] eqn:E.
  assert (H : Zdigits2 (Zpos mz) + ez = Zpos (digits2_pos mx) + ex /\
              ez <= fexp (Zdigits2 (Zpos mz) + ez)).
  { destruct (Z_lt_le_dec (fexp (Zpos (digits2_pos mx) + ex)) ex) as [Hlt|Hge].
    - destruct (shl_align_spec mx ex (fexp (Zpos (digits2_pos mx) + ex)) ltac:(lia)) as [H1 H2].
      rewrite E in H1, H2. cbn [fst snd] in H1, H2.
      rewrite H1, Zdigits2_mul_pow by lia. cbn [Zdigits2]. split; [lia|].
      match goal with |- _ <= fexp ?a => replace a with (Zpos (digits2_pos mx) + ex) by lia end. lia.
    - unfold shl_align in E.
      destruct (fexp (Zpos (digits2_pos mx) + ex) - ex) as [|p|p] eqn:E'; try lia;
        inversion E; subst; cbn [Zdigits2]; split; lia. }
  destruct H as [H1 H2].
  destruct (binary_round_aux_spec s (Zpos mz) ez loc_Exact ltac:(lia) H2) as (V & S & B).
  split; [exact V|]. split; [exact S|]. intros K HK. apply B. lia.
Qed.

Lemma binary_round_exact (s : bool) (mx : positive) (ex : Z) :
  fexp (Zpos (digits2_pos mx) + ex) <= ex -> Zpos (digits2_pos mx) + ex <= 1024 ->
  exists m e, binary_round F64.prec F64.emax s mx ex = S754_finite s m e /\
              bounded F64.prec F64.emax m e = true /\
              Zpos (digits2_pos m) + e = Zpos (digits2_pos mx) + ex.
Proof.
  intros Hf Hs. unfold binary_round.
  destruct (shl_align mx ex (fexp (Zpos (digits2_pos mx) + ex))) as [mz ez] eqn:E.
  destruct (shl_align_spec mx ex (fexp (Zpos (digits2_pos mx) + ex)) Hf) as [H1 H2].
  rewrite E in H1, H2. cbn [fst snd] in H1, H2.
  assert (Hd : Zpos (digits2_pos mz) + ez = Zpos (digits2_pos mx) + ex).
  { change (Zpos (digits2_pos mz)) with (Zdigits2 (Zpos mz)).
    rewrite H1, Zdigits2_mul_pow by lia. cbn [Zdigits2]. lia. }
  assert (Hb : bounded F64.prec F64.emax mz ez = true).
  { unfold bounded, canonical_mantissa. apply andb_true_iff. split.
    - apply Z.eqb_eq. rewrite fexp_eq in *. lia.
    - apply Z.leb_le. rewrite fexp_eq in *. unfold F64.emax, F64.prec. lia. }
  exists mz, ez. split; [apply binary_round_aux_canonical; exact Hb|]. split; [exact Hb|exact Hd].
Qed.

Lemma binary_normalize_spec (m e : Z) (sz : bool) :
  let R := binary_normalize F64.prec F64.emax m e sz in
  valid_binary F64.prec F64.emax R = true /\
  (0 < m -> sign_is false R) /\ (m < 0 -> sign_is true R) /\
  forall K, Zdigits2 m + e + 1 <= K -> -1073 <= K -> K <= 1024 -> bounded_size K R.
Proof.
  destruct m as [|p|p]; cbn [binary_normalize Zdigits2].
  - cbn. repeat split; trivial; lia.
  - destruct (binary_round_spec false p e) as (V & S & B). repeat split; trivial; lia.
  - destruct (binary_round_spec true p e) as (V & S & B). repeat split; trivial; lia.
Qed.

(** ** Sizes of sums, differences and products *)

Lemma Zdigits2_opp (m : Z) : Zdigits2 (- m) = Zdigits2 m.
Proof. destruct m; reflexivity. Qed.

Lemma Zdigits2_abs_le (a b : Z) : Z.abs a <= b -> Zdigits2 a <= Zdigits2 b.
Proof.
  intros H. destruct (Z_le_gt_dec 0 a).
  - apply Zdigits2_mono. lia.
  - rewrite <- Zdigits2_opp. apply Zdigits2_mono. lia.
Qed.

Lemma Zdigits2_lt_pow (m : Z) : 0 <= m -> m < 2 ^ Zdigits2 m.
Proof.
  intros H. destruct (Z.eq_dec m 0) as [->|]; [cbn; lia|].
  apply Zdigits2_bounds. lia.
Qed.

Lemma Zdigits2_add (a b k : Z) : 0 <= a -> 0 <= b -> Zdigits2 a <= k -> Zdigits2 b <= k ->
  Zdigits2 (a + b) <= k + 1.
Proof.
  intros Ha Hb Hda Hdb.
  pose proof (Zdigits2_nonneg a). pose proof (Zdigits2_lt_pow a Ha). pose proof (Zdigits2_lt_pow b Hb).
  assert (2 ^ Zdigits2 a <= 2 ^ k) by (apply Z.pow_le_mono_r; lia).
  assert (2 ^ Zdigits2 b <= 2 ^ k) by (apply Z.pow_le_mono_r; pose proof (Zdigits2_nonneg b); lia).
  apply Zdigits2_le; try lia. rewrite Z.pow_add_r by lia. change (2 ^ 1) with 2. lia.
Qed.

Lemma Zdigits2_mul (a b : Z) : 0 < a -> 0 < b ->
  Zdigits2 a + Zdigits2 b - 1 <= Zdigits2 (a * b) <= Zdigits2 a + Zdigits2 b.
Proof.
  intros Ha Hb.
  destruct (Zdigits2_bounds a Ha) as [La Ua]. destruct (Zdigits2_bounds b Hb) as [Lb Ub].
  pose proof (Zdigits2_pos a Ha). pose proof (Zdigits2_pos b Hb).
  assert (E1 : 2 ^ (Zdigits2 a + Zdigits2 b) = 2 ^ Zdigits2 a * 2 ^ Zdigits2 b)
    by (apply Z.pow_add_r; lia).
  assert (E2 : 2 ^ (Zdigits2 a - 1 + (Zdigits2 b - 1)) = 2 ^ (Zdigits2 a - 1) * 2 ^ (Zdigits2 b - 1))
    by (apply Z.pow_add_r; lia).
  assert (0 < 2 ^ (Zdigits2 a - 1)) by (apply Z.pow_pos_nonneg; lia).
  assert (0 < 2 ^ (Zdigits2 b - 1)) by (apply Z.pow_pos_nonneg; lia).
  split.
  - pose proof (Zdigits2_ge (a * b) (Zdigits2 a - 1 + (Zdigits2 b - 1)) ltac:(lia) ltac:(nia)). lia.
  - apply Zdigits2_le; nia.
Qed.

Lemma bounded_facts (m : positive) (e : Z) : bounded F64.prec F64.emax m e = true ->
  Zpos (digits2_pos m) <= 53 /\ -1074 <= e <= 971 /\
  (Zpos (digits2_pos m) = 53 \/ e = -1074).
Proof.
  unfold bounded, canonical_mantissa. intros H. apply andb_true_iff in H.
  destruct H as [Hc He]. apply Z.eqb_eq in Hc. apply Z.leb_le in He.
  rewrite fexp_eq in Hc. unfold F64.emax, F64.prec in He. lia.
Qed.

Lemma bounded_size_weaken (a b : Z) (x : float) : a <= b -> bounded_size a x -> bounded_size b x.
Proof. destruct x; cbn [bounded_size]; trivial. intros ? [? ?]. split; [assumption|lia]. Qed.

Lemma bounded_size_valid (K : Z) (x : float) : bounded_size K x -> F64.valid x = true.
Proof. destruct x; cbn; try tauto. Qed.

Lemma bounded_size_finite (K : Z) (x : float) : bounded_size K x -> F64.is_finite x = true.
Proof. destruct x; cbn; tauto. Qed.

Lemma shl_align_size (m : positive) (e ez : Z) : ez <= e ->
  Zdigits2 (Zpos (fst (shl_align m e ez))) + ez = Zpos (digits2_pos m) + e.
Proof.
  intros H. destruct (shl_align_spec m e ez H) as [H1 _].
  rewrite H1, Zdigits2_mul_pow by lia. cbn [Zdigits2]. lia.
Qed.

Lemma cond_Zopp_abs (s : bool) (m : Z) : Z.abs (cond_Zopp s m) = Z.abs m.
Proof. destruct s; cbn; lia. Qed.

Lemma add_sub_bounded (op : Z -> Z -> Z) (sx sy : bool) (mx my : positive) (ex ey : Z) (a K : Z) :
  (forall u v, Z.abs (op u v) <= Z.abs u + Z.abs v) ->
  Zpos (digits2_pos mx) + ex <= a -> Zpos (digits2_pos my) + ey <= a ->
  a + 2 <= K -> -1073 <= K -> K <= 1024 ->
  let ez := Z.min ex ey in
  bounded_size K
    (binary_normalize F64.prec F64.emax
       (op (cond_Zopp sx (Zpos (fst (shl_align mx ex ez))))
           (cond_Zopp sy (Zpos (fst (shl_align my ey ez))))) ez false).
Proof.
  intros Hop Hx Hy HK1 HK2 HK3 ez.
  pose proof (shl_align_size mx ex ez ltac:(lia)) as Sx.
  pose proof (shl_align_size my ey ez ltac:(lia)) as Sy.
  set (X := Zpos (fst (shl_align mx ex ez))) in *.
  set (Y := Zpos (fst (shl_align my ey ez))) in *.
  destruct (binary_normalize_spec (op (cond_Zopp sx X) (cond_Zopp sy Y)) ez false) as (_ & _ & _ & B).
  apply B; try lia.
  assert (Zdigits2 (op (cond_Zopp sx X) (cond_Zopp sy Y)) <= Zdigits2 (X + Y)).
  { apply Zdigits2_abs_le. specialize (Hop (cond_Zopp sx X) (cond_Zopp sy Y)).
    rewrite !cond_Zopp_abs in Hop. assert (0 < X /\ 0 < Y) by (unfold X, Y; lia). lia. }
  assert (Zdigits2 (X + Y) <= a - ez + 1).
  { apply Zdigits2_add; try lia; unfold X, Y; lia. }
  lia.
Qed.

Lemma add_bounded (a b K : Z) (x y : float) :
  bounded_size a x -> bounded_size b y ->
  a + 2 <= K -> b + 2 <= K -> -1073 <= K -> K <= 1024 ->
  bounded_size K (x + y)%f64.
Proof.
  intros Hx Hy Ha Hb HK1 HK2.
  destruct x as [sx| | |sx mx ex], y as [sy| | |sy my ey]; cbn [bounded_size] in Hx, Hy; try tauto.
  - destruct sx, sy; exact I.
  - cbn [F64.add SFadd bounded_size]. split; [tauto|lia].
  - cbn [F64.add SFadd bounded_size]. split; [tauto|lia].
  - destruct Hx as [_ Sx], Hy as [_ Sy]. unfold F64.add, SFadd.
    apply (add_sub_bounded Z.add sx sy mx my ex ey (Z.max a b)); intros; lia.
Qed.

Lemma sub_bounded (a b K : Z) (x y : float) :
  bounded_size a x -> bounded_size b y ->
  a + 2 <= K -> b + 2 <= K -> -1073 <= K -> K <= 1024 ->
  bounded_size K (x - y)%f64.
Proof.
  intros Hx Hy Ha Hb HK1 HK2.
  destruct x as [sx| | |sx mx ex], y as [sy| | |sy my ey]; cbn [bounded_size] in Hx, Hy; try tauto.
  - destruct sx, sy; exact I.
  - cbn [F64.sub SFsub bounded_size]. split; [tauto|lia].
  - cbn [F64.sub SFsub bounded_size]. split; [tauto|lia].
  - destruct Hx as [_ Sx], Hy as [_ Sy]. unfold F64.sub, SFsub.
    apply (add_sub_bounded Z.sub sx sy mx my ex ey (Z.max a b)); intros; lia.
Qed.

Lemma mul_bounded (a b K : Z) (x y : float) :
  bounded_size a x -> bounded_size b y ->
  a + b + 1 <= K -> -1073 <= K -> K <= 1024 ->
  bounded_size K (x * y)%f64.
Proof.
  intros Hx Hy Ha HK1 HK2.
  destruct x as [sx| | |sx mx ex], y as [sy| | |sy my ey]; cbn [bounded_size] in Hx, Hy; try tauto;
    try exact I.
  destruct Hx as [Bx Sx], Hy as [By Sy].
  destruct (bounded_facts _ _ Bx) as (Dx & Ex & Cx).
  destruct (bounded_facts _ _ By) as (Dy & Ey & Cy).
  unfold F64.mul, SFmul.
  pose proof (Zdigits2_mul (Zpos mx) (Zpos my) ltac:(lia) ltac:(lia)) as [Dl Du].
  cbn [Zdigits2] in Dl, Du. change (Zpos mx * Zpos my) with (Zpos (mx * my)) in Dl, Du.
  cbn [Zdigits2] in Dl, Du.
  pose proof (Pos2Z.is_pos (digits2_pos mx)). pose proof (Pos2Z.is_pos (digits2_pos my)).
  destruct (binary_round_aux_spec (xorb sx sy) (Zpos (mx * my)) (ex + ey) loc_Exact ltac:(lia))
    as (_ & _ & B).
  - cbn [Zdigits2]. rewrite fexp_eq. lia.
  - apply B; cbn [Zdigits2]; lia.
Qed.

Lemma neg_bounded (K : Z) (x : float) : bounded_size K x -> bounded_size K (- x)%f64.
Proof. destruct x; cbn; tauto. Qed.

Lemma abs_bounded (K : Z) (x : float) : bounded_size K x -> bounded_size K (F64.abs x).
Proof. destruct x; cbn; tauto. Qed.

Lemma of_Z_valid (z : Z) : F64.valid (F64.of_Z z) = true.
Proof. apply (binary_normalize_spec z 0 false). Qed.

Lemma of_Z_bounded (z K : Z) : Zdigits2 z + 1 <= K -> -1073 <= K -> K <= 1024 ->
  bounded_size K (F64.of_Z z).
Proof.
  intros. destruct (binary_normalize_spec z 0 false) as (_ & _ & _ & B). apply B; lia.
Qed.

(** ** Signs *)

Lemma strict_nonneg_nonneg (x : float) : strict_nonneg x -> nonneg x.
Proof. destruct x as [[]| | |[]]; cbn; tauto. Qed.

Lemma sign_is_false_finite (K : Z) (x : float) :
  bounded_size K x -> sign_is false x -> strict_nonneg x.
Proof. destruct x as [[]| | |[]]; cbn; intros; try tauto; discriminate. Qed.

Lemma add_nonneg (x y : float) : nonneg x -> strict_nonneg y -> sign_is false (x + y)%f64.
Proof.
  destruct x as [sx| | |[] mx ex], y as [[]| | |[] my ey]; cbn [nonneg strict_nonneg]; try tauto; intros _ _.
  - destruct sx; reflexivity.
  - reflexivity.
  - reflexivity.
  - unfold F64.add, SFadd. cbn [cond_Zopp].
    apply (binary_normalize_spec _ (Z.min ex ey) false). lia.
Qed.

Lemma mul_nonneg (a b K : Z) (x y : float) : nonneg x -> strict_nonneg y ->
  bounded_size a x -> bounded_size b y -> a + b + 1 <= K -> -1073 <= K -> K <= 1024 ->
  nonneg (x * y)%f64 /\ bounded_size K (x * y)%f64.
Proof.
  intros Nx Ny Bx By HK1 HK2 HK3.
  pose proof (mul_bounded a b K x y Bx By HK1 HK2 HK3) as Bz. split; [|exact Bz].
  pose proof (bounded_size_valid _ _ Bx) as Vx. pose proof (bounded_size_valid _ _ By) as Vy.
  revert Nx Ny Vx Vy Bz. clear.
  destruct x as [sx| | |[] mx ex], y as [[]| | |[] my ey]; cbn [nonneg strict_nonneg]; try tauto;
    intros _ _ Vx Vy; try (intros _; exact I).
  cbn [F64.valid valid_binary] in Vx, Vy.
  destruct (bounded_facts _ _ Vx) as (Dx & Ex & Cx).
  destruct (bounded_facts _ _ Vy) as (Dy & Ey & Cy).
  pose proof (Zdigits2_mul (Zpos mx) (Zpos my) ltac:(lia) ltac:(lia)) as [Dl Du].
  cbn [Zdigits2] in Dl, Du. change (Zpos mx * Zpos my) with (Zpos (mx * my)) in Dl, Du.
  cbn [Zdigits2] in Dl, Du.
  pose proof (Pos2Z.is_pos (digits2_pos mx)). pose proof (Pos2Z.is_pos (digits2_pos my)).
  unfold F64.mul, SFmul. cbn [xorb].
  destruct (binary_round_aux_spec false (Zpos (mx * my)) (ex + ey) loc_Exact ltac:(lia))
    as (_ & S & _).
  - cbn [Zdigits2]. rewrite fexp_eq. lia.
  - intros Bz.
    destruct (binary_round_aux F64.prec F64.emax false (Zpos (mx * my)) (ex + ey) loc_Exact)
      as [|[]| |[]]; cbn in S, Bz |- *; trivial; try discriminate; try contradiction.
Qed.

(** ** Comparisons *)

Lemma pos_compare_cont_Z (m c : positive) :
  match Pos.compare_cont Eq m c with
  | Eq => Zpos m = Zpos c
  | Lt => Zpos m < Zpos c
  | Gt => Zpos c < Zpos m
  end.
Proof.
  change (Pos.compare_cont Eq m c) with (Pos.compare m c).
  destruct (Pos.compare_spec m c); lia.
Qed.

Lemma ltb_one_size (m : positive) (e : Z) :
  bounded F64.prec F64.emax m e = true ->
  (S754_finite false m e <? 1.0)%f64 = true <-> Zpos (digits2_pos m) + e <= 0.
Proof.
  intros Hb. destruct (bounded_facts _ _ Hb) as (D & E & C).
  unfold F64.ltb, SFltb, SFcompare.
  destruct (Z.compare_spec e (-52)) as [->|Hlt|Hgt].
  - pose proof (pos_compare_cont_Z m 4503599627370496) as Hc.
    assert (E52 : 2 ^ 52 = 4503599627370496) by reflexivity.
    destruct (Pos.compare_cont Eq m 4503599627370496).
    + split; [discriminate|]. intros Hs.
      pose proof (Zdigits2_lt_pow (Zpos m) ltac:(lia)) as Hp. cbn [Zdigits2] in Hp.
      assert (2 ^ Zpos (digits2_pos m) <= 2 ^ 52) by (apply Z.pow_le_mono_r; lia). lia.
    + split; [intros _|reflexivity].
      assert (Zdigits2 (Zpos m) <= 52) by (apply Zdigits2_le; lia). cbn [Zdigits2] in *. lia.
    + split; [discriminate|]. intros Hs.
      pose proof (Zdigits2_lt_pow (Zpos m) ltac:(lia)) as Hp. cbn [Zdigits2] in Hp.
      assert (2 ^ Zpos (digits2_pos m) <= 2 ^ 52) by (apply Z.pow_le_mono_r; lia). lia.
  - split; [lia|reflexivity].
  - split; [discriminate|lia].
Qed.

Lemma unit_interval_spec (x : float) : unit_interval x <-> nonneg x /\ bounded_size 0 x.
Proof.
  unfold unit_interval. destruct x as [s|s| |s m e]; cbn [F64.valid valid_binary nonneg bounded_size].
  - cbn. tauto.
  - destruct s; cbn; split; intros; try tauto; destruct H as (_ & ? & ?); discriminate.
  - cbn. split; intros; try tauto. destruct H as (_ & ? & ?); discriminate.
  - destruct s.
    + cbn. split; intros; try tauto. destruct H as (_ & ? & ?); discriminate.
    + split.
      * intros (V & _ & L). split; [exact I|]. split; [exact V|]. now apply ltb_one_size.
      * intros (_ & V & L). split; [exact V|]. split; [reflexivity|]. now apply ltb_one_size.
Qed.

Lemma mod_result_unit (x : float) : mod_result x -> unit_interval x.
Proof. intros [N B]. apply unit_interval_spec. split; [now apply strict_nonneg_nonneg|exact B]. Qed.

(** ** The remainder modulo 1.0 *)

Lemma float_mod_one (K : Z) (x : float) :
  bounded_size K x -> nonneg x -> mod_result (F64.float_mod x 1.0%f64).
Proof.
  intros B N. destruct x as [s| | |[] mx ex]; cbn [nonneg bounded_size] in B, N; try tauto.
  - split; exact I.
  - destruct B as [Bx _]. destruct (bounded_facts _ _ Bx) as (D & E & C).
    unfold F64.float_mod, F64.fmod. cbn [cond_Zopp].
    set (ez := Z.min ex (-52)).
    destruct (shl_align_spec mx ex ez ltac:(lia)) as [HX _].
    destruct (shl_align_spec 4503599627370496 (-52) ez ltac:(lia)) as [HY _].
    set (X := Zpos (fst (shl_align mx ex ez))) in *.
    set (Y := Zpos (fst (shl_align 4503599627370496 (-52) ez))) in *.
    assert (EY : Y = 2 ^ (- ez)).
    { rewrite HY. change 4503599627370496 with (2 ^ 52).
      rewrite <- Z.pow_add_r by lia. f_equal. lia. }
    assert (PY : 0 < Y) by (unfold Y; lia).
    assert (PX : 0 < X) by (unfold X; lia).
    pose proof (Z.rem_bound_pos X Y ltac:(lia) PY) as Hr.
    assert (Hle : Z.rem X Y <= X) by (rewrite Z.rem_mod_nonneg by lia; apply Z.mod_le; lia).
    destruct (Z.rem X Y) as [|r|r] eqn:Er; [split; exact I| |lia].
    cbn [binary_normalize].
    assert (Dr1 : Zdigits2 (Zpos r) <= - ez) by (apply Zdigits2_le; lia).
    assert (Dr2 : Zdigits2 (Zpos r) <= 53).
    { destruct (Z_le_gt_dec ex (-52)).
      - transitivity (Zdigits2 X); [apply Zdigits2_mono; lia|].
        rewrite HX. replace (ex - ez) with 0 by lia. rewrite Z.mul_1_r. cbn [Zdigits2]. lia.
      - lia. }
    cbn [Zdigits2] in Dr1, Dr2.
    destruct (binary_round_exact false r ez) as (m & e & Eq & Bm & Sm).
    { rewrite fexp_eq. lia. }
    { lia. }
    rewrite Eq. cbn. split; [exact I|]. split; [exact Bm|lia].
Qed.

(** ** Division *)

Lemma Zdigits2_div (a b : Z) : 0 <= a -> 0 < b ->
  Zdigits2 a - Zdigits2 b <= Zdigits2 (a / b).
Proof.
  intros Ha Hb. pose proof (Zdigits2_nonneg (a / b)).
  destruct (Z_le_gt_dec (Zdigits2 a - Zdigits2 b) 0) as [|Hgt]; [lia|].
  assert (Ha' : 0 < a) by (destruct a; cbn in Hgt; pose proof (Zdigits2_nonneg b); lia).
  destruct (Zdigits2_bounds a Ha') as [La _]. pose proof (Zdigits2_lt_pow b ltac:(lia)) as Ub.
  pose proof (Zdigits2_pos b Hb).
  assert (E : 2 ^ (Zdigits2 a - 1) = 2 ^ (Zdigits2 a - 1 - Zdigits2 b) * 2 ^ Zdigits2 b)
    by (rewrite <- Z.pow_add_r by lia; f_equal; lia).
  assert (P : 0 < 2 ^ (Zdigits2 a - 1 - Zdigits2 b)) by (apply Z.pow_pos_nonneg; lia).
  assert (L : 2 ^ (Zdigits2 a - 1 - Zdigits2 b) <= a / b) by (apply Z.div_le_lower_bound; nia).
  pose proof (Zdigits2_ge (a / b) (Zdigits2 a - 1 - Zdigits2 b) ltac:(lia) L). lia.
Qed.

Lemma div_valid (x y : float) : F64.valid (x / y)%f64 = true.
Proof.
  destruct x as [sx|sx| |sx mx ex], y as [sy|sy| |sy my ey]; try reflexivity.
  unfold F64.div, SFdiv, SFdiv_core_binary.
  set (d1 := Zdigits2 (Zpos mx)). set (d2 := Zdigits2 (Zpos my)).
  set (e' := Z.min (fexp (d1 + ex - (d2 + ey))) (ex - ey)).
  set (m' := match ex - ey - e' with
             | 0 => Zpos mx
             | Zpos _ => Z.shiftl (Zpos mx) (ex - ey - e')
             | Zneg _ => 0
             end).
  assert (Hm' : m' = Zpos mx * 2 ^ (ex - ey - e')).
  { unfold m'. destruct (ex - ey - e') as [|p|p] eqn:E.
    - cbn. lia.
    - now rewrite Z.shiftl_mul_pow2 by lia.
    - unfold e' in E. lia. }
  destruct (Z.div_eucl m' (Zpos my)) as [q r] eqn:Ed.
  assert (Hq : q = m' / Zpos my) by (unfold Z.div; now rewrite Ed).
  assert (P : 0 < 2 ^ (ex - ey - e')) by (apply Z.pow_pos_nonneg; unfold e'; lia).
  assert (Hq0 : 0 <= q) by (rewrite Hq; apply Z.div_pos; nia).
  apply (binary_round_aux_spec (xorb sx sy) q e' (new_location (Zpos my) r) Hq0).
  pose proof (Zdigits2_div m' (Zpos my) ltac:(nia) ltac:(lia)) as Hd.
  assert (Hs : 0 <= ex - ey - e') by (unfold e'; lia).
  rewrite Hm' in Hd. rewrite Zdigits2_mul_pow in Hd by lia. rewrite <- Hm', <- Hq in Hd.
  fold d1 d2 in Hd.
  assert (He' : e' <= fexp (d1 + ex - (d2 + ey))) by (unfold e'; lia).
  rewrite fexp_eq in He' |- *. lia.
Qed.

(** ** The error of one rounding *)

Lemma binary_round_aux_error (s : bool) (mx ex : Z) (lx : location) :
  0 <= mx -> ex <= fexp (Zdigits2 mx + ex) -> Zdigits2 mx + ex + 1 <= 1024 ->
  exists m3 e3,
    0 <= m3 /\ ex <= e3 /\
    binary_round_aux F64.prec F64.emax s mx ex lx =
      match m3 with
      | Z0 => S754_zero s
      | Zpos m => S754_finite s m e3
      | Zneg _ => S754_nan
      end /\
    mx - 3 * 2 ^ (fexp (Zdigits2 mx + ex) - ex) <= m3 * 2 ^ (e3 - ex)
      <= mx + 2 ^ (fexp (Zdigits2 mx + ex) - ex).
Proof.
  intros Hm Hal HK. unfold binary_round_aux.
  destruct (shr_fexp F64.prec F64.emax mx ex lx) as [mrs1 e1] eqn:E1.
  destruct (shr_fexp_spec _ _ _ _ _ Hm Hal E1) as [He1 Hm1].
  set (m1 := shr_m mrs1) in *.
  set (m2 := round_nearest_even m1 (loc_of_shr_record mrs1)).
  assert (P1 : 0 < 2 ^ (e1 - ex)) by (apply Z.pow_pos_nonneg; lia).
  assert (Hm1' : 0 <= m1) by (rewrite Hm1; apply Z.div_pos; lia).
  assert (Hm2 : m1 <= m2 <= m1 + 1)
    by (destruct (round_nearest_even_cases m1 (loc_of_shr_record mrs1)); fold m2 in H; lia).
  assert (Hd2 : Zdigits2 m1 <= Zdigits2 m2 <= Zdigits2 m1 + 1).
  { split; [apply Zdigits2_mono; lia|].
    transitivity (Zdigits2 (m1 + 1)); [apply Zdigits2_mono; lia | apply Zdigits2_succ; lia]. }
  assert (Hsz : (0 < m1 /\ Zdigits2 m1 + e1 = Zdigits2 mx + ex) \/
                (m1 = 0 /\ e1 = -1074)).
  { destruct (Z_lt_le_dec (e1 - ex) (Zdigits2 mx)) as [Hlt|Hge].
    - left. assert (0 < mx) by (destruct mx; cbn in Hlt; lia).
      rewrite Hm1, Zdigits2_div_pow by lia. split; [|lia].
      pose proof (Zdigits2_div_pow mx (e1 - ex) ltac:(lia) ltac:(lia) Hlt) as Hd.
      destruct (mx / 2 ^ (e1 - ex)) as [|q|q] eqn:Eq; cbn in Hd; lia.
    - right. split; [rewrite Hm1; apply Zdigits2_div_pow_zero; lia|].
      rewrite fexp_eq in He1. lia. }
  assert (Hal2 : e1 <= fexp (Zdigits2 m2 + e1)).
  { rewrite fexp_eq in He1 |- *. pose proof (Zdigits2_nonneg m1).
    destruct Hsz as [[_ Hs]|[Hz He]]; lia. }
  assert (Hm2' : 0 <= m2) by lia.
  destruct (shr_fexp F64.prec F64.emax m2 e1 loc_Exact) as [mrs3 e3] eqn:E3.
  destruct (shr_fexp_spec _ _ _ _ _ Hm2' Hal2 E3) as [He3 Hm3].
  assert (P3 : 0 < 2 ^ (e3 - e1)) by (apply Z.pow_pos_nonneg; lia).
  assert (Hn2 : e3 - e1 = 0 \/ e3 - e1 = 1).
  { rewrite fexp_eq in He1, He3. destruct Hsz as [[_ Hs]|[Hz He]].
    - lia.
    - rewrite Hz in Hd2. cbn in Hd2. lia. }
  assert (Hle : e3 <= 971).
  { rewrite fexp_eq in He1, He3. destruct Hsz as [[_ Hs]|[Hz He]].
    - lia.
    - rewrite Hz in Hd2. cbn in Hd2. lia. }
  exists (shr_m mrs3), e3.
  assert (H3 : 0 <= shr_m mrs3) by (rewrite Hm3; apply Z.div_pos; lia).
  split; [exact H3|]. split; [lia|]. split.
  - destruct (shr_m mrs3); [reflexivity| |reflexivity].
    replace (e3 <=? F64.emax - F64.prec) with true; [reflexivity|].
    symmetry. apply Z.leb_le. unfold F64.emax, F64.prec. lia.
  - rewrite <- He1.
    replace (e3 - ex) with ((e3 - e1) + (e1 - ex)) by lia.
    rewrite Z.pow_add_r by lia.
    pose proof (Z.mul_div_le mx (2 ^ (e1 - ex)) P1) as L1.
    pose proof (Z.mul_succ_div_gt mx (2 ^ (e1 - ex)) P1) as U1.
    pose proof (Z.mul_div_le m2 (2 ^ (e3 - e1)) P3) as L3.
    pose proof (Z.mul_succ_div_gt m2 (2 ^ (e3 - e1)) P3) as U3.
    rewrite <- Hm1 in L1, U1. rewrite <- Hm3 in L3, U3.
    unfold Z.succ in U1, U3.
    assert (HB : 2 ^ (e3 - e1) = 1 \/ 2 ^ (e3 - e1) = 2)
      by (destruct Hn2 as [-> | ->]; [left|right]; reflexivity).
    revert L1 U1 L3 U3 Hm2 HB P1 Hm1' H3.
    generalize (2 ^ (e1 - ex)) (2 ^ (e3 - e1)) (shr_m mrs3) m1 m2.
    clear. intros A B q m1 m2 L1 U1 L3 U3 Hm2 HB P1 Hm1 H3.
    destruct HB as [-> | ->]; nia.
Qed.

(** ** The rational value of a float *)

Lemma pow2_pos (e : Z) : (0 < 2 ^ e)%Q.
Proof. apply Qpower_0_lt. reflexivity. Qed.

Lemma pow2_add (a b : Z) : (2 ^ (a + b) == 2 ^ a * 2 ^ b)%Q.
Proof. apply Qpower_plus. discriminate. Qed.

Lemma pow2_le (a b : Z) : a <= b -> (2 ^ a <= 2 ^ b)%Q.
Proof. intros H. apply Qpower_le_compat_l; [exact H|]. discriminate. Qed.

Lemma pow2_Z (n : Z) : 0 <= n -> (inject_Z (2 ^ n) == 2 ^ n)%Q.
Proof. intros H. now rewrite Zpower_Qpower. Qed.

Lemma eta_le_eps : (0 < eta /\ eta <= eps)%Q.
Proof. split; [apply pow2_pos|apply pow2_le; lia]. Qed.

Lemma eps_value : (eps == 1 # 4503599627370496)%Q.
Proof. reflexivity. Qed.

Lemma ulp_bound (mx ex : Z) : 0 < mx ->
  (2 ^ fexp (Zdigits2 mx + ex) <= eps * (inject_Z mx * 2 ^ ex) + eta)%Q.
Proof.
  intros Hm. rewrite fexp_eq.
  pose proof (pow2_pos ex) as Pe. pose proof (proj1 eta_le_eps) as Pn.
  assert (Pm : (0 < inject_Z mx)%Q) by (change 0%Q with (inject_Z 0); now rewrite <- Zlt_Qlt).
  assert (Pv : (0 <= eps * (inject_Z mx * 2 ^ ex))%Q).
  { apply Qmult_le_0_compat; [apply Qlt_le_weak, pow2_pos|].
    apply Qmult_le_0_compat; apply Qlt_le_weak; assumption. }
  destruct (Z.max_spec (Zdigits2 mx + ex - 53) (-1074)) as [[_ ->]|[_ ->]].
  - fold eta. lra.
  - destruct (Zdigits2_bounds mx Hm) as [Lm _]. pose proof (Zdigits2_pos mx Hm) as Dm.
    replace (Zdigits2 mx + ex - 53) with ((-52) + ((Zdigits2 mx - 1) + ex)) by lia.
    rewrite !pow2_add. fold eps.
    rewrite <- pow2_Z by lia.
    assert (Hq : (inject_Z (2 ^ (Zdigits2 mx - 1)) <= inject_Z mx)%Q) by now rewrite <- Zle_Qle.
    assert (Pp : (0 < eps)%Q) by apply pow2_pos.
    assert (H1 : (inject_Z (2 ^ (Zdigits2 mx - 1)) * 2 ^ ex <= inject_Z mx * 2 ^ ex)%Q)
      by (apply Qmult_le_compat_r; [exact Hq|now apply Qlt_le_weak]).
    assert (H2 : (eps * (inject_Z (2 ^ (Zdigits2 mx - 1)) * 2 ^ ex)
                  <= eps * (inject_Z mx * 2 ^ ex))%Q).
    { rewrite (Qmult_comm eps), (Qmult_comm eps (inject_Z mx * 2 ^ ex)).
      apply Qmult_le_compat_r; [exact H1|now apply Qlt_le_weak]. }
    lra.
Qed.

(** One rounding of the exact value [mx * 2^ex] moves it by at most three
    units in the last place. *)
Lemma round_value (mx ex : Z) :
  0 < mx -> ex <= fexp (Zdigits2 mx + ex) -> Zdigits2 mx + ex + 1 <= 1024 ->
  let R := binary_round_aux F64.prec F64.emax false mx ex loc_Exact in
  let v := (inject_Z mx * 2 ^ ex)%Q in
  (v - 3 * (eps * v + eta) <= F2Q R <= v + (eps * v + eta))%Q.
Proof.
  intros Hm Hal HK. cbv zeta.
  destruct (binary_round_aux_error false mx ex loc_Exact ltac:(lia) Hal HK)
    as (m3 & e3 & H3 & He3 & -> & HL & HU).
  pose proof (ulp_bound mx ex Hm) as Hu.
  set (e1 := fexp (Zdigits2 mx + ex)) in *.
  assert (EV : (F2Q match m3 with
                    | 0%Z => S754_zero false
                    | Zpos m => S754_finite false m e3
                    | Zneg _ => S754_nan
                    end == inject_Z (m3 * 2 ^ (e3 - ex)) * 2 ^ ex)%Q).
  { rewrite inject_Z_mult, pow2_Z by lia. rewrite <- Qmult_assoc, <- pow2_add.
    replace (e3 - ex + ex) with e3 by lia.
    destruct m3 as [|m|m]; [cbn [F2Q]; now rewrite Qmult_0_l|reflexivity|lia]. }
  rewrite EV.
  assert (E1 : (2 ^ e1 == inject_Z (2 ^ (e1 - ex)) * 2 ^ ex)%Q).
  { rewrite pow2_Z by lia. rewrite <- pow2_add. now replace (e1 - ex + ex) with e1 by lia. }
  rewrite E1 in Hu.
  assert (HL' : mx <= m3 * 2 ^ (e3 - ex) + 3 * 2 ^ (e1 - ex)) by lia.
  clear HL. rewrite Zle_Qle in HL', HU.
  rewrite inject_Z_plus in HU.
  rewrite inject_Z_plus, (inject_Z_mult 3) in HL'.
  change (inject_Z 3) with 3%Q in HL'.
  pose proof (pow2_pos ex) as Pe.
  revert HL' HU Hu.
  generalize (inject_Z (m3 * 2 ^ (e3 - ex))) (inject_Z (2 ^ (e1 - ex))) (inject_Z mx)
             (2 ^ ex)%Q eps eta Pe.
  clear. intros w a m p ep et Pp HL HU Hu.
  split; nra.
Qed.

Lemma near_eq (v v' r r' : Q) : (v == v')%Q -> (r == r')%Q -> near v r -> near v' r'.
Proof. unfold near. intros Hv Hr. now rewrite Hv, Hr. Qed.

Lemma near_refl (v : Q) : (0 <= v)%Q -> near v v.
Proof.
  intros H. unfold near. destruct eta_le_eps as [He1 He2].
  assert (0 <= eps * v)%Q by (apply Qmult_le_0_compat; [lra|exact H]).
  lra.
Qed.

Lemma binary_round_value (mx : positive) (ex : Z) :
  Zpos (digits2_pos mx) + ex + 1 <= 1024 ->
  near (inject_Z (Zpos mx) * 2 ^ ex) (F2Q (binary_round F64.prec F64.emax false mx ex)).
Proof.
  intros HK. unfold binary_round.
  destruct (shl_align mx ex (fexp (Zpos (digits2_pos mx) + ex))) as [mz ez] eqn:E.
  assert (H : Zdigits2 (Zpos mz) + ez = Zpos (digits2_pos mx) + ex /\
              ez <= fexp (Zdigits2 (Zpos mz) + ez) /\
              ez <= ex /\ Zpos mz = Zpos mx * 2 ^ (ex - ez)).
  { destruct (Z_lt_le_dec (fexp (Zpos (digits2_pos mx) + ex)) ex) as [Hlt|Hge].
    - destruct (shl_align_spec mx ex (fexp (Zpos (digits2_pos mx) + ex)) ltac:(lia)) as [H1 H2].
      rewrite E in H1, H2. cbn [fst snd] in H1, H2.
      rewrite H1, Zdigits2_mul_pow by lia. cbn [Zdigits2]. split; [lia|].
      split; [|split; [lia|now rewrite H2]].
      match goal with |- _ <= fexp ?a => replace a with (Zpos (digits2_pos mx) + ex) by lia end. lia.
    - unfold shl_align in E.
      destruct (fexp (Zpos (digits2_pos mx) + ex) - ex) as [|p|p] eqn:E'; try lia;
        inversion E; subst; cbn [Zdigits2]; rewrite Z.sub_diag; repeat split; lia. }
  destruct H as (H1 & H2 & H3 & H4).
  pose proof (round_value (Zpos mz) ez ltac:(lia) H2 ltac:(lia)) as R. cbv zeta in R.
  eapply near_eq; [|reflexivity|exact R].
  rewrite H4, inject_Z_mult, pow2_Z by lia. rewrite <- Qmult_assoc, <- pow2_add.
  replace (ex - ez + ez) with ex by lia. reflexivity.
Qed.

Lemma normalize_value (m e : Z) (sz : bool) : 0 < m -> Zdigits2 m + e + 1 <= 1024 ->
  near (inject_Z m * 2 ^ e) (F2Q (binary_normalize F64.prec F64.emax m e sz)).
Proof.
  destruct m as [|p|p]; try lia. intros _ H. cbn [binary_normalize].
  apply binary_round_value. exact H.
Qed.

Lemma F2Q_range (K : Z) (x : float) : nonneg x -> bounded_size K x -> (0 <= F2Q x < 2 ^ K)%Q.
Proof.
  destruct x as [s| | |[] m e]; cbn [nonneg bounded_size F2Q cond_Zopp]; try tauto.
  - intros _ _. split; [lra|apply pow2_pos].
  - intros _ [_ S]. destruct (digits2_pos_bounds m) as [_ U].
    pose proof (pow2_pos e) as Pe.
    assert (Pm : (0 < inject_Z (Zpos m))%Q) by (change 0%Q with (inject_Z 0); now rewrite <- Zlt_Qlt).
    rewrite Zlt_Qlt, pow2_Z in U by lia.
    pose proof (pow2_le _ _ S) as L. rewrite pow2_add in L.
    revert Pe Pm U L.
    generalize (inject_Z (Zpos m)) (2 ^ e)%Q (2 ^ Zpos (digits2_pos m))%Q (2 ^ K)%Q.
    clear. intros. split; nra.
Qed.

(** The product of two non-negative floats. *)
Lemma mul_value (a b K : Z) (x y : float) : nonneg x -> nonneg y ->
  bounded_size a x -> bounded_size b y -> a + b + 1 <= K -> -1073 <= K -> K <= 1024 ->
  nonneg (x * y)%f64 /\ bounded_size K (x * y)%f64 /\
  near (F2Q x * F2Q y) (F2Q (x * y)%f64).
Proof.
  intros Nx Ny Bx By HK1 HK2 HK3.
  pose proof (mul_bounded a b K x y Bx By HK1 HK2 HK3) as Bz.
  split; [|split; [exact Bz|]]; revert Nx Ny Bx By Bz;
    destruct x as [sx| | |[] mx ex], y as [sy| | |[] my ey];
    cbn [nonneg bounded_size]; try tauto; intros _ _ Bx By;
    try (intros _; exact I);
    try (intros _; cbn [F64.mul SFmul F2Q];
         apply (near_eq 0 _ 0 _); [ring|reflexivity|apply near_refl; lra]).
  - destruct Bx as [Bx Sx], By as [By Sy].
    destruct (bounded_facts _ _ Bx) as (Dx & Ex & Cx).
    destruct (bounded_facts _ _ By) as (Dy & Ey & Cy).
    pose proof (Zdigits2_mul (Zpos mx) (Zpos my) ltac:(lia) ltac:(lia)) as [Dl Du].
    cbn [Zdigits2] in Dl, Du. change (Zpos mx * Zpos my) with (Zpos (mx * my)) in Dl, Du.
    cbn [Zdigits2] in Dl, Du.
    pose proof (Pos2Z.is_pos (digits2_pos mx)). pose proof (Pos2Z.is_pos (digits2_pos my)).
    unfold F64.mul, SFmul. cbn [xorb].
    destruct (binary_round_aux_spec false (Zpos (mx * my)) (ex + ey) loc_Exact ltac:(lia))
      as (_ & S & _).
    + cbn [Zdigits2]. rewrite fexp_eq. lia.
    + intros Bz.
      destruct (binary_round_aux F64.prec F64.emax false (Zpos (mx * my)) (ex + ey) loc_Exact)
        as [|[]| |[]]; cbn in S, Bz |- *; trivial; try discriminate; try contradiction.
  - destruct Bx as [Bx Sx], By as [By Sy].
    destruct (bounded_facts _ _ Bx) as (Dx & Ex & Cx).
    destruct (bounded_facts _ _ By) as (Dy & Ey & Cy).
    pose proof (Zdigits2_mul (Zpos mx) (Zpos my) ltac:(lia) ltac:(lia)) as [Dl Du].
    cbn [Zdigits2] in Dl, Du. change (Zpos mx * Zpos my) with (Zpos (mx * my)) in Dl, Du.
    cbn [Zdigits2] in Dl, Du.
    pose proof (Pos2Z.is_pos (digits2_pos mx)). pose proof (Pos2Z.is_pos (digits2_pos my)).
    intros _. unfold F64.mul, SFmul. cbn [xorb F2Q cond_Zopp].
    assert (Hf : ex + ey <= fexp (Zdigits2 (Zpos (mx * my)) + (ex + ey)))
      by (cbn [Zdigits2]; rewrite fexp_eq; lia).
    pose proof (round_value (Zpos (mx * my)) (ex + ey) ltac:(lia) Hf
                  ltac:(cbn [Zdigits2]; lia)) as R.
    cbv zeta in R. eapply near_eq; [|reflexivity|exact R].
    rewrite Pos2Z.inj_mul, inject_Z_mult, pow2_add. ring.
Qed.

(** The difference [x - y] of a positive float and a smaller non-negative one. *)
Lemma sub_value (a K : Z) (mx : positive) (ex : Z) (y : float) :
  let x := S754_finite false mx ex in
  nonneg y -> bounded_size a x -> bounded_size a y ->
  a + 2 <= K -> -1073 <= K -> K <= 1024 ->
  (F2Q y < F2Q x)%Q ->
  nonneg (x - y)%f64 /\ bounded_size K (x - y)%f64 /\
  near (F2Q x - F2Q y) (F2Q (x - y)%f64).
Proof.
  intros x Ny Bx By HK1 HK2 HK3 Hlt.
  pose proof (sub_bounded a a K x y Bx By HK1 HK1 HK2 HK3) as Bz.
  assert (Px : (0 <= F2Q x)%Q) by (apply (F2Q_range a); [exact I|exact Bx]).
  assert (H : sign_is false (x - y)%f64 /\ near (F2Q x - F2Q y) (F2Q (x - y)%f64)).
  { subst x. revert Ny Bx By Hlt. clear Bz.
    destruct y as [sy| | |[] my ey]; cbn [nonneg bounded_size]; try tauto; intros _ Bx By Hlt.
    - cbn [F64.sub SFsub sign_is]. split; [reflexivity|].
      apply (near_eq (F2Q (S754_finite false mx ex)) _ (F2Q (S754_finite false mx ex)) _);
        [cbn [F2Q]; ring|reflexivity|apply near_refl; exact Px].
    - destruct Bx as [_ Sx], By as [_ Sy]. unfold F64.sub, SFsub. cbn [cond_Zopp].
      cbn [F2Q cond_Zopp] in Hlt |- *.
      set (ez := Z.min ex ey).
      destruct (shl_align_spec mx ex ez ltac:(lia)) as [HX _].
      destruct (shl_align_spec my ey ez ltac:(lia)) as [HY _].
      pose proof (shl_align_size mx ex ez ltac:(lia)) as SX.
      set (X := Zpos (fst (shl_align mx ex ez))) in *.
      set (Y := Zpos (fst (shl_align my ey ez))) in *.
      assert (EV : (inject_Z (X - Y) * 2 ^ ez ==
                    inject_Z (Zpos mx) * 2 ^ ex - inject_Z (Zpos my) * 2 ^ ey)%Q).
      { unfold Z.sub at 1. rewrite inject_Z_plus, inject_Z_opp, HX, HY, !inject_Z_mult.
        rewrite !pow2_Z by lia.
        replace ex with ((ex - ez) + ez) at 2 by lia.
        replace ey with ((ey - ez) + ez) at 2 by lia.
        rewrite !pow2_add. ring. }
      assert (Pz : 0 < X - Y).
      { destruct (Z_lt_le_dec 0 (X - Y)) as [Hp|Hn]; [exact Hp|exfalso].
        rewrite Zle_Qle in Hn. pose proof (pow2_pos ez) as Pe.
        revert EV Hn Pe Hlt. change (inject_Z 0) with 0%Q.
        generalize (inject_Z (X - Y)) (2 ^ ez)%Q (inject_Z (Zpos my) * 2 ^ ey)%Q
                   (inject_Z (Zpos mx) * 2 ^ ex)%Q. clear.
        intros z p w v EV Hn Pe Hlt. nra. }
      split.
      + apply (binary_normalize_spec (X - Y) ez false). exact Pz.
      + eapply near_eq; [exact EV|reflexivity|].
        apply normalize_value; [exact Pz|].
        assert (Zdigits2 (X - Y) <= Zdigits2 X).
        { apply Zdigits2_abs_le. assert (0 < Y) by (unfold Y; lia). lia. }
        lia. }
  destruct H as [S N]. split; [|split; [exact Bz|exact N]].
  apply strict_nonneg_nonneg. exact (sign_is_false_finite _ _ Bz S).
Qed.

(** [int(x)] of a non-negative float does not exceed it. *)
Lemma int_value (K : Z) (x : float) : nonneg x -> bounded_size K x ->
  exists z, Py.int x = Ok z /\ 0 <= z /\ (inject_Z z <= F2Q x)%Q.
Proof.
  destruct x as [s| | |[] m e]; cbn [nonneg bounded_size]; try tauto; intros _ B.
  - exists 0. split; [reflexivity|]. split; [lia|]. cbn [F2Q]. change (inject_Z 0) with 0%Q. lra.
  - exists (Z.shiftl (Zpos m) e). split; [reflexivity|]. split.
    + apply Z.shiftl_nonneg. lia.
    + cbn [F2Q cond_Zopp]. destruct (Z_le_gt_dec 0 e) as [He|He].
      * rewrite Z.shiftl_mul_pow2, inject_Z_mult, pow2_Z by lia. lra.
      * rewrite Z.shiftl_div_pow2 by lia.
        assert (P : 0 < 2 ^ (- e)) by (apply Z.pow_pos_nonneg; lia).
        pose proof (Z.mul_div_le (Zpos m) (2 ^ (- e)) P) as L.
        rewrite Zle_Qle, inject_Z_mult, pow2_Z in L by lia.
        pose proof (pow2_pos e) as Pe.
        assert (E1 : (2 ^ (- e) * 2 ^ e == 1)%Q).
        { rewrite <- pow2_add. replace (- e + e) with 0 by lia. reflexivity. }
        revert L Pe E1.
        generalize (inject_Z (Zpos m / 2 ^ (- e))) (inject_Z (Zpos m)) (2 ^ (- e))%Q (2 ^ e)%Q.
        clear. intros z m q p L Pe E1.
        assert (H : (q * z * p <= m * p)%Q) by nra.
        assert (H' : (q * z * p == z * (q * p))%Q) by ring.
        rewrite H', E1 in H. lra.
Qed.

(** A rounding of a value below one hundred misses it by less than a millionth. *)
Lemma near_coarse (v r : Q) : near v r -> (0 <= v <= 100)%Q ->
  (v - (1 # 1000000) <= r <= v + (1 # 1000000))%Q.
Proof.
  unfold near. intros [L U] [V0 V1]. destruct eta_le_eps as [He1 He2].
  pose proof eps_value as Ee. revert L U He1 He2 Ee. generalize eps eta. intros ep et L U He1 He2 Ee.
  rewrite Ee in *. split; nra.
Qed.

(* ===================================================================== *)
(** * Facts about the Python helpers *)
(* ===================================================================== *)

Lemma ltb_leb (x y : float) : (x <? y)%f64 = true -> (x <=? y)%f64 = true.
Proof. unfold F64.ltb, F64.leb, SFltb, SFleb. destruct (SFcompare x y) as [[]|]; congruence. Qed.

Lemma compare_refl (x : float) : x <> S754_nan -> SFcompare x x = Some Eq.
Proof.
  destruct x as [s|s| |s m e]; try congruence; intros _; cbn [SFcompare].
  - reflexivity.
  - destruct s; reflexivity.
  - rewrite Z.compare_refl.
    change (Pos.compare_cont Eq m m) with (Pos.compare m m). rewrite Pos.compare_refl.
    destruct s; reflexivity.
Qed.

Lemma compare_Eq_finite (s1 s2 : bool) (m1 m2 : positive) (e1 e2 : Z) :
  SFcompare (S754_finite s1 m1 e1) (S754_finite s2 m2 e2) = Some Eq ->
  S754_finite s1 m1 e1 = S754_finite s2 m2 e2.
Proof.
  cbn [SFcompare]. change (Pos.compare_cont Eq m1 m2) with (Pos.compare m1 m2).
  destruct s1, s2; try discriminate;
    destruct (Z.compare_spec e1 e2); try discriminate;
    destruct (Pos.compare_spec m1 m2); try discriminate; intros _; congruence.
Qed.

(** ** [clamp] *)

Lemma clamp_cases (v lo hi : float) : (lo <? hi)%f64 = true ->
  (clamp v lo hi = v /\ (lo <? v)%f64 = true /\ (v <? hi)%f64 = true) \/
  (clamp v lo hi = lo /\ (lo <? v)%f64 = false /\ (v <? hi)%f64 = true) \/
  (clamp v lo hi = hi /\ (v <? hi)%f64 = false).
Proof.
  intros H. unfold clamp, Py.max, Py.min.
  destruct (v <? hi)%f64 eqn:L1.
  - destruct (lo <? v)%f64 eqn:L0; [left|right; left]; auto.
  - rewrite H. right; right; auto.
Qed.

Lemma clamp_range (v : float) :
  (0 <=? clamp v 0 100)%f64 = true /\ (clamp v 0 100 <=? 100)%f64 = true.
Proof.
  destruct (clamp_cases v 0%f64 100%f64 eq_refl) as [(-> & L0 & L1)|[(-> & _)|(-> & _)]].
  - split; now apply ltb_leb.
  - split; reflexivity.
  - split; reflexivity.
Qed.

Lemma clamp_readback (v : float) :
  (0 <=? v)%f64 = true -> (v <=? 100)%f64 = true ->
  (clamp v 0 100 =? v)%f64 = true /\ (v <> S754_zero true -> clamp v 0 100 = v).
Proof.
  intros H0 H1.
  destruct (clamp_cases v 0%f64 100%f64 eq_refl) as [(E & L0 & L1)|[(E & L0 & L1)|(E & L1)]];
    rewrite E.
  - split; [|reflexivity]. unfold F64.eqb, SFeqb. rewrite compare_refl; [reflexivity|].
    intros ->. discriminate.
  - unfold F64.leb, SFleb, F64.ltb, SFltb in H0, L0.
    destruct v as [s|s| |s m e]; try discriminate.
    + split; [reflexivity|]. destruct s; congruence.
    + destruct s; discriminate.
    + destruct s; discriminate.
  - unfold F64.leb, SFleb, F64.ltb, SFltb in H1, L1.
    destruct (SFcompare v 100%f64) as [[]|] eqn:C; try discriminate.
    destruct v as [s|s| |s m e];
      try (cbn [SFcompare] in C; destruct s; discriminate);
      try (cbn [SFcompare] in C; discriminate).
    apply compare_Eq_finite in C. rewrite C. split; [reflexivity|reflexivity].
Qed.

Lemma clamp_idempotent (v : float) : clamp (clamp v 0 100) 0 100 = clamp v 0 100.
Proof.
  destruct (clamp_range v) as [H0 H1].
  apply (clamp_readback _ H0 H1).
  destruct (clamp_cases v 0%f64 100%f64 eq_refl) as [(E & L0 & L1)|[(E & _)|(E & _)]];
    rewrite E; try discriminate.
  intros ->. discriminate.
Qed.

Lemma clamp_unit (q : float) : F64.valid q = true ->
  strict_nonneg (clamp q 0 1) /\ bounded_size 1 (clamp q 0 1).
Proof.
  intros V.
  destruct (clamp_cases q 0%f64 1%f64 eq_refl) as [(E & L0 & L1)|[(E & _)|(E & _)]];
    rewrite E.
  - destruct q as [s|s| |s m e]; try (destruct s; discriminate); try discriminate.
    destruct s; [discriminate|]. split; [exact I|]. split; [exact V|].
    pose proof (proj1 (ltb_one_size m e V) L1). lia.
  - split; exact I.
  - split; [exact I|]. split; [reflexivity|]. cbn. lia.
Qed.

(** The value of a clamp to [0.0, 1.0] lies between zero and one. *)
Lemma clamp_unit_value (q : float) : F64.valid q = true ->
  (0 <= F2Q (clamp q 0 1) <= 1)%Q.
Proof.
  intros V.
  destruct (clamp_cases q 0%f64 1%f64 eq_refl) as [(E & L0 & L1)|[(E & _)|(E & _)]];
    rewrite E.
  - destruct q as [s|s| |s m e]; try (destruct s; discriminate); try discriminate.
    destruct s; [discriminate|].
    pose proof (proj1 (ltb_one_size m e V) L1) as S.
    destruct (F2Q_range 0 (S754_finite false m e) I (conj V S)) as [H0 H1].
    change (2 ^ 0)%Q with 1%Q in H1. lra.
  - cbn [F2Q]. lra.
  - split; [discriminate|]. vm_compute. discriminate.
Qed.

(** ** Arithmetic with the zero and unit literals *)

Lemma sub_zero_r (x : float) : (x - 0.0)%f64 = x.
Proof. destruct x as [[]| | |]; reflexivity. Qed.

Lemma add_zero_r (x : float) : strict_nonneg x -> (x + 0.0)%f64 = x.
Proof. destruct x as [[]| | |]; cbn [strict_nonneg]; try tauto; reflexivity. Qed.

Lemma int_ok (K : Z) (x : float) : bounded_size K x -> exists z, Py.int x = Ok z.
Proof.
  destruct x as [s| | |s m e]; cbn [bounded_size]; try tauto; intros _; unfold Py.int; cbn [F64.trunc];
    eexists; reflexivity.
Qed.

(* ===================================================================== *)
(** * Facts about the ring field *)
(* ===================================================================== *)

(** One step of a paint handler: the leading statement is run on the
    painter. *)
Ltac paint_step prim :=
  unfold Qt.bind at 1; unfold prim at 1; try unfold emit at 1; cbv beta iota;
  cbn [pen brush font antialiasing drawn].

Lemma mod_resultb_spec (x : float) : mod_resultb x = true -> mod_result x.
Proof.
  destruct x as [[]| | |[] m e]; cbn [mod_resultb]; try discriminate; intros H.
  - split; exact I.
  - apply andb_true_iff in H. destruct H as [B S]. apply Z.leb_le in S.
    split; [exact I|]. split; assumption.
Qed.

Lemma mul_strict_nonneg (a b K : Z) (x y : float) :
  strict_nonneg x -> strict_nonneg y ->
  bounded_size a x -> bounded_size b y -> a + b + 1 <= K -> -1073 <= K -> K <= 1024 ->
  strict_nonneg (x * y)%f64 /\ bounded_size K (x * y)%f64.
Proof.
  intros Nx Ny Bx By H1 H2 H3.
  destruct (mul_nonneg a b K x y (strict_nonneg_nonneg _ Nx) Ny Bx By H1 H2 H3) as [N B].
  split; [|exact B].
  destruct x as [[]| | |[] mx ex], y as [[]| | |[] my ey]; cbn [strict_nonneg] in Nx, Ny; try tauto;
    try exact I.
  destruct (S754_finite false mx ex * S754_finite false my ey)%f64 as [[]| | |[]] eqn:E;
    cbn [nonneg strict_nonneg] in N |- *; try tauto.
  unfold F64.mul, SFmul, binary_round_aux in E. cbn [xorb] in E.
  destruct (shr_fexp F64.prec F64.emax (Z.pos (mx * my)) (ex + ey) loc_Exact) as [? ?].
  destruct (shr_fexp F64.prec F64.emax _ _ loc_Exact) as [m3 ?].
  destruct (shr_m m3); [congruence| |discriminate].
  destruct (_ <=? _); discriminate.
Qed.

Section RingFacts.

Variables cos sin : float -> float.

(** The primitives are taken at the section's [cos] and [sin]. *)
Local Abbreviation dot_centre := (dot_centre cos sin).
Local Abbreviation dot_prim := (dot_prim cos sin).
Local Abbreviation ring_prims := (ring_prims cos sin).
Local Abbreviation dot_step := (dot_step cos sin).
Local Abbreviation ring_of := (ring_of cos sin).
Local Abbreviation field_prims := (field_prims cos sin).
Local Abbreviation ring_step := (ring_step cos sin).

Lemma local_phase_ok (phase offset : float) :
  unit_interval phase -> mod_result offset -> mod_result (local_phase phase offset).
Proof.
  intros P [No Bo]. apply unit_interval_spec in P. destruct P as [Np Bp].
  unfold local_phase. apply (float_mod_one 2).
  - apply (add_bounded 0 0); trivial; lia.
  - pose proof (add_nonneg phase offset Np No) as S.
    pose proof (add_bounded 0 0 2 phase offset Bp Bo ltac:(lia) ltac:(lia) ltac:(lia) ltac:(lia)) as B.
    apply strict_nonneg_nonneg. exact (sign_is_false_finite _ _ B S).
Qed.

Lemma arc_start_ok (base : float) (i : Z) : mod_result base -> i = 0 \/ i = 1 ->
  exists a, Py.int (- arc_start base i * 16)%f64 = Ok a.
Proof.
  intros [N B] Hi. apply (int_ok 18). apply (mul_bounded 12 5); try lia.
  - apply neg_bounded. apply (mul_bounded 2 9); try lia.
    + destruct Hi as [-> | ->].
      * change (F64.of_Z 0 * 0.48)%f64 with 0.0%f64. rewrite add_zero_r by exact N.
        now apply (bounded_size_weaken 0).
      * change (F64.of_Z 1 * 0.48)%f64 with 0.48%f64.
        apply (add_bounded 0 0); try lia; trivial. split; [reflexivity|]. cbn. lia.
    + split; [reflexivity|]. cbn. lia.
  - split; [reflexivity|]. cbn. lia.
Qed.

Lemma arc_start_zero (base : float) : mod_result base ->
  arc_start base 0 = (base * 360.0)%f64.
Proof.
  intros [N _]. unfold arc_start.
  change (F64.of_Z 0 * 0.48)%f64 with 0.0%f64. now rewrite add_zero_r.
Qed.

Lemma arc_start_one (base : float) : arc_start base 1 = ((base + 0.48) * 360.0)%f64.
Proof. reflexivity. Qed.

Lemma dot_index_ok :
  forallb (fun k => mod_resultb (F64.of_Z k / F64.of_Z 36)%f64) (Py.range 36) = true.
Proof. vm_compute. reflexivity. Qed.

Lemma dot_fraction_ok (base : float) (k : Z) : mod_result base -> In k (Py.range 36) ->
  mod_result (dot_fraction base k).
Proof.
  intros [N B] Hk.
  pose proof (proj1 (forallb_forall _ _) dot_index_ok k Hk) as Hc. cbv beta in Hc.
  apply mod_resultb_spec in Hc. destruct Hc as [Nc Bc].
  destruct (mul_strict_nonneg 0 (-3) 0 base 0.08%f64 N I B) as [Nm Bm]; try lia.
  { split; [reflexivity|]. cbn. lia. }
  unfold dot_fraction. apply (float_mod_one 2).
  - apply (add_bounded 0 0); trivial; lia.
  - pose proof (add_nonneg _ _ (strict_nonneg_nonneg _ Nc) Nm) as S.
    pose proof (add_bounded 0 0 2 _ _ Bc Bm ltac:(lia) ltac:(lia) ltac:(lia) ltac:(lia)) as Bs.
    apply strict_nonneg_nonneg. exact (sign_is_false_finite _ _ Bs S).
Qed.

Lemma smoothstep_unit_ok (x : float) :
  exists s, smoothstep 0.0%f64 1.0%f64 x = Ok s /\ bounded_size 10 s.
Proof.
  unfold smoothstep. rewrite sub_zero_r.
  change (1.0 - 0.0)%f64 with 1.0%f64. unfold Py.truediv. cbn [F64.is_zero].
  destruct (clamp_unit (x / 1.0)%f64 (div_valid _ _)) as [N B].
  set (t := clamp (x / 1.0)%f64 0.0%f64 1.0%f64) in *.
  eexists. split; [reflexivity|].
  apply (mul_bounded 3 6); try lia.
  - apply (mul_bounded 1 1); trivial; lia.
  - apply (sub_bounded 2 4); try lia.
    + split; [reflexivity|]. cbn. lia.
    + apply (mul_bounded 2 1); trivial; try lia. split; [reflexivity|]. cbn. lia.
Qed.

Lemma dot_alpha_ok (t : float) : exists a, dot_alpha t = Ok a.
Proof.
  unfold dot_alpha. destruct (smoothstep_unit_ok (pulse t)) as (s & -> & B).
  destruct (int_ok 18 (80 * s)%f64) as [n ->].
  - apply (mul_bounded 7 10); trivial; try lia. split; [reflexivity|]. cbn. lia.
  - eexists. reflexivity.
Qed.

(** The cubic [t * t * (3 - 2 * t)] stays below one, up to rounding. *)
Lemma smoothstep_unit_value (x : float) :
  exists s, smoothstep 0.0%f64 1.0%f64 x = Ok s /\ nonneg s /\ bounded_size 10 s /\
            (F2Q s <= 1 + (1 # 100000))%Q.
Proof.
  unfold smoothstep. rewrite sub_zero_r.
  change (1.0 - 0.0)%f64 with 1.0%f64. unfold Py.truediv. cbn [F64.is_zero].
  destruct (clamp_unit (x / 1.0)%f64 (div_valid _ _)) as [N B].
  destruct (clamp_unit_value (x / 1.0)%f64 (div_valid _ _)) as [T0 T1].
  set (t := clamp (x / 1.0)%f64 0.0%f64 1.0%f64) in *.
  eexists. split; [reflexivity|].
  pose proof (strict_nonneg_nonneg _ N) as N'.
  destruct (mul_value 1 1 3 t t N' N' B B) as (NA & BA & VA); try lia.
  assert (B2 : bounded_size 2 2%f64) by (split; [reflexivity|cbn; lia]).
  destruct (mul_value 2 1 4 2%f64 t I N' B2 B) as (NB & BB & VB); try lia.
  assert (B3 : bounded_size 4 3%f64) by (split; [reflexivity|cbn; lia]).
  assert (E2 : (F2Q 2%f64 == 2)%Q) by (vm_compute; reflexivity).
  assert (E3 : (F2Q 3%f64 == 3)%Q) by (vm_compute; reflexivity).
  apply (near_eq _ (2 * F2Q t) _ (F2Q (2 * t)%f64)) in VB; [|now rewrite E2|reflexivity].
  apply near_coarse in VA; [|nra]. apply near_coarse in VB; [|lra].
  destruct (sub_value 4 6 6755399441055744 (-51) (2 * t)%f64 NB B3 BB) as (NC & BC & VC);
    try lia.
  { change (S754_finite false 6755399441055744 (-51)) with 3%f64. rewrite E3. lra. }
  change (S754_finite false 6755399441055744 (-51)) with 3%f64 in *.
  apply (near_eq _ (3 - F2Q (2 * t)%f64) _ (F2Q (3 - 2 * t)%f64)) in VC;
    [|now rewrite E3|reflexivity].
  apply near_coarse in VC; [|lra].
  destruct (mul_value 3 6 10 (t * t)%f64 (3 - 2 * t)%f64 NA NC BA BC) as (ND & BD & VD); try lia.
  split; [exact ND|]. split; [exact BD|].
  pose proof (F2Q_range _ _ NA BA) as [A0 _]. pose proof (F2Q_range _ _ NC BC) as [C0 _].
  revert T0 T1 VA VB VC VD A0 C0.
  generalize (F2Q t) (F2Q (t * t)%f64) (F2Q (2 * t)%f64) (F2Q (3 - 2 * t)%f64)
             (F2Q (t * t * (3 - 2 * t))%f64).
  clear. intros T A B C D T0 T1 [_ VA] [VB _] [_ VC] VD A0 C0.
  assert (HT : (T * T * (3 - 2 * T) <= 1)%Q).
  { assert (0 <= (1 - T) * (1 - T) * (1 + 2 * T))%Q
      by (repeat apply Qmult_le_0_compat; lra).
    lra. }
  assert (HT2 : (T * T <= 1)%Q) by nra.
  assert (HC : (C <= 3 - 2 * T + (2 # 1000000))%Q) by lra.
  assert (HAC : (A * C <= 1 + (6 # 1000000))%Q).
  { assert (A * C <= (T * T + (1 # 1000000)) * C)%Q
      by (apply Qmult_le_compat_r; [exact VA|exact C0]).
    assert ((T * T + (1 # 1000000)) * C
            <= (T * T + (1 # 1000000)) * (3 - 2 * T + (2 # 1000000)))%Q.
    { rewrite (Qmult_comm _ C), (Qmult_comm _ (3 - 2 * T + (2 # 1000000))).
      apply Qmult_le_compat_r; [exact HC|nra]. }
    nra. }
  apply near_coarse in VD; [|split; [apply Qmult_le_0_compat; assumption|lra]].
  lra.
Qed.

(** The opacity of an orbit dot lies between 40 and 120. *)
Lemma dot_alpha_range (t : float) : exists a, dot_alpha t = Ok a /\ 40 <= a <= 120.
Proof.
  unfold dot_alpha. destruct (smoothstep_unit_value (pulse t)) as (s & -> & N & B & V).
  assert (B80 : bounded_size 7 80%f64) by (split; [reflexivity|cbn; lia]).
  assert (E80 : (F2Q 80%f64 == 80)%Q) by (vm_compute; reflexivity).
  destruct (mul_value 7 10 18 80%f64 s I N B80 B) as (NE & BE & VE); try lia.
  destruct (int_value 18 (80 * s)%f64 NE BE) as (n & Hn & N0 & Nv).
  rewrite Hn. exists (n + 40). split; [reflexivity|].
  pose proof (F2Q_range _ _ N B) as [S0 _].
  apply (near_eq _ (80 * F2Q s) _ (F2Q (80 * s)%f64)) in VE; [|now rewrite E80|reflexivity].
  apply near_coarse in VE; [|lra].
  assert (H : (inject_Z n < inject_Z 81)%Q) by (change (inject_Z 81) with 81%Q; lra).
  rewrite <- Zlt_Qlt in H. lia.
Qed.

(** ** What [_draw_ring] draws *)

Lemma for_each_ok {A : Type} (step : A -> Painter -> Painter) (l : list A)
    (body : A -> Painting) :
  (forall a, In a l -> forall p, body a p = Ok (tt, step a p)) ->
  forall p, for_each l body p = Ok (tt, fold_left (fun q a => step a q) l p).
Proof.
  induction l as [|a l IH]; intros H p; cbn [for_each fold_left].
  - reflexivity.
  - unfold Qt.bind. rewrite (H a (or_introl eq_refl)). apply IH.
    intros b Hb. apply H. now right.
Qed.

Lemma fold_dot_step (center : QPointF) (radius width base : float) (l : list Z) :
  forall (k : Z) (p : Painter),
  fold_left (fun q a => dot_step center radius width base a q) (k :: l) p =
  mkPainter (pen p) (dot_brush base (last (k :: l) 0)) (font p) (antialiasing p)
    (drawn p ++ map (fun a => DrawEllipse (dot_centre center radius width (dot_fraction base a))
                                 2.2%f64 2.2%f64 (pen p) (dot_brush base a)) (k :: l)).
Proof.
  induction l as [|j l IH]; intros k p.
  - reflexivity.
  - change (fold_left _ (k :: j :: l) p)
      with (fold_left (fun q a => dot_step center radius width base a q) (j :: l)
              (dot_step center radius width base k p)).
    rewrite IH. cbn [dot_step pen brush font antialiasing drawn map last].
    rewrite <- app_assoc. reflexivity.
Qed.

Lemma dot_body_ok (center : QPointF) (radius width base : float) (k : Z) (p : Painter) :
  (s <- lift (smoothstep 0.0%f64 1.0%f64
                (1.0 - F64.abs (0.5 - dot_fraction base k) * 2)%f64) ;;
   n <- lift (Py.int (80 * s)%f64) ;;
   setBrush (SolidBrush (rgba 80 220 255 (n + 40))) ;;
   drawEllipse (dot_centre center radius width (dot_fraction base k)) 2.2%f64 2.2%f64)%paint p
  = Ok (tt, dot_step center radius width base k p).
Proof.
  destruct (dot_alpha_ok (dot_fraction base k)) as [a Ha].
  unfold dot_step, dot_brush. rewrite Ha. cbn [unwrap].
  unfold dot_alpha, pulse in Ha. unfold Qt.bind, Qt.lift.
  destruct (smoothstep _ _ _) as [s|]; [|discriminate].
  destruct (Py.int _) as [n|]; [|discriminate].
  injection Ha as <-. reflexivity.
Qed.

Lemma arc_body_ok (center : QPointF) (radius width : float) (color : QColor)
    (base : float) (i : Z) (p : Painter) :
  mod_result base -> i = 0 \/ i = 1 ->
  (setPen (setCapStyle RoundCap (QPen color width)) ;;
   a <- lift (Py.int (- arc_start base i * 16)%f64) ;;
   alen <- lift (Py.int (- (if Z.eqb i 0 then 200.0 else 120.0) * 16)%f64) ;;
   drawArc (ring_rect center radius) a alen)%paint p
  = Ok (tt, arc_step center radius width color base i p).
Proof.
  intros Hb Hi. destruct (arc_start_ok base i Hb Hi) as [a Ha].
  unfold arc_step, arc_prim. rewrite Ha. cbn [unwrap].
  unfold Qt.bind, Qt.lift, setPen, drawArc, emit.
  destruct Hi as [-> | ->].
  - change (Py.int (- (if 0 =? 0 then 200.0 else 120.0) * 16)%f64) with (@Ok Z (-3200)).
    reflexivity.
  - change (Py.int (- (if 1 =? 0 then 200.0 else 120.0) * 16)%f64) with (@Ok Z (-1920)).
    reflexivity.
Qed.

Lemma draw_ring_run (self : AnimatedRings.t) (center : QPointF) (radius width offset : float)
    (color : QColor) (p : Painter) :
  mod_result (local_phase (AnimatedRings.phase self) offset) ->
  AnimatedRings._draw_ring cos sin self center radius width offset color p =
  Ok (tt, mkPainter NoPen
            (dot_brush (local_phase (AnimatedRings.phase self) offset) 35)
            (font p) (antialiasing p)
            (drawn p ++ ring_prims center radius width color
                          (local_phase (AnimatedRings.phase self) offset))).
Proof.
  intros Hb. unfold AnimatedRings._draw_ring. fold (local_phase (AnimatedRings.phase self) offset).
  set (base := local_phase (AnimatedRings.phase self) offset) in *.
  unfold Qt.bind at 1.
  rewrite (for_each_ok (arc_step center radius width color base)).
  2:{ intros i Hi q. apply arc_body_ok; [exact Hb|].
      change (Py.range 2) with [0; 1] in Hi. cbn [In] in Hi. intuition congruence. }
  change (Py.range 2) with [0; 1]. cbn [fold_left].
  unfold Qt.bind at 1. unfold setPen at 1.
  rewrite (for_each_ok (dot_step center radius width base)).
  2:{ intros k _ q. apply dot_body_ok. }
  change (Py.range 36) with (0 :: map Z.of_nat (seq 1 35)) at 1.
  rewrite fold_dot_step.
  unfold arc_step. cbn [pen brush font antialiasing drawn]. unfold ring_prims.
  change (Py.range 36) with (0 :: map Z.of_nat (seq 1 35)).
  f_equal. f_equal. f_equal. rewrite <- !app_assoc. reflexivity.
Qed.

(** ** What [paintEvent] draws *)

Lemma ring_offsets_ok (radius : float) :
  Forall (fun ring => mod_result (snd (fst ring))) (AnimatedRings.rings radius).
Proof.
  unfold AnimatedRings.rings.
  repeat (constructor; [apply mod_resultb_spec; reflexivity|]). constructor.
Qed.

Lemma last_cons_default {A : Type} (a : A) (l : list A) (d d' : A) :
  last (a :: l) d = last (a :: l) d'.
Proof.
  revert a. induction l as [|b l IH]; intros a; [reflexivity|].
  change (last (a :: b :: l) d) with (last (b :: l) d).
  change (last (a :: b :: l) d') with (last (b :: l) d'). apply IH.
Qed.

Lemma fold_ring_step (phase : float) (centre : QPointF)
    (l : list (float * float * float * QColor)) :
  forall (ring : float * float * float * QColor) (p : Painter),
  fold_left (fun q a => ring_step phase centre a q) (ring :: l) p =
  mkPainter NoPen (dot_brush (local_phase phase (snd (fst (last (ring :: l) ring)))) 35)
    (font p) (antialiasing p)
    (drawn p ++ List.concat (map (ring_of phase centre) (ring :: l))).
Proof.
  induction l as [|b l IH]; intros a p.
  - cbn [fold_left map List.concat last]. unfold ring_step. now rewrite app_nil_r.
  - change (fold_left _ (a :: b :: l) p)
      with (fold_left (fun q x => ring_step phase centre x q) (b :: l)
              (ring_step phase centre a p)).
    rewrite IH. unfold ring_step at 1 2 3. cbn [pen brush font antialiasing drawn].
    rewrite <- app_assoc.
    change (last (a :: b :: l) a) with (last (b :: l) a).
    now rewrite (last_cons_default b l a b).
Qed.

Lemma paintEvent_run (caption : string) (self : AnimatedRings.t) (W H : Z) :
  unit_interval (AnimatedRings.phase self) ->
  Qt.run (AnimatedRings.paintEvent cos sin caption self W H) =
  Ok (field_prims caption (AnimatedRings.phase self) W H).
Proof.
  intros Hp. unfold Qt.run, AnimatedRings.paintEvent.
  change (Qt.center (Qt.rect W H))
    with (fst (Qt.center (Qt.rect W H)), snd (Qt.center (Qt.rect W H))).
  cbv beta iota zeta.
  fold (field_centre W H). change (Qt.width (Qt.rect W H)) with W.
  change (Qt.height (Qt.rect W H)) with H. fold (field_radius W H).
  unfold QPainter.
  paint_step setRenderHint.
  paint_step fillRect.
  unfold Qt.bind at 1.
  rewrite (for_each_ok (ring_step (AnimatedRings.phase self) (field_centre W H))).
  2:{ intros [[[r w] off] col] Hin q.
      pose proof (proj1 (Forall_forall _ _) (ring_offsets_ok (field_radius W H)) _ Hin) as Ho.
      cbn [fst snd] in Ho.
      rewrite draw_ring_run by (apply local_phase_ok; assumption). reflexivity. }
  unfold AnimatedRings.rings at 1. rewrite fold_ring_step.
  cbn [pen brush font antialiasing drawn].
  paint_step setPen. paint_step setFont. paint_step drawText.
  paint_step setFont. paint_step setPen.
  unfold drawText, emit. cbn [pen brush font antialiasing drawn].
  unfold field_prims, background, captions, AnimatedRings.rings.
  cbn [app]. rewrite <- !app_assoc. reflexivity.
Qed.

End RingFacts.

(* ===================================================================== *)
(** * The ring field paints and does nothing else *)
(* ===================================================================== *)

Lemma paints_as_paint {A : Type} (self : AnimatedRings.t) (c : Paint A) :
  paints_as self c (Runtime.paint c).
Proof. intros w p _. reflexivity. Qed.

Lemma paints_as_lift {A : Type} (self : AnimatedRings.t) (r : result A) :
  paints_as self (Qt.lift r) (Runtime.lift r).
Proof. intros w p _. unfold Qt.lift, Runtime.lift. now destruct r. Qed.

Lemma paints_as_ret {A : Type} (self : AnimatedRings.t) (a : A) :
  paints_as self (Qt.ret a) (Runtime.ret a).
Proof. intros w p _. reflexivity. Qed.

Lemma paints_as_bind {A B : Type} (self : AnimatedRings.t) (c : Paint A)
    (s : Runtime.Handler A) (k : A -> Paint B) (ks : A -> Runtime.Handler B) :
  paints_as self c s -> (forall a, paints_as self (k a) (ks a)) ->
  paints_as self (Qt.bind c k) (Runtime.bind s ks).
Proof.
  intros Hc Hk w p E. unfold Qt.bind, Runtime.bind. rewrite (Hc w p E).
  destruct (c p) as [[a p']|e]; [exact (Hk a w p' E)|reflexivity].
Qed.

Lemma paints_as_for_each {A : Type} (self : AnimatedRings.t) (l : list A)
    (body : A -> Paint unit) (bodys : A -> Runtime.Handler unit) :
  (forall a, paints_as self (body a) (bodys a)) ->
  paints_as self (Qt.for_each l body) (Runtime.for_each l bodys).
Proof.
  intros Hb. induction l as [|a l IH]; cbn [Qt.for_each Runtime.for_each].
  - apply paints_as_ret.
  - apply paints_as_bind; [apply Hb|intros _; exact IH].
Qed.

Lemma paints_as_get_phase {B : Type} (self : AnimatedRings.t) (c : Paint B)
    (ks : float -> Runtime.Handler B) :
  paints_as self c (ks (AnimatedRings.phase self)) ->
  paints_as self c (Runtime.bind Runtime.get_phase ks).
Proof.
  intros Hk w p E. unfold Runtime.bind, Runtime.get_phase. rewrite E. exact (Hk w p E).
Qed.

#[local] Ltac paints :=
  repeat first
    [ apply paints_as_paint | apply paints_as_lift | apply paints_as_ret
    | apply paints_as_for_each; intros ?
    | apply paints_as_bind; [|intros ?] ].

Lemma draw_ring_paints (cos sin : float -> float) (self : AnimatedRings.t) (center : QPointF)
    (radius width offset : float) (color : QColor) :
  paints_as self (AnimatedRings._draw_ring cos sin self center radius width offset color)
    (RingField._draw_ring cos sin center radius width offset color).
Proof.
  unfold AnimatedRings._draw_ring, RingField._draw_ring. cbv zeta.
  apply paints_as_get_phase. paints.
Qed.

Lemma paintEvent_paints (cos sin : float -> float) (self : AnimatedRings.t) (caption : string)
    (W H : Z) :
  paints_as self (AnimatedRings.paintEvent cos sin caption self W H)
    (RingField.paintEvent cos sin caption W H).
Proof.
  unfold AnimatedRings.paintEvent, RingField.paintEvent.
  destruct (Qt.center (Qt.rect W H)) as [cx cy]. cbv zeta.
  apply paints_as_bind; [apply paints_as_paint|intros _].
  apply paints_as_bind; [apply paints_as_paint|intros _].
  apply paints_as_bind.
  { apply paints_as_for_each. intros [[[r w] off] col]. apply draw_ring_paints. }
  intros _. paints.
Qed.

(** A repaint draws what the painting code draws on the ring widget of the
    world, and hands the world back as it was. *)
Lemma render_paints (cos sin : float -> float) (rev : NovaHUD.revision) (W H : Z)
    (w : Runtime.World) :
  RingField.render cos sin rev W H w =
  match NovaHUD.paint_rings cos sin rev (Runtime.window w) W H with
  | Ok prims => Ok (prims, w)
  | Raise e => Raise e
  end.
Proof.
  unfold RingField.render, NovaHUD.paint_rings, Qt.run.
  rewrite (paintEvent_paints cos sin (NovaHUD.rings (Runtime.window w)) _ W H w QPainter eq_refl).
  now destruct (AnimatedRings.paintEvent cos sin (NovaHUD.caption rev)
                  (NovaHUD.rings (Runtime.window w)) W H QPainter) as [[[] p]|e].
Qed.

(* ===================================================================== *)
(** * Facts about the gauge bar *)
(* ===================================================================== *)

Lemma mul_one_r (x : float) : F64.valid x = true -> (x * 1.0)%f64 = x.
Proof.
  destruct x as [[]|[]| |s m e]; try reflexivity. intros V.
  cbn [F64.valid valid_binary] in V. pose proof V as V'.
  unfold bounded, canonical_mantissa in V'. apply andb_true_iff in V'.
  destruct V' as [Hc He]. apply Z.eqb_eq in Hc. rewrite fexp_eq in Hc.
  unfold F64.mul, SFmul. rewrite xorb_false_r, Pos.mul_comm.
  cbn [Pos.mul]. unfold binary_round_aux, shr_fexp.
  cbn [Zdigits2 digits2_pos]. rewrite !Pos2Z.inj_succ.
  match goal with
  | |- context [fexp ?a - (e + -52)] =>
      replace (fexp a - (e + -52)) with 52 by (rewrite fexp_eq; lia)
  end.
  cbv [shr iter_pos shr_1 shr_record_of_loc orb].
  cbn [shr_m loc_of_shr_record round_nearest_even Zdigits2].
  replace (fexp (Zpos (digits2_pos m) + (e + -52 + 52)) - (e + -52 + 52)) with 0
    by (rewrite fexp_eq; lia).
  cbv beta iota. cbn [shr_m]. replace (e + -52 + 52) with e by lia. now rewrite He.
Qed.

Lemma leb_finite (lo x hi : float) :
  (lo <=? x)%f64 = true -> (x <=? hi)%f64 = true ->
  F64.is_finite lo = true -> F64.is_finite hi = true -> F64.is_finite x = true.
Proof.
  unfold F64.leb, SFleb.
  destruct x as [s|[]| |s m e], lo as [?|?| |? ? ?], hi as [?|?| |? ? ?];
    cbn [SFcompare F64.is_finite]; try discriminate; try reflexivity;
    repeat match goal with |- context [if ?b then _ else _] => destruct b end; discriminate.
Qed.

Lemma int_finite (x : float) : F64.is_finite x = true -> exists z, Py.int x = Ok z.
Proof.
  destruct x; try discriminate; intros _; unfold Py.int; cbn [F64.trunc]; eexists; reflexivity.
Qed.

Lemma gradient_stops (self : NeonBar.t) (a b : QPointF) :
  NeonBar.gradient self a b = QLinearGradient a b (style_stops (NeonBar.style self)).
Proof.
  unfold NeonBar.gradient, style_stops.
  destruct (String.eqb _ "rainbow"); [reflexivity|].
  destruct (String.eqb _ "pink"); [reflexivity|].
  destruct (String.eqb _ "green"); reflexivity.
Qed.

Lemma bar_paint_run (self : NeonBar.t) (W H n : Z) :
  Py.int (NeonBar.value self) = Ok n ->
  Qt.run (NeonBar.paintEvent self W H) = Ok (bar_prims self W H n).
Proof.
  intros Hn. unfold Qt.run, NeonBar.paintEvent. cbv zeta.
  rewrite gradient_stops. unfold QPainter.
  paint_step setRenderHint. paint_step setPen. paint_step setBrush.
  paint_step drawRoundedRect. paint_step setPen. paint_step setFont.
  paint_step drawText. paint_step setBrush. paint_step setPen.
  paint_step drawRoundedRect. paint_step setBrush. paint_step drawRoundedRect.
  paint_step setPen. paint_step drawLine. paint_step setPen. paint_step setFont.
  unfold Qt.bind at 1. unfold Qt.lift at 1. rewrite Hn.
  unfold drawText, emit. cbn [pen brush font antialiasing drawn app].
  unfold bar_prims, fill_prim, fill, fill_width, track, adjusted, Qt.rect.
  cbn [left top width height xf yf wf hf].
  replace (W + -8 - 8) with (W - 16) by lia. replace (H + -8 - 8) with (H - 16) by lia.
  reflexivity.
Qed.

(* ===================================================================== *)
(** * Facts about the main window *)
(* ===================================================================== *)

Lemma advance_unit (p : float) : unit_interval p -> unit_interval (advance p).
Proof.
  intros P. apply unit_interval_spec in P. destruct P as [Np Bp].
  apply mod_result_unit. unfold advance.
  assert (Bc : bounded_size 0 0.0075%f64) by (split; [reflexivity|cbn; lia]).
  pose proof (add_bounded 0 0 2 p 0.0075%f64 Bp Bc ltac:(lia) ltac:(lia) ltac:(lia) ltac:(lia)) as B.
  apply (float_mod_one 2); [exact B|].
  apply strict_nonneg_nonneg. apply (sign_is_false_finite _ _ B).
  now apply add_nonneg.
Qed.

Lemma iter_advance_unit (n : nat) (p : float) :
  unit_interval p -> unit_interval (Nat.iter n advance p).
Proof. intros P. induction n as [|n IH]; [exact P|]. rewrite Nat.iter_succ. now apply advance_unit. Qed.

Lemma zero_unit : unit_interval 0.0%f64.
Proof. repeat split. Qed.

Section HudFacts.

Variable sin : float -> float.
Variable rev : NovaHUD.revision.

Lemma sampleStats_fields (h : NovaHUD.t) (env : Env) :
  let h' := NovaHUD.sampleStats sin rev h env in
  NovaHUD.cpu_util h' = NeonBar.setValue (NovaHUD.cpu_util h) (NovaHUD.sample_cpu env) /\
  NovaHUD.cpu_temp h' = NeonBar.setValue (NovaHUD.cpu_temp h)
                          (clamp ((NovaHUD.sample_temp sin env / 100.0) * 100) 0 100)%f64 /\
  NovaHUD.battery h' = NeonBar.setValue (NovaHUD.battery h)
                         (NovaHUD.battery_reading rev (NovaHUD.sample_battery sin env)) /\
  NovaHUD.mem h' = NeonBar.setValue (NovaHUD.mem h) (NovaHUD.sample_mem env) /\
  NovaHUD.disk h' = NeonBar.setValue (NovaHUD.disk h) (NovaHUD.sample_disk env) /\
  NovaHUD.rings h' = NovaHUD.rings h /\
  NovaHUD.clock h' = NovaHUD.clock h /\
  (NovaHUD.net h', NovaHUD.last_bytes h') =
    NovaHUD.sample_network env (NovaHUD.net h) (NovaHUD.last_bytes h).
Proof.
  unfold NovaHUD.sampleStats.
  destruct (NovaHUD.sample_network env (NovaHUD.net h) (NovaHUD.last_bytes h)) as [n l].
  cbn. repeat split.
Qed.

Lemma iter_advance_comm (n : nat) (p : float) :
  Nat.iter n advance (advance p) = advance (Nat.iter n advance p).
Proof. now rewrite <- Nat.iter_succ_r, Nat.iter_succ. Qed.

Lemma run_phase (evs : list NovaHUD.event) : forall h : NovaHUD.t,
  AnimatedRings.phase (NovaHUD.rings (NovaHUD.run sin rev h evs)) =
  Nat.iter (ticks evs) advance (AnimatedRings.phase (NovaHUD.rings h)).
Proof.
  induction evs as [|ev evs IH]; intros h; [reflexivity|].
  unfold NovaHUD.run in *. cbn [fold_left]. rewrite IH.
  destruct ev as [|env|hms date]; cbn [NovaHUD.handle ticks].
  - rewrite Nat.iter_succ, <- iter_advance_comm. reflexivity.
  - now rewrite (proj1 (proj2 (proj2 (proj2 (proj2 (proj2 (sampleStats_fields h env))))))).
  - reflexivity.
Qed.

Lemma init_phase (env : Env) (hms date : string) :
  AnimatedRings.phase (NovaHUD.rings (NovaHUD.init sin rev env hms date)) = 0.0%f64.
Proof.
  unfold NovaHUD.init, NovaHUD.tick, NovaHUD.set_clock. cbn [NovaHUD.rings].
  now rewrite (proj1 (proj2 (proj2 (proj2 (proj2 (proj2 (sampleStats_fields NovaHUD.widgets env))))))).
Qed.

End HudFacts.

(* ===================================================================== *)
(** * The properties of the specification *)
(* ===================================================================== *)

(** ** C1: the animation phase *)

(** C1, counterexample: after 400 render ticks from process start the phase
    is 0x1.fffffffffffb4p-1 (just below 1), whereas [(400 * 0.0075) % 1.0]
    is 0.0; the two are not equal. *)
Lemma C1_phase_closed_form_fails :
  let p := AnimatedRings.phase
             (NovaHUD.rings
                (NovaHUD.run (fun x => x) NovaHUD.nov_py
                   (NovaHUD.init (fun x => x) NovaHUD.nov_py quiet_env "" "")
                   (repeat NovaHUD.animTimer 400))) in
  p = S754_finite false 9007199254740916 (-53) /\
  closed_form 400 = S754_zero false /\
  (p =? closed_form 400)%f64 = false.
Proof. vm_compute. repeat split. Qed.

(** C1, amended: after any sequence of timer events that contains [N]
    render ticks, the phase is the [N]-fold iterate of
    [p -> (p + 0.0075) % 1.0] from 0.0, computed in binary64, and it lies
    in [0, 1). *)
Theorem C1_phase_iterate_and_range (sin : float -> float) (rev : NovaHUD.revision)
    (env : Env) (hms date : string) (evs : list NovaHUD.event) :
  let p := AnimatedRings.phase
             (NovaHUD.rings (NovaHUD.run sin rev (NovaHUD.init sin rev env hms date) evs)) in
  p = Nat.iter (ticks evs) (fun q => F64.float_mod (q + 0.0075)%f64 1.0%f64) 0.0%f64 /\
  F64.valid p = true /\ (0 <=? p)%f64 = true /\ (p <? 1.0)%f64 = true.
Proof.
  cbv zeta. rewrite run_phase, init_phase. split; [reflexivity|].
  apply (iter_advance_unit (ticks evs) 0.0%f64 zero_unit).
Qed.

(** ** C2: the gauge value *)

(** C2: [setValue(v)] stores [clamp(v, 0, 100)]; the stored value is in
    [0, 100] whatever [v] and the former state are; for [v] in [0, 100] the
    value read back equals [v] (and is [v] itself unless [v] is -0.0, which
    is stored as 0.0). *)
Theorem C2_setValue_clamps (self : NeonBar.t) (v : float) :
  let stored := NeonBar.value (NeonBar.setValue self v) in
  stored = clamp v 0 100 /\
  (0 <=? stored)%f64 = true /\ (stored <=? 100)%f64 = true /\
  ((0 <=? v)%f64 = true -> (v <=? 100)%f64 = true ->
   (stored =? v)%f64 = true /\ (v <> S754_zero true -> stored = v)).
Proof.
  cbv zeta. cbn [NeonBar.setValue NeonBar.value].
  split; [reflexivity|]. destruct (clamp_range v) as [H0 H1].
  split; [exact H0|]. split; [exact H1|]. apply clamp_readback.
Qed.

Lemma C2_setValue_clamps_witness :
  let stored := NeonBar.value (NeonBar.setValue (NeonBar.init "CPU" 65 "rainbow") 42.5%f64) in
  (stored =? 42.5)%f64 = true /\ stored = 42.5%f64.
Proof.
  cbv zeta.
  destruct (C2_setValue_clamps (NeonBar.init "CPU" 65 "rainbow") 42.5%f64) as (_ & _ & _ & H).
  destruct (H eq_refl eq_refl) as [E1 E2]. split; [exact E1|]. apply E2. discriminate.
Defined.

(** ** C9: the battery gauge *)

(** C9, counterexample: in [nova.py], a battery at 50 % is shown as 50, not
    as the pseudo-temperature [clamp(60 + 50 * 0.2, 0, 100) = 70]. *)
Lemma C9_nova_shows_percentage :
  let env := mkEnv (Some (mkPsutil (Ok 10%f64) (Ok []) true (Ok (Some 50%f64)) (Ok 10%f64)
                            (Ok 10%f64) (Ok []) (Ok (0, 0))))
                   0.0%f64 (fun a _ => a) in
  let shown := NeonBar.value
                 (NovaHUD.battery
                    (NovaHUD.sampleStats (fun x => x) NovaHUD.nova_py NovaHUD.widgets env)) in
  shown = 50.0%f64 /\ clamp (60 + 50 * 0.2)%f64 0 100 = 70.0%f64 /\
  (shown =? clamp (60 + 50 * 0.2)%f64 0 100)%f64 = false.
Proof. vm_compute. repeat split. Qed.

(** C9, amended: on every sampling cycle the BATTERY gauge of [nov.py]
    stores [clamp(60 + (battery_percent / 100.0) * 20, 0, 100)], and the
    BATTERY gauge of [nova.py] stores [clamp(battery_percent, 0, 100)]. *)
Theorem C9_battery_gauge (sin : float -> float) (h : NovaHUD.t) (env : Env) :
  let pct := NovaHUD.sample_battery sin env in
  NeonBar.value (NovaHUD.battery (NovaHUD.sampleStats sin NovaHUD.nov_py h env))
    = clamp (60 + (pct / 100.0) * 20)%f64 0 100 /\
  NeonBar.value (NovaHUD.battery (NovaHUD.sampleStats sin NovaHUD.nova_py h env))
    = clamp pct 0 100.
Proof.
  cbv zeta.
  rewrite (proj1 (proj2 (proj2 (sampleStats_fields sin NovaHUD.nov_py h env)))).
  rewrite (proj1 (proj2 (proj2 (sampleStats_fields sin NovaHUD.nova_py h env)))).
  cbn [NeonBar.setValue NeonBar.value NovaHUD.battery_reading].
  split; apply clamp_idempotent.
Qed.

(** ** C7: a failing provider *)

(** C7, counterexample: on cycle k-1 the provider reports a CPU load of 30
    and the CPU gauge shows 30; on cycle k [psutil.cpu_percent] raises and
    [random.uniform(8, 88)] returns 10; the gauge then shows 10, not the 30
    of the cycle before. *)
Lemma C7_failure_replaces_value :
  let before := NovaHUD.sampleStats (fun x => x) NovaHUD.nov_py NovaHUD.widgets working_env in
  let after := NovaHUD.sampleStats (fun x => x) NovaHUD.nov_py before failing_env in
  NeonBar.value (NovaHUD.cpu_util before) = 30%f64 /\
  NeonBar.value (NovaHUD.cpu_util after) = 10%f64 /\
  (NeonBar.value (NovaHUD.cpu_util after) =? NeonBar.value (NovaHUD.cpu_util before))%f64 = false.
Proof. vm_compute. repeat split. Qed.

(** C7, amended: when a call into the provider raises, the gauge it feeds is
    set to the synthetic fallback of the source, clamped to [0, 100]; a
    failing [net_io_counters] leaves the throughput labels and the stored
    counters as they were; the cycle completes and every gauge holds a value
    in [0, 100]. *)
Theorem C7_failure_falls_back (sin : float -> float) (rev : NovaHUD.revision)
    (h : NovaHUD.t) (env : Env) (ps : Psutil) (e : exn) :
  psutil env = Some ps ->
  let h' := NovaHUD.sampleStats sin rev h env in
  let in_range (b : NeonBar.t) :=
    (0 <=? NeonBar.value b)%f64 = true /\ (NeonBar.value b <=? 100)%f64 = true in
  (cpu_percent ps = Raise e ->
   NeonBar.value (NovaHUD.cpu_util h') = clamp (random_uniform env 8 88)%f64 0 100) /\
  (sensors_temperatures ps = Raise e ->
   NeonBar.value (NovaHUD.cpu_temp h') =
   clamp (((48 + 12 * sin (time_time env / 6.5) + random_uniform env (-2) 2) / 100.0) * 100)%f64
         0 100) /\
  (sensors_battery ps = Raise e ->
   NeonBar.value (NovaHUD.battery h') =
   NovaHUD.battery_reading rev
     (70 + 8 * sin (time_time env / 10.0) + random_uniform env (-4) 4)%f64) /\
  (virtual_memory ps = Raise e ->
   NeonBar.value (NovaHUD.mem h') = clamp (random_uniform env 22 86)%f64 0 100) /\
  (disk_usage ps = Raise e ->
   NeonBar.value (NovaHUD.disk h') = clamp (random_uniform env 12 88)%f64 0 100) /\
  (net_io_counters ps = Raise e ->
   NetworkStats.up (NovaHUD.net h') = NetworkStats.up (NovaHUD.net h) /\
   NetworkStats.down (NovaHUD.net h') = NetworkStats.down (NovaHUD.net h) /\
   NovaHUD.last_bytes h' = NovaHUD.last_bytes h) /\
  in_range (NovaHUD.cpu_util h') /\ in_range (NovaHUD.cpu_temp h') /\
  in_range (NovaHUD.battery h') /\ in_range (NovaHUD.mem h') /\ in_range (NovaHUD.disk h').
Proof.
  intros Hps. cbv zeta.
  destruct (sampleStats_fields sin rev h env) as (E1 & E2 & E3 & E4 & E5 & _ & _ & E8).
  cbv zeta in E1, E2, E3, E4, E5, E8. rewrite E1, E2, E3, E4, E5.
  cbn [NeonBar.setValue NeonBar.value].
  split; [|split; [|split; [|split; [|split; [|split]]]]].
  - intros Hr. unfold NovaHUD.sample_cpu. now rewrite Hps, Hr.
  - intros Hr. unfold NovaHUD.sample_temp. rewrite Hps, Hr. apply clamp_idempotent.
  - intros Hr. unfold NovaHUD.sample_battery. rewrite Hps, Hr.
    destruct (has_sensors_battery ps); destruct rev; apply clamp_idempotent.
  - intros Hr. unfold NovaHUD.sample_mem. now rewrite Hps, Hr.
  - intros Hr. unfold NovaHUD.sample_disk. now rewrite Hps, Hr.
  - intros Hr. unfold NovaHUD.sample_network in E8. rewrite Hps, Hr in E8.
    injection E8 as -> ->. repeat split.
  - repeat split; apply clamp_range.
Qed.

Lemma C7_failure_falls_back_witness :
  NeonBar.value
    (NovaHUD.cpu_util
       (NovaHUD.sampleStats (fun x => x) NovaHUD.nov_py NovaHUD.widgets failing_env))
  = clamp 10%f64 0 100.
Proof.
  exact (proj1 (C7_failure_falls_back (fun x => x) NovaHUD.nov_py NovaHUD.widgets
                  failing_env failing_cpu ValueError eq_refl) eq_refl).
Defined.

(** ** C8: the ring field is a function of phase and viewport *)

(** C8: a repaint of the ring field reads nothing but the phase and the
    viewport and writes nothing but its painter.  Two worlds whose phases
    agree, whatever their gauges, labels, clock, generator state and time,
    repaint on the same viewport to the same outcome, and a repaint hands
    its world back unchanged: no number of the generator is consumed and
    no attribute is written.  For a phase in [0, 1) the outcome is the
    list [field_prims] of 193 primitives (the background, two arcs and 36
    dots for each of the five rings, the two captions), in both worlds and
    in two successive repaints. *)
Theorem C8_rings_deterministic (cos sin : float -> float) (rev : NovaHUD.revision)
    (w1 w2 : Runtime.World) (W H : Z) :
  AnimatedRings.phase (NovaHUD.rings (Runtime.window w1))
  = AnimatedRings.phase (NovaHUD.rings (Runtime.window w2)) ->
  drawing (RingField.render cos sin rev W H w1) = drawing (RingField.render cos sin rev W H w2) /\
  (forall prims w', RingField.render cos sin rev W H w1 = Ok (prims, w') -> w' = w1) /\
  (unit_interval (AnimatedRings.phase (NovaHUD.rings (Runtime.window w1))) ->
   let prims := field_prims cos sin (NovaHUD.caption rev)
                  (AnimatedRings.phase (NovaHUD.rings (Runtime.window w1))) W H in
   RingField.render cos sin rev W H w1 = Ok (prims, w1) /\
   RingField.render cos sin rev W H w2 = Ok (prims, w2) /\
   RingField.render_twice cos sin rev W H w1 = Ok (prims, prims, w1) /\
   List.length prims = 193%nat).
Proof.
  intros E.
  assert (P : NovaHUD.paint_rings cos sin rev (Runtime.window w1) W H
              = NovaHUD.paint_rings cos sin rev (Runtime.window w2) W H).
  { unfold NovaHUD.paint_rings.
    destruct (NovaHUD.rings (Runtime.window w1)) as [p1],
             (NovaHUD.rings (Runtime.window w2)) as [p2].
    cbn [AnimatedRings.phase] in E. now rewrite E. }
  split; [|split].
  - rewrite !render_paints, P.
    now destruct (NovaHUD.paint_rings cos sin rev (Runtime.window w2) W H).
  - intros prims w'. rewrite render_paints.
    destruct (NovaHUD.paint_rings cos sin rev (Runtime.window w1) W H); [|discriminate].
    intros G. now inversion G.
  - intros U. cbv zeta.
    assert (R1 : RingField.render cos sin rev W H w1
                 = Ok (field_prims cos sin (NovaHUD.caption rev)
                         (AnimatedRings.phase (NovaHUD.rings (Runtime.window w1))) W H, w1)).
    { rewrite render_paints. unfold NovaHUD.paint_rings.
      now rewrite (paintEvent_run cos sin _ _ W H U). }
    split; [exact R1|]. split; [|split].
    + rewrite render_paints, <- P. unfold NovaHUD.paint_rings.
      now rewrite (paintEvent_run cos sin _ _ W H U).
    + unfold RingField.render_twice. now rewrite R1, R1.
    + unfold field_prims. cbn [List.length]. rewrite length_app, length_concat, map_map.
      unfold AnimatedRings.rings, ring_of, ring_prims. cbn [map list_sum List.length].
      rewrite ?length_map. reflexivity.
Qed.

Lemma C8_rings_deterministic_witness :
  let seen := Runtime.mkWorld NovaHUD.widgets (fun _ => 0.5%f64) 0 0.0%f64 in
  let other := Runtime.mkWorld
                 (NovaHUD.sampleStats (fun x => x) NovaHUD.nov_py NovaHUD.widgets quiet_env)
                 (fun n => F64.of_Z (Z.of_nat n)) 7 1700000000%f64 in
  let prims := field_prims (fun x => x) (fun x => x) "NOVA" 0.0%f64 520 520 in
  RingField.render (fun x => x) (fun x => x) NovaHUD.nov_py 520 520 seen = Ok (prims, seen) /\
  RingField.render (fun x => x) (fun x => x) NovaHUD.nov_py 520 520 other = Ok (prims, other) /\
  RingField.render_twice (fun x => x) (fun x => x) NovaHUD.nov_py 520 520 other
  = Ok (prims, prims, other).
Proof.
  cbv zeta.
  pose proof (C8_rings_deterministic (fun x => x) (fun x => x) NovaHUD.nov_py
                (Runtime.mkWorld NovaHUD.widgets (fun _ => 0.5%f64) 0 0.0%f64)
                (Runtime.mkWorld
                   (NovaHUD.sampleStats (fun x => x) NovaHUD.nov_py NovaHUD.widgets quiet_env)
                   (fun n => F64.of_Z (Z.of_nat n)) 7 1700000000%f64)
                520 520 eq_refl) as [_ [_ There]].
  pose proof (C8_rings_deterministic (fun x => x) (fun x => x) NovaHUD.nov_py
                (Runtime.mkWorld
                   (NovaHUD.sampleStats (fun x => x) NovaHUD.nov_py NovaHUD.widgets quiet_env)
                   (fun n => F64.of_Z (Z.of_nat n)) 7 1700000000%f64)
                (Runtime.mkWorld NovaHUD.widgets (fun _ => 0.5%f64) 0 0.0%f64)
                520 520 eq_refl) as [_ [_ Back]].
  destruct (There (conj eq_refl (conj eq_refl eq_refl))) as (R1 & R2 & _ & _).
  destruct (Back (conj eq_refl (conj eq_refl eq_refl))) as (_ & _ & T & _).
  split; [exact R1|]. split; [exact R2|exact T].
Defined.

(** ** C3: the two arcs of a ring *)

(** C3: for every ring of the five-ring list and every phase in [0, 1),
    [_draw_ring] draws exactly two arcs, on the ring's circle and with the
    ring's pen: the first starts at [local_phase * 360] degrees and spans
    200 degrees, the second starts at [(local_phase + 0.48) * 360] degrees
    and spans 120 degrees, where
    [local_phase = (phase + offset) % 1.0]; everything else it draws is an
    ellipse.  [drawArc] takes its angles as [int(-angle * 16)]: sixteenths
    of a degree, negative for clockwise; -3200 and -1920 are the spans. *)
Theorem C3_two_arcs_per_ring (cos sin : float -> float) (self : AnimatedRings.t)
    (center : QPointF) (radius r w off : float) (col : QColor) (p : Painter) :
  In (r, w, off, col) (AnimatedRings.rings radius) ->
  (0 <=? AnimatedRings.phase self)%f64 = true ->
  (AnimatedRings.phase self <? 1.0)%f64 = true ->
  F64.valid (AnimatedRings.phase self) = true ->
  let local_phase := F64.float_mod (AnimatedRings.phase self + off)%f64 1.0%f64 in
  let circle := RealRect (mkQRectF (px center - r)%f64 (py center - r)%f64
                                   (r * 2)%f64 (r * 2)%f64) in
  let pen := SolidPen col w RoundCap in
  exists (a0 a1 : Z) (rest : list Prim) (p' : Painter),
    Py.int (- (local_phase * 360.0) * 16)%f64 = Ok a0 /\
    Py.int (- ((local_phase + 0.48) * 360.0) * 16)%f64 = Ok a1 /\
    Py.int (- 200.0 * 16)%f64 = Ok (-3200) /\
    Py.int (- 120.0 * 16)%f64 = Ok (-1920) /\
    AnimatedRings._draw_ring cos sin self center r w off col p = Ok (tt, p') /\
    drawn p' = drawn p ++ DrawArc circle a0 (-3200) pen :: DrawArc circle a1 (-1920) pen :: rest /\
    Forall (fun d => exists c rx ry pn b, d = DrawEllipse c rx ry pn b) rest.
Proof.
  intros Hin H0 H1 Hv. cbv zeta.
  assert (Hp : unit_interval (AnimatedRings.phase self)) by (repeat split; assumption).
  pose proof (proj1 (Forall_forall _ _) (ring_offsets_ok radius) _ Hin) as Ho. cbn [fst snd] in Ho.
  pose proof (local_phase_ok _ _ Hp Ho) as Hb.
  fold (local_phase (AnimatedRings.phase self) off).
  set (base := local_phase (AnimatedRings.phase self) off) in *.
  destruct (arc_start_ok base 0 Hb (or_introl eq_refl)) as [a0 E0].
  destruct (arc_start_ok base 1 Hb (or_intror eq_refl)) as [a1 E1].
  exists a0, a1, (map (dot_prim cos sin center r w base) (Py.range 36)).
  eexists. rewrite <- (arc_start_zero base Hb), <- (arc_start_one base). subst base.
  split; [exact E0|]. split; [exact E1|]. split; [reflexivity|]. split; [reflexivity|].
  split; [apply (draw_ring_run cos sin); exact Hb|].
  cbn [drawn]. unfold ring_prims, arc_prim. rewrite E0, E1. cbn [unwrap Z.eqb app].
  split; [reflexivity|].
  apply Forall_forall. intros d Hd. apply in_map_iff in Hd. destruct Hd as (k & <- & _).
  unfold dot_prim. repeat eexists.
Qed.

Lemma C3_two_arcs_per_ring_witness :
  exists (a0 a1 : Z) (rest : list Prim) (p' : Painter),
    AnimatedRings._draw_ring (fun x => x) (fun x => x) (AnimatedRings.mk 0.0075%f64)
      (mkPoint 259 259)%f64 (218.4 * 0.86)%f64 6.0%f64 0.19%f64 (rgba 255 160 90 210) QPainter
    = Ok (tt, p') /\
    drawn p' =
      DrawArc (RealRect (mkQRectF (259 - 218.4 * 0.86) (259 - 218.4 * 0.86)
                                  (218.4 * 0.86 * 2) (218.4 * 0.86 * 2))%f64)
              a0 (-3200) (SolidPen (rgba 255 160 90 210) 6.0%f64 RoundCap)
      :: DrawArc (RealRect (mkQRectF (259 - 218.4 * 0.86) (259 - 218.4 * 0.86)
                                     (218.4 * 0.86 * 2) (218.4 * 0.86 * 2))%f64)
                 a1 (-1920) (SolidPen (rgba 255 160 90 210) 6.0%f64 RoundCap)
      :: rest.
Proof.
  destruct (C3_two_arcs_per_ring (fun x => x) (fun x => x) (AnimatedRings.mk 0.0075%f64)
              (mkPoint 259 259)%f64 218.4%f64 (218.4 * 0.86)%f64 6.0%f64 0.19%f64
              (rgba 255 160 90 210) QPainter
              (or_intror (or_introl eq_refl)) eq_refl eq_refl eq_refl)
    as (a0 & a1 & rest & p' & _ & _ & _ & _ & E & D & _).
  exists a0, a1, rest, p'. split; [exact E|exact D].
Defined.

(** ** C10: the colour of the orbit dots *)

(** C10: for every ring of the five-ring list and every phase in [0, 1),
    [_draw_ring] draws, after its two arcs, 36 ellipses, all with no pen and
    a solid brush of colour (80, 220, 255); only the alpha of the brush
    varies, and the colour of the ring is not used. *)
Theorem C10_orbit_dots_are_cyan (cos sin : float -> float) (self : AnimatedRings.t)
    (center : QPointF) (radius r w off : float) (col : QColor) (p : Painter) :
  In (r, w, off, col) (AnimatedRings.rings radius) ->
  (0 <=? AnimatedRings.phase self)%f64 = true ->
  (AnimatedRings.phase self <? 1.0)%f64 = true ->
  F64.valid (AnimatedRings.phase self) = true ->
  exists (arc0 arc1 : Prim) (dots : list Prim) (p' : Painter),
    AnimatedRings._draw_ring cos sin self center r w off col p = Ok (tt, p') /\
    drawn p' = drawn p ++ arc0 :: arc1 :: dots /\
    List.length dots = 36%nat /\
    Forall (fun d => exists c a,
              d = DrawEllipse c 2.2%f64 2.2%f64 NoPen (SolidBrush (mkColor 80 220 255 a)))
           dots.
Proof.
  intros Hin H0 H1 Hv.
  assert (Hp : unit_interval (AnimatedRings.phase self)) by (repeat split; assumption).
  pose proof (proj1 (Forall_forall _ _) (ring_offsets_ok radius) _ Hin) as Ho. cbn [fst snd] in Ho.
  pose proof (local_phase_ok _ _ Hp Ho) as Hb.
  set (base := local_phase (AnimatedRings.phase self) off) in *.
  exists (arc_prim center r w col base 0), (arc_prim center r w col base 1),
         (map (dot_prim cos sin center r w base) (Py.range 36)).
  subst base. eexists. split; [apply (draw_ring_run cos sin); exact Hb|].
  cbn [drawn]. split; [reflexivity|]. split; [reflexivity|].
  apply Forall_forall. intros d Hd. apply in_map_iff in Hd. destruct Hd as (k & <- & _).
  unfold dot_prim, dot_brush, rgba. eexists. eexists. reflexivity.
Qed.

Lemma C10_orbit_dots_are_cyan_witness :
  exists (arc0 arc1 : Prim) (dots : list Prim) (p' : Painter),
    AnimatedRings._draw_ring (fun x => x) (fun x => x) (AnimatedRings.mk 0.0075%f64)
      (mkPoint 259 259)%f64 (218.4 * 0.86)%f64 6.0%f64 0.19%f64 (rgba 255 160 90 210) QPainter
    = Ok (tt, p') /\
    drawn p' = arc0 :: arc1 :: dots /\
    Forall (fun d => exists c a,
              d = DrawEllipse c 2.2%f64 2.2%f64 NoPen (SolidBrush (mkColor 80 220 255 a)))
           dots.
Proof.
  destruct (C10_orbit_dots_are_cyan (fun x => x) (fun x => x) (AnimatedRings.mk 0.0075%f64)
              (mkPoint 259 259)%f64 218.4%f64 (218.4 * 0.86)%f64 6.0%f64 0.19%f64
              (rgba 255 160 90 210) QPainter
              (or_intror (or_introl eq_refl)) eq_refl eq_refl eq_refl)
    as (arc0 & arc1 & dots & p' & E & D & _ & F).
  exists arc0, arc1, dots, p'. split; [exact E|]. split; [exact D|exact F].
Defined.

(** ** C5: the fill of a gauge bar *)

Lemma eqb_zero (x : float) : (x =? 0)%f64 = true -> F64.is_zero x = true.
Proof.
  unfold F64.eqb, SFeqb. destruct x as [s|[]| |[] m e]; cbn [SFcompare]; try discriminate.
  reflexivity.
Qed.

Lemma eqb_hundred (x : float) : (x =? 100)%f64 = true -> x = 100%f64.
Proof.
  unfold F64.eqb, SFeqb. destruct (SFcompare x 100%f64) as [[]|] eqn:C; try discriminate.
  intros _. destruct x as [s|[]| |s m e]; try (cbn [SFcompare] in C; discriminate).
  now apply compare_Eq_finite in C.
Qed.

(** C5: for a value in [0, 100] and any style, [paintEvent] draws, as its
    fourth primitive and over the track, a rounded rectangle of width
    [track_width * (value / 100.0)] filled with a linear gradient that runs
    from the top-left to the top-right corner of that rectangle, with the
    stops of the style; the width is zero at value 0 and the track width at
    value 100 (the widget width is a C [int]). *)
Theorem C5_fill_width_and_gradient (self : NeonBar.t) (W H : Z) :
  (0 <=? NeonBar.value self)%f64 = true ->
  (NeonBar.value self <=? 100)%f64 = true ->
  - 2 ^ 31 <= W < 2 ^ 31 ->
  let x := F64.of_Z 8 in
  let y := F64.of_Z 28 in
  let height := F64.of_Z 14 in
  let track_width := F64.of_Z (W - 16) in
  let w := (track_width * (NeonBar.value self / 100.0))%f64 in
  let style := NeonBar.style self in
  let stops :=
    if String.eqb style "rainbow" then
      [(0.0%f64, rgb 30 220 140); (0.5%f64, rgb 255 200 60); (1.0%f64, rgb 255 90 80)]
    else if String.eqb style "pink" then
      [(0.0%f64, rgb 255 100 220); (1.0%f64, rgb 200 50 255)]
    else if String.eqb style "green" then
      [(0.0%f64, rgb 40 220 120); (1.0%f64, rgb 20 160 100)]
    else
      [(0.0%f64, rgb 80 200 255); (1.0%f64, rgb 150 120 255)] in
  (exists card label glow readout,
     Qt.run (NeonBar.paintEvent self W H) =
     Ok [ card; label;
          DrawRoundedRect (RealRect (mkQRectF x y track_width height)) 8 8 NoPen
            (SolidBrush (rgba 28 36 48 220));
          DrawRoundedRect (RealRect (mkQRectF x y w height)) 8 8 NoPen
            (QLinearGradient (mkPoint x y) (mkPoint (x + w)%f64 y) stops);
          glow; readout ]) /\
  ((NeonBar.value self =? 0)%f64 = true -> F64.is_zero w = true) /\
  ((NeonBar.value self =? 100)%f64 = true -> w = track_width).
Proof.
  intros H0 H1 HW. cbv zeta. split; [|split].
  - destruct (int_finite (NeonBar.value self)) as [n Hn].
    { apply (leb_finite 0%f64 _ 100%f64); trivial. }
    do 4 eexists. rewrite (bar_paint_run self W H n Hn). unfold bar_prims.
    reflexivity.
  - intros Hz. apply eqb_zero in Hz.
    assert (B : bounded_size 33 (F64.of_Z (W - 16))).
    { apply of_Z_bounded; try lia.
      assert (Zdigits2 (W - 16) <= 32); [|lia].
      transitivity (Zdigits2 (2 ^ 32 - 1)); [apply Zdigits2_abs_le; lia|].
      apply Zdigits2_le; lia. }
    destruct (NeonBar.value self) as [s| | |]; try discriminate.
    destruct (F64.of_Z (W - 16)) as [?| | |? ? ?]; cbn [bounded_size] in B; try tauto; reflexivity.
  - intros Hh. apply eqb_hundred in Hh. rewrite Hh.
    change (100 / 100.0)%f64 with 1.0%f64. apply mul_one_r. apply of_Z_valid.
Qed.

Lemma C5_fill_width_and_gradient_witness :
  exists card label glow readout,
    Qt.run (NeonBar.paintEvent (NeonBar.init "MEMORY USAGE" 50 "pink") 300 56) =
    Ok [ card; label;
         DrawRoundedRect (RealRect (mkQRectF (F64.of_Z 8) (F64.of_Z 28) (F64.of_Z 284)
                                             (F64.of_Z 14)))
           8 8 NoPen (SolidBrush (rgba 28 36 48 220));
         DrawRoundedRect (RealRect (mkQRectF (F64.of_Z 8) (F64.of_Z 28)
                                             (F64.of_Z 284 * (50 / 100.0))%f64 (F64.of_Z 14)))
           8 8 NoPen
           (QLinearGradient (mkPoint (F64.of_Z 8) (F64.of_Z 28))
              (mkPoint (F64.of_Z 8 + F64.of_Z 284 * (50 / 100.0))%f64 (F64.of_Z 28))
              [(0.0%f64, rgb 255 100 220); (1.0%f64, rgb 200 50 255)]);
         glow; readout ].
Proof.
  exact (proj1 (C5_fill_width_and_gradient (NeonBar.init "MEMORY USAGE" 50 "pink") 300 56
                  eq_refl eq_refl ltac:(lia))).
Defined.

(** ** C6: network throughput *)

(** C6, counterexample: the counters read (0, 0) at time 100 and
    (2097152, 0) at time 102.  The specification's formula gives
    2097152 / 2 / 1048576 = 1.0 MB/s for the upload; the window shows
    2.0 MB/s, because the elapsed time is not measured. *)
Lemma C6_elapsed_time_is_ignored :
  let first := mkEnv (Some (counting 0 0)) 100%f64 (fun a _ => a) in
  let second := mkEnv (Some (counting 2097152 0)) 102%f64 (fun a _ => a) in
  let h := NovaHUD.sampleStats (fun x => x) NovaHUD.nov_py
             (NovaHUD.sampleStats (fun x => x) NovaHUD.nov_py NovaHUD.widgets first) second in
  let elapsed := (time_time second - time_time first)%f64 in
  elapsed = 2%f64 /\
  ("Upload: " ++ Py.format_1f (spec_throughput 2097152 0 elapsed) ++ " MB/s")%string
    = "Upload: 1.0 MB/s"%string /\
  NetworkStats.up (NovaHUD.net h) = "Upload: 2.0 MB/s"%string.
Proof. vm_compute. repeat split. Qed.

Lemma throughput_ok (now last : Z) : Z.abs (now - last) < 2 ^ 64 ->
  NovaHUD.throughput now last = Ok (F64.of_Z (now - last) / 1024.0 / 1024.0)%f64.
Proof.
  intros Hr. unfold NovaHUD.throughput, Py.float_of_int.
  assert (B : bounded_size 65 (F64.of_Z (now - last))).
  { apply of_Z_bounded; try lia.
    assert (Zdigits2 (now - last) <= 64); [|lia].
    transitivity (Zdigits2 (2 ^ 64 - 1)); [apply Zdigits2_abs_le; lia|].
    apply Zdigits2_le; lia. }
  now rewrite (bounded_size_finite _ _ B).
Qed.

(** C6, amended: on a sampling cycle where the provider is present and its
    byte counters (below 2^64) are read, the window shows, per direction,
    [(bytes_now - bytes_previous) / 1024.0 / 1024.0] with one decimal, the
    difference to the previous cycle's counters with no division by the
    elapsed time; on a cycle with no previous counters the two labels stay
    as they are; in both cases the counters are stored for the next
    cycle. *)
Theorem C6_throughput_per_cycle (sin : float -> float) (rev : NovaHUD.revision)
    (h : NovaHUD.t) (env : Env) (ps : Psutil) (sent recv : Z) :
  psutil env = Some ps ->
  net_io_counters ps = Ok (sent, recv) ->
  0 <= sent < 2 ^ 64 -> 0 <= recv < 2 ^ 64 ->
  let h' := NovaHUD.sampleStats sin rev h env in
  match NovaHUD.last_bytes h with
  | None =>
      NetworkStats.up (NovaHUD.net h') = NetworkStats.up (NovaHUD.net h) /\
      NetworkStats.down (NovaHUD.net h') = NetworkStats.down (NovaHUD.net h) /\
      NovaHUD.last_bytes h' = Some (sent, recv)
  | Some (sent0, recv0) =>
      0 <= sent0 < 2 ^ 64 -> 0 <= recv0 < 2 ^ 64 ->
      NetworkStats.up (NovaHUD.net h') =
        ("Upload: " ++ Py.format_1f (F64.of_Z (sent - sent0) / 1024.0 / 1024.0)%f64
                    ++ " MB/s")%string /\
      NetworkStats.down (NovaHUD.net h') =
        ("Download: " ++ Py.format_1f (F64.of_Z (recv - recv0) / 1024.0 / 1024.0)%f64
                      ++ " MB/s")%string /\
      NovaHUD.last_bytes h' = Some (sent, recv)
  end.
Proof.
  intros Hps Hio Hs Hr. cbv zeta.
  destruct (sampleStats_fields sin rev h env) as (_ & _ & _ & _ & _ & _ & _ & E).
  cbv zeta in E. unfold NovaHUD.sample_network in E. rewrite Hps, Hio in E.
  destruct (NovaHUD.last_bytes h) as [[sent0 recv0]|].
  - intros Hs0 Hr0. cbn [fst snd] in E.
    rewrite (throughput_ok sent sent0), (throughput_ok recv recv0) in E by lia.
    injection E as -> ->. repeat split.
  - injection E as -> ->. repeat split.
Qed.

(** The example of the specification: counters (1048576, 10485760) one cycle
    after (0, 0) show as 1.0 MB/s up and 10.0 MB/s down; on the first cycle
    the labels keep their initial text. *)
Lemma C6_throughput_per_cycle_witness :
  let first := mkEnv (Some (counting 0 0)) 100%f64 (fun a _ => a) in
  let second := mkEnv (Some (counting 1048576 10485760)) 101%f64 (fun a _ => a) in
  let h1 := NovaHUD.sampleStats (fun x => x) NovaHUD.nov_py NovaHUD.widgets first in
  let h2 := NovaHUD.sampleStats (fun x => x) NovaHUD.nov_py h1 second in
  (NetworkStats.up (NovaHUD.net h1) = "Upload: 0.0 MB/s"%string /\
   NetworkStats.down (NovaHUD.net h1) = "Download: 0.0 MB/s"%string /\
   NovaHUD.last_bytes h1 = Some (0, 0)) /\
  (NetworkStats.up (NovaHUD.net h2) = "Upload: 1.0 MB/s"%string /\
   NetworkStats.down (NovaHUD.net h2) = "Download: 10.0 MB/s"%string /\
   NovaHUD.last_bytes h2 = Some (1048576, 10485760)).
Proof.
  cbv zeta. split.
  - exact (C6_throughput_per_cycle (fun x => x) NovaHUD.nov_py NovaHUD.widgets
             (mkEnv (Some (counting 0 0)) 100%f64 (fun a _ => a)) (counting 0 0) 0 0
             eq_refl eq_refl ltac:(lia) ltac:(lia)).
  - exact (C6_throughput_per_cycle (fun x => x) NovaHUD.nov_py
             (NovaHUD.sampleStats (fun x => x) NovaHUD.nov_py NovaHUD.widgets
                (mkEnv (Some (counting 0 0)) 100%f64 (fun a _ => a)))
             (mkEnv (Some (counting 1048576 10485760)) 101%f64 (fun a _ => a))
             (counting 1048576 10485760) 1048576 10485760
             eq_refl eq_refl ltac:(lia) ltac:(lia) ltac:(lia) ltac:(lia)).
Defined.

(** ** C4: the pulse of the orbit dots *)

(** C4, counterexample: at phase 0.0 the second dot (k = 1) of the outer
    ring sits at [t = 1/36]; the specification's opacity there is
    40.71..., the dot is drawn with alpha 40: the smoothstep term is
    truncated to an integer before 40 is added. *)
Lemma C4_opacity_is_truncated :
  let t := F64.float_mod (F64.of_Z 1 / F64.of_Z 36
                          + F64.float_mod (0.0 + 0.00) 1.0 * 0.08)%f64 1.0%f64 in
  spec_opacity t = Ok (S754_finite false 5729888414795796 (-47)) /\
  (S754_finite false 5729888414795796 (-47) =? 40)%f64 = false /\
  exists c p',
    AnimatedRings._draw_ring (fun x => x) (fun x => x) AnimatedRings.init
      (mkPoint 259 259)%f64 (218.4 * 1.02)%f64 9.0%f64 0.00%f64 (rgba 80 220 255 220) QPainter
    = Ok (tt, p') /\
    nth_error (drawn p') 3 =
    Some (DrawEllipse c 2.2%f64 2.2%f64 NoPen (SolidBrush (rgba 80 220 255 40))).
Proof.
  cbv zeta. split; [vm_compute; reflexivity|]. split; [vm_compute; reflexivity|].
  eexists. eexists. split; vm_compute; reflexivity.
Qed.

(** C4, amended: for every ring of the five-ring list, every phase in
    [0, 1) and every k below 36, the k-th orbit dot is an ellipse of radii
    2.2 centred at fraction [t = (k/36 + local_phase * 0.08) % 1.0] of the
    circle of radius [ring.radius - 1.6 * stroke_width], drawn with alpha
    [int(80 * smoothstep(0, 1, 1 - |0.5 - t| * 2)) + 40]; that alpha is an
    integer between 40 and 120, it is 120 at [t = 0.5], 40 at [t = 0] and 40
    at the largest [t] below 1. *)
Theorem C4_orbit_dot_pulse (cos sin : float -> float) (self : AnimatedRings.t)
    (center : QPointF) (radius r w off : float) (col : QColor) (p : Painter) (k : nat) :
  In (r, w, off, col) (AnimatedRings.rings radius) ->
  (0 <=? AnimatedRings.phase self)%f64 = true ->
  (AnimatedRings.phase self <? 1.0)%f64 = true ->
  F64.valid (AnimatedRings.phase self) = true ->
  (k < 36)%nat ->
  let local_phase := F64.float_mod (AnimatedRings.phase self + off)%f64 1.0%f64 in
  let t := F64.float_mod (F64.of_Z (Z.of_nat k) / F64.of_Z 36 + local_phase * 0.08)%f64
                         1.0%f64 in
  let ang := (t * 2 * math_pi)%f64 in
  let d := (r - w * 1.6)%f64 in
  (exists (s : float) (n : Z) (p' : Painter),
     smoothstep 0.0%f64 1.0%f64 (1.0 - F64.abs (0.5 - t) * 2)%f64 = Ok s /\
     Py.int (80 * s)%f64 = Ok n /\ 40 <= n + 40 <= 120 /\
     AnimatedRings._draw_ring cos sin self center r w off col p = Ok (tt, p') /\
     nth_error (drawn p') (List.length (drawn p) + 2 + k) =
     Some (DrawEllipse (mkPoint (px center + cos ang * d)%f64 (py center + sin ang * d)%f64)
             2.2%f64 2.2%f64 NoPen (SolidBrush (rgba 80 220 255 (n + 40))))) /\
  (smoothstep 0.0%f64 1.0%f64 (1.0 - F64.abs (0.5 - 0.5) * 2)%f64 = Ok 1.0%f64 /\
   Py.int (80 * 1.0)%f64 = Ok 80) /\
  (smoothstep 0.0%f64 1.0%f64 (1.0 - F64.abs (0.5 - 0.0) * 2)%f64 = Ok 0.0%f64 /\
   Py.int (80 * 0.0)%f64 = Ok 0) /\
  dot_alpha (S754_finite false 9007199254740991 (-53)) = Ok 40.
Proof.
  intros Hin H0 H1 Hv Hk. cbv zeta.
  split; [|split; [|split]; [split; reflexivity|split; reflexivity|vm_compute; reflexivity]].
  assert (Hp : unit_interval (AnimatedRings.phase self)) by (repeat split; assumption).
  pose proof (proj1 (Forall_forall _ _) (ring_offsets_ok radius) _ Hin) as Ho. cbn [fst snd] in Ho.
  pose proof (local_phase_ok _ _ Hp Ho) as Hb.
  fold (local_phase (AnimatedRings.phase self) off).
  fold (dot_fraction (local_phase (AnimatedRings.phase self) off) (Z.of_nat k)).
  destruct (dot_alpha_range (dot_fraction (local_phase (AnimatedRings.phase self) off) (Z.of_nat k)))
    as (a & Ha & Hr).
  pose proof Ha as Ha'. unfold dot_alpha, pulse in Ha'.
  destruct (smoothstep _ _ _) as [s|] eqn:Es; [|discriminate].
  destruct (Py.int (80 * s)%f64) as [n|] eqn:En; [|discriminate].
  injection Ha' as <-.
  exists s, n. eexists. split; [reflexivity|]. split; [exact En|]. split; [exact Hr|].
  split; [apply (draw_ring_run cos sin); exact Hb|].
  cbn [drawn]. rewrite nth_error_app2 by lia.
  replace (List.length (drawn p) + 2 + k - List.length (drawn p))%nat with (2 + k)%nat by lia.
  unfold ring_prims.
  match goal with
  | |- nth_error ([?a; ?b] ++ ?l) _ = _ => change ([a; b] ++ l) with (a :: b :: l)
  end.
  cbn [nth_error Nat.add].
  rewrite nth_error_map. unfold Py.range. rewrite nth_error_map.
  rewrite (nth_error_nth' _ 0%nat) by (rewrite length_seq; exact Hk).
  rewrite seq_nth by exact Hk. cbn [option_map Nat.add].
  unfold dot_prim, dot_brush, dot_centre. rewrite Ha. reflexivity.
Qed.

Lemma C4_orbit_dot_pulse_witness :
  exists (s : float) (n : Z) (p' : Painter),
    Py.int (80 * s)%f64 = Ok n /\ 40 <= n + 40 <= 120 /\
    AnimatedRings._draw_ring (fun x => x) (fun x => x) (AnimatedRings.mk 0.0075%f64)
      (mkPoint 259 259)%f64 (218.4 * 0.86)%f64 6.0%f64 0.19%f64 (rgba 255 160 90 210) QPainter
    = Ok (tt, p') /\
    exists c,
    nth_error (drawn p') 19 =
    Some (DrawEllipse c 2.2%f64 2.2%f64 NoPen (SolidBrush (rgba 80 220 255 (n + 40)))).
Proof.
  destruct (C4_orbit_dot_pulse (fun x => x) (fun x => x) (AnimatedRings.mk 0.0075%f64)
              (mkPoint 259 259)%f64 218.4%f64 (218.4 * 0.86)%f64 6.0%f64 0.19%f64
              (rgba 255 160 90 210) QPainter 17
              (or_intror (or_introl eq_refl)) eq_refl eq_refl eq_refl ltac:(lia))
    as ((s & n & p' & _ & En & Hr & E & D) & _).
  exists s, n, p'. split; [exact En|]. split; [exact Hr|]. split; [exact E|]. eexists. exact D.
Defined.

(* ===================================================================== *)
(** * Further properties of the helpers *)
(* ===================================================================== *)

(** ** The order of floats *)

Lemma ltb_irrefl (x : float) : (x <? x)%f64 = false.
Proof.
  destruct x as [s|s| |s m e]; try reflexivity.
  - destruct s; reflexivity.
  - unfold F64.ltb, SFltb. rewrite compare_refl by discriminate. reflexivity.
Qed.

Lemma leb_refl (x : float) : x <> S754_nan -> (x <=? x)%f64 = true.
Proof. intros H. unfold F64.leb, SFleb. now rewrite compare_refl. Qed.

Lemma leb_not_nan (x y : float) : (x <=? y)%f64 = true -> x <> S754_nan /\ y <> S754_nan.
Proof.
  unfold F64.leb, SFleb. destruct x as [?|?| |? ? ?], y as [?|?| |? ? ?];
    cbn [SFcompare]; try discriminate; intros _; split; discriminate.
Qed.

(** Mantissas and exponents of numbers of one sign compare
    lexicographically. *)
Lemma lex_compare_Lt (e1 e2 : Z) (m1 m2 : positive) :
  match Z.compare e1 e2 with
  | Lt => Lt
  | Gt => Gt
  | Eq => Pos.compare_cont Eq m1 m2
  end = Lt <-> e1 < e2 \/ (e1 = e2 /\ (m1 < m2)%positive).
Proof.
  change (Pos.compare_cont Eq m1 m2) with (Pos.compare m1 m2).
  destruct (Z.compare_spec e1 e2), (Pos.compare_spec m1 m2); split; intros G;
    try discriminate; try reflexivity; try lia.
Qed.

Lemma lex_compare_Gt (e1 e2 : Z) (m1 m2 : positive) :
  match Z.compare e1 e2 with
  | Lt => Gt
  | Gt => Lt
  | Eq => CompOpp (Pos.compare_cont Eq m1 m2)
  end = Lt <-> e2 < e1 \/ (e1 = e2 /\ (m2 < m1)%positive).
Proof.
  change (Pos.compare_cont Eq m1 m2) with (Pos.compare m1 m2).
  destruct (Z.compare_spec e1 e2), (Pos.compare_spec m1 m2); split; intros G;
    try discriminate; try reflexivity; try lia.
Qed.

Lemma ltb_finite (s1 s2 : bool) (m1 m2 : positive) (e1 e2 : Z) :
  (S754_finite s1 m1 e1 <? S754_finite s2 m2 e2)%f64 = true <->
  match s1, s2 with
  | true, false => True
  | false, true => False
  | false, false => e1 < e2 \/ (e1 = e2 /\ (m1 < m2)%positive)
  | true, true => e2 < e1 \/ (e1 = e2 /\ (m2 < m1)%positive)
  end.
Proof.
  unfold F64.ltb, SFltb. cbn [SFcompare].
  destruct s1, s2.
  - rewrite <- lex_compare_Gt.
    destruct (match (e1 ?= e2) with Lt => Gt | Eq => CompOpp (Pos.compare_cont Eq m1 m2)
              | Gt => Lt end); split; congruence.
  - tauto.
  - split; [discriminate|tauto].
  - rewrite <- lex_compare_Lt.
    destruct (match (e1 ?= e2) with Lt => Lt | Eq => Pos.compare_cont Eq m1 m2
              | Gt => Gt end); split; congruence.
Qed.

Lemma ltb_trans (x y z : float) :
  (x <? y)%f64 = true -> (y <? z)%f64 = true -> (x <? z)%f64 = true.
Proof.
  destruct x as [sx|sx| |sx mx ex], y as [sy|sy| |sy my ey], z as [sz|sz| |sz mz ez];
    try (intros; discriminate);
    try (destruct sx; intros; discriminate);
    try (destruct sy; intros; discriminate);
    try (destruct sx, sy; intros; discriminate);
    try (destruct sy, sz; intros; discriminate);
    try (destruct sx, sz; intros; (discriminate || reflexivity));
    try (destruct sx, sy, sz; intros; (discriminate || reflexivity)).
  rewrite !ltb_finite. destruct sx, sy, sz; try tauto; lia.
Qed.

Lemma ltb_asym (x y : float) : (x <? y)%f64 = true -> (y <? x)%f64 = false.
Proof.
  intros H. destruct (y <? x)%f64 eqn:E; [|reflexivity].
  pose proof (ltb_trans _ _ _ H E) as C. now rewrite ltb_irrefl in C.
Qed.

(** ** [clamp] with arbitrary bounds *)

(** X1: whenever [lo <= hi], [clamp(v, lo, hi)] lies in [lo, hi] for every
    float [v], infinities and NaN included; for a NaN the result is [hi]
    when [lo < hi]: a NaN is never passed on. *)
Theorem clamp_within_bounds (v lo hi : float) :
  (lo <=? hi)%f64 = true ->
  (lo <=? clamp v lo hi)%f64 = true /\ (clamp v lo hi <=? hi)%f64 = true /\
  clamp v lo hi <> S754_nan /\
  ((lo <? hi)%f64 = true -> clamp S754_nan lo hi = hi).
Proof.
  intros H. destruct (leb_not_nan _ _ H) as [Nlo Nhi].
  assert (R : (lo <=? clamp v lo hi)%f64 = true /\ (clamp v lo hi <=? hi)%f64 = true).
  { unfold clamp, Py.max, Py.min.
    destruct (v <? hi)%f64 eqn:L1.
    - destruct (lo <? v)%f64 eqn:L0.
      + split; now apply ltb_leb.
      + split; [now apply leb_refl|exact H].
    - destruct (lo <? hi)%f64 eqn:L2.
      + split; [exact H|now apply leb_refl].
      + split; [now apply leb_refl|exact H]. }
  destruct R as [R0 R1]. split; [exact R0|]. split; [exact R1|].
  split; [exact (proj2 (leb_not_nan _ _ R0))|].
  intros L. unfold clamp, Py.max, Py.min.
  replace (S754_nan <? hi)%f64 with false by (destruct hi; reflexivity).
  now rewrite L.
Qed.

Lemma clamp_within_bounds_witness :
  clamp S754_nan (-5) 20 = 20%f64 /\
  (clamp (S754_infinity true) (-5) 20 <=? 20)%f64 = true.
Proof.
  split.
  - exact (proj2 (proj2 (proj2 (clamp_within_bounds S754_nan (-5) 20 eq_refl))) eq_refl).
  - exact (proj1 (proj2 (clamp_within_bounds (S754_infinity true) (-5) 20 eq_refl))).
Defined.

(** X2: [clamp] is idempotent, for all floats and all bounds (ordered or
    not, NaN included), and it leaves a value strictly between the bounds
    as it is. *)
Theorem clamp_idempotent_everywhere (v lo hi : float) :
  clamp (clamp v lo hi) lo hi = clamp v lo hi /\
  ((lo <? v)%f64 = true -> (v <? hi)%f64 = true -> clamp v lo hi = v).
Proof.
  split.
  - unfold clamp, Py.max, Py.min.
    destruct (v <? hi)%f64 eqn:L1.
    + destruct (lo <? v)%f64 eqn:L0.
      * now rewrite L1, L0.
      * destruct (lo <? hi)%f64 eqn:L2; now rewrite ?ltb_irrefl, ?L2.
    + destruct (lo <? hi)%f64 eqn:L2.
      * now rewrite ltb_irrefl, L2.
      * now rewrite L2, ?ltb_irrefl, ?L2.
  - intros L0 L1. unfold clamp, Py.max, Py.min. now rewrite L1, L0.
Qed.

(** X3: with the bounds in the wrong order ([hi < lo]) [clamp] returns
    [lo], whatever the value. *)
Theorem clamp_inverted_bounds (v lo hi : float) :
  (hi <? lo)%f64 = true -> clamp v lo hi = lo.
Proof.
  intros H. unfold clamp, Py.max, Py.min.
  destruct (v <? hi)%f64 eqn:L1.
  - now rewrite (ltb_asym _ _ (ltb_trans _ _ _ L1 H)).
  - now rewrite (ltb_asym _ _ H).
Qed.

Lemma clamp_inverted_bounds_witness : clamp 50 100 0 = 100%f64.
Proof. exact (clamp_inverted_bounds 50 100 0 eq_refl). Defined.

(** ** Division by one *)

Lemma round_even_mantissa (s : bool) (m : positive) (e : Z) :
  bounded F64.prec F64.emax m e = true -> Zpos (digits2_pos m) = 53 ->
  binary_round_aux F64.prec F64.emax s (Zpos m~0) (e - 1) loc_Exact = S754_finite s m e.
Proof.
  intros V D. pose proof V as V'.
  unfold bounded, canonical_mantissa in V'. apply andb_true_iff in V'.
  destruct V' as [Hc He]. apply Z.eqb_eq in Hc. rewrite fexp_eq in Hc.
  unfold binary_round_aux, shr_fexp.
  cbn [Zdigits2 digits2_pos]. rewrite !Pos2Z.inj_succ.
  match goal with
  | |- context [fexp ?a - (e - 1)] =>
      replace (fexp a - (e - 1)) with 1 by (rewrite fexp_eq; lia)
  end.
  cbv [shr iter_pos shr_1 shr_record_of_loc orb].
  cbn [shr_m loc_of_shr_record round_nearest_even Zdigits2].
  replace (fexp (Zpos (digits2_pos m) + (e - 1 + 1)) - (e - 1 + 1)) with 0
    by (rewrite fexp_eq; lia).
  cbv beta iota. cbn [shr_m]. replace (e - 1 + 1) with e by lia. now rewrite He.
Qed.

(** [x / 1.0] is [x]: no rounding takes place. *)
Lemma div_one_r (x : float) : F64.valid x = true -> (x / 1.0)%f64 = x.
Proof.
  destruct x as [[]|[]| |s m e]; try reflexivity. intros V.
  cbn [F64.valid valid_binary] in V. pose proof V as V'.
  unfold bounded, canonical_mantissa in V'. apply andb_true_iff in V'.
  destruct V' as [Hc He]. apply Z.eqb_eq in Hc. rewrite fexp_eq in Hc.
  unfold F64.div, SFdiv, SFdiv_core_binary. rewrite xorb_false_r.
  set (d1 := Zdigits2 (Zpos m)). set (d2 := Zdigits2 (Zpos 4503599627370496)).
  assert (D1 : d1 = Zpos (digits2_pos m)) by reflexivity.
  assert (D2 : d2 = 53) by reflexivity.
  set (e' := Z.min (fexp (d1 + e - (d2 + -52))) (e - -52)).
  set (m' := match e - -52 - e' with
             | 0 => Zpos m
             | Zpos _ => Z.shiftl (Zpos m) (e - -52 - e')
             | Zneg _ => 0
             end).
  assert (He' : e' = e /\ e = -1074 \/ e' = e - 1 /\ d1 = 53).
  { unfold e'. rewrite fexp_eq. lia. }
  assert (Hm' : m' = Zpos m * 2 ^ (e - -52 - e')).
  { unfold m'. destruct (e - -52 - e') as [|p|p] eqn:E.
    - cbn. lia.
    - now rewrite Z.shiftl_mul_pow2 by lia.
    - lia. }
  destruct (Z.div_eucl m' 4503599627370496) as [q r] eqn:Ed.
  assert (Hq : q = m' / 4503599627370496) by (unfold Z.div; now rewrite Ed).
  assert (Hr : r = m' mod 4503599627370496) by (unfold Z.modulo; now rewrite Ed).
  destruct He' as [[E1 E2]|[E1 E2]].
  - replace (e - -52 - e') with 52 in Hm' by lia.
    change (2 ^ 52) with 4503599627370496 in Hm'.
    rewrite Hm', Z.div_mul in Hq by lia. rewrite Hm', Z.mod_mul in Hr by lia.
    rewrite Hq, Hr, E1. change (new_location 4503599627370496 0) with loc_Exact.
    now apply binary_round_aux_canonical.
  - replace (e - -52 - e') with 53 in Hm' by lia.
    change (2 ^ 53) with (2 * 4503599627370496) in Hm'.
    rewrite Z.mul_assoc in Hm'.
    rewrite Hm', Z.div_mul in Hq by lia. rewrite Hm', Z.mod_mul in Hr by lia.
    rewrite Hq, Hr, E1. change (new_location 4503599627370496 0) with loc_Exact.
    change (Zpos m * 2) with (Zpos m~0) || rewrite (Z.mul_comm (Zpos m) 2).
    change (2 * Zpos m) with (Zpos m~0).
    apply round_even_mantissa; [exact V|lia].
Qed.

(** ** [smoothstep] *)

Lemma sub_diag_zero (e : float) : F64.is_finite e = true -> F64.is_zero (e - e)%f64 = true.
Proof.
  destruct e as [[]| | |s m e]; try discriminate; intros _; try reflexivity.
  unfold F64.sub, SFsub. rewrite Z.sub_diag. reflexivity.
Qed.

(** X4: [smoothstep] raises [ZeroDivisionError] exactly when the difference
    of its edges is a zero, so it does for two equal finite edges, whatever
    [x]; with any other edges it returns a float. *)
Theorem smoothstep_zero_division (edge0 edge1 x : float) :
  (F64.is_zero (edge1 - edge0)%f64 = true ->
   smoothstep edge0 edge1 x = Raise ZeroDivisionError) /\
  (F64.is_zero (edge1 - edge0)%f64 = false ->
   exists s, smoothstep edge0 edge1 x = Ok s) /\
  (F64.is_finite edge0 = true -> smoothstep edge0 edge0 x = Raise ZeroDivisionError).
Proof.
  unfold smoothstep, Py.truediv. split; [|split].
  - now intros ->.
  - intros ->. eexists. reflexivity.
  - intros F. now rewrite (sub_diag_zero _ F).
Qed.

Lemma smoothstep_unit_form (x : float) : F64.valid x = true ->
  smoothstep 0 1 x = Ok (let t := clamp x 0 1 in t * t * (3 - 2 * t))%f64.
Proof.
  intros V. unfold smoothstep. rewrite sub_zero_r.
  change (1 - 0)%f64 with 1.0%f64. unfold Py.truediv. cbn [F64.is_zero].
  now rewrite (div_one_r _ V).
Qed.

(** X5: with the edges 0 and 1, [smoothstep] is 0.0 for every [x <= 0]
    (minus infinity included) and 1.0 for every [x >= 1] (plus infinity
    included); a NaN gives 1.0, not a NaN. *)
Theorem smoothstep_saturates (x : float) :
  F64.valid x = true ->
  ((x <=? 0)%f64 = true -> smoothstep 0 1 x = Ok 0.0%f64) /\
  ((1 <=? x)%f64 = true -> smoothstep 0 1 x = Ok 1.0%f64) /\
  smoothstep 0 1 S754_nan = Ok 1.0%f64.
Proof.
  intros V. rewrite (smoothstep_unit_form x V). split; [|split].
  - intros H. cbv zeta.
    assert (E : clamp x 0 1 = 0.0%f64); [|now rewrite E].
    unfold clamp, Py.max, Py.min.
    assert (L1 : (x <? 1)%f64 = true).
    { revert H. unfold F64.leb, F64.ltb, SFleb, SFltb.
      destruct x as [s|s| |s m e]; cbn [SFcompare]; try destruct s; intros G;
        try discriminate G; reflexivity. }
    assert (L0 : (0 <? x)%f64 = false).
    { revert H. unfold F64.leb, F64.ltb, SFleb, SFltb.
      destruct x as [s|s| |s m e]; cbn [SFcompare]; try destruct s; intros G;
        try discriminate G; reflexivity. }
    now rewrite L1, L0.
  - intros H. cbv zeta.
    assert (E : clamp x 0 1 = 1.0%f64); [|now rewrite E].
    unfold clamp, Py.max, Py.min.
    assert (L1 : (x <? 1)%f64 = false).
    { destruct (x <? 1)%f64 eqn:L; [|reflexivity].
      revert H. unfold F64.leb, SFleb. unfold F64.ltb, SFltb in L.
      destruct x as [s|s| |s m e]; try discriminate.
      - destruct s; discriminate.
      - destruct s; [discriminate|].
        apply ltb_one_size in L; [|exact V].
        cbn [SFcompare]. unfold F64.valid in V. cbn [valid_binary] in V.
        destruct (bounded_facts _ _ V) as (D & Er & C).
        destruct (Z.compare_spec (-52) e) as [Q|Q|Q]; try discriminate; try lia. }
    now rewrite L1.
  - reflexivity.
Qed.

Lemma smoothstep_saturates_witness :
  smoothstep 0 1 (-2.5) = Ok 0.0%f64 /\ smoothstep 0 1 7 = Ok 1.0%f64.
Proof.
  split.
  - exact (proj1 (smoothstep_saturates (-2.5) eq_refl) eq_refl).
  - exact (proj1 (proj2 (smoothstep_saturates 7 eq_refl)) eq_refl).
Defined.

(** X6: with the edges 0 and 1, [smoothstep] never raises and returns,
    for every float [x] (NaN and the infinities included), a finite
    non-negative float whose value is at most 1.00001: the roundings of
    [t * t * (3 - 2 * t)] cannot push it visibly above one. *)
Theorem smoothstep_unit_range (x : float) :
  exists s, smoothstep 0 1 x = Ok s /\ nonneg s /\ F64.is_finite s = true /\
            (0 <= F2Q s <= 1 + (1 # 100000))%Q.
Proof.
  destruct (smoothstep_unit_value x) as (s & E & N & B & V).
  exists s. split; [exact E|]. split; [exact N|].
  split; [exact (bounded_size_finite _ _ B)|].
  split; [exact (proj1 (F2Q_range _ _ N B))|exact V].
Qed.

(* ===================================================================== *)
(** * Further properties of the gauge bar *)
(* ===================================================================== *)

(** ** Comparisons and rational values *)

Lemma F2Q_finite_scale (m1 m2 : positive) (e1 e2 : Z) :
  e1 <= e2 -> Zpos m1 < Zpos m2 * 2 ^ (e2 - e1) ->
  (F2Q (S754_finite false m1 e1) < F2Q (S754_finite false m2 e2))%Q.
Proof.
  intros He Hm. cbn [F2Q cond_Zopp].
  rewrite Zlt_Qlt, inject_Z_mult, pow2_Z in Hm by lia.
  pose proof (pow2_pos e1) as P.
  assert (E : (2 ^ e2 == 2 ^ (e2 - e1) * 2 ^ e1)%Q).
  { rewrite <- pow2_add. now replace (e2 - e1 + e1) with e2 by lia. }
  rewrite E. revert Hm P.
  generalize (inject_Z (Zpos m1)) (inject_Z (Zpos m2)) (2 ^ (e2 - e1))%Q (2 ^ e1)%Q.
  clear. intros a b c p Hm P. nra.
Qed.

(** On non-negative valid floats the comparison of the code is the
    comparison of the values. *)
Lemma ltb_F2Q (x y : float) :
  F64.valid x = true -> F64.valid y = true -> nonneg x -> nonneg y ->
  (x <? y)%f64 = true -> (F2Q x < F2Q y)%Q.
Proof.
  intros Vx Vy Nx Ny.
  destruct x as [sx| | |[] mx ex], y as [sy| | |[] my ey]; cbn [nonneg] in Nx, Ny; try tauto;
    try (intros; discriminate).
  - intros _. cbn [F2Q cond_Zopp]. pose proof (pow2_pos ey) as P.
    assert (Pm : (0 < inject_Z (Zpos my))%Q)
      by (change 0%Q with (inject_Z 0); now rewrite <- Zlt_Qlt).
    revert P Pm. generalize (inject_Z (Zpos my)) (2 ^ ey)%Q. clear. intros a p P Pm. nra.
  - rewrite ltb_finite. cbn [F64.valid valid_binary] in Vx, Vy.
    destruct (bounded_facts _ _ Vx) as (Dx & Ex & Cx).
    destruct (bounded_facts _ _ Vy) as (Dy & Ey & Cy).
    destruct (digits2_pos_bounds mx) as [_ Ux]. destruct (digits2_pos_bounds my) as [Ly _].
    intros [H|[H1 H2]].
    + apply F2Q_finite_scale; [lia|].
      assert (Dy' : Zpos (digits2_pos my) = 53) by lia. rewrite Dy' in Ly.
      assert (2 ^ Zpos (digits2_pos mx) <= 2 ^ 53) by (apply Z.pow_le_mono_r; lia).
      assert (2 ^ 1 <= 2 ^ (ey - ex)) by (apply Z.pow_le_mono_r; lia).
      change (2 ^ (53 - 1)) with 4503599627370496 in Ly.
      change (2 ^ 53) with 9007199254740992 in *. change (2 ^ 1) with 2 in *.
      nia.
    + subst ey. apply F2Q_finite_scale; [lia|].
      rewrite Z.sub_diag. change (2 ^ 0) with 1. lia.
Qed.

Lemma leb_F2Q (x y : float) :
  F64.valid x = true -> F64.valid y = true -> nonneg x -> nonneg y ->
  (x <=? y)%f64 = true -> (F2Q x <= F2Q y)%Q.
Proof.
  intros Vx Vy Nx Ny H.
  destruct (x <? y)%f64 eqn:L.
  - apply Qlt_le_weak. now apply ltb_F2Q.
  - unfold F64.leb, SFleb in H. unfold F64.ltb, SFltb in L.
    destruct (SFcompare x y) as [[]|] eqn:C; try discriminate.
    destruct x as [sx| | |[] mx ex], y as [sy| | |[] my ey]; cbn [nonneg] in Nx, Ny; try tauto;
      try (cbn [SFcompare] in C; discriminate).
    apply compare_Eq_finite in C. rewrite C. apply Qle_refl.
Qed.

(** [int(x)] of a non-negative float is its integer part. *)
Lemma int_floor (x : float) : nonneg x ->
  exists z, Py.int x = Ok z /\ 0 <= z /\ (inject_Z z <= F2Q x < inject_Z z + 1)%Q.
Proof.
  destruct x as [s| | |[] m e]; cbn [nonneg]; try tauto; intros _.
  - exists 0. split; [reflexivity|]. split; [lia|]. cbn [F2Q]. change (inject_Z 0) with 0%Q. lra.
  - exists (Z.shiftl (Zpos m) e). split; [reflexivity|]. split.
    + apply Z.shiftl_nonneg. lia.
    + cbn [F2Q cond_Zopp]. destruct (Z_le_gt_dec 0 e) as [He|He].
      * rewrite Z.shiftl_mul_pow2, inject_Z_mult, pow2_Z by lia. lra.
      * rewrite Z.shiftl_div_pow2 by lia.
        assert (P : 0 < 2 ^ (- e)) by (apply Z.pow_pos_nonneg; lia).
        pose proof (Z.mul_div_le (Zpos m) (2 ^ (- e)) P) as L.
        pose proof (Z.mul_succ_div_gt (Zpos m) (2 ^ (- e)) P) as U.
        unfold Z.succ in U.
        rewrite Zle_Qle, inject_Z_mult, pow2_Z in L by lia.
        rewrite Zlt_Qlt, inject_Z_mult, inject_Z_plus, pow2_Z in U by lia.
        change (inject_Z 1) with 1%Q in U.
        pose proof (pow2_pos e) as Pe.
        assert (E1 : (2 ^ (- e) * 2 ^ e == 1)%Q).
        { rewrite <- pow2_add. replace (- e + e) with 0 by lia. reflexivity. }
        revert L U Pe E1.
        generalize (inject_Z (Zpos m / 2 ^ (- e))) (inject_Z (Zpos m)) (2 ^ (- e))%Q (2 ^ e)%Q.
        clear. intros z m q p L U Pe E1.
        assert (H1 : (q * z * p <= m * p)%Q) by nra.
        assert (H2 : (m * p < q * (z + 1) * p)%Q) by nra.
        assert (H1' : (q * z * p == z * (q * p))%Q) by ring.
        assert (H2' : (q * (z + 1) * p == (z + 1) * (q * p))%Q) by ring.
        rewrite H1', E1 in H1. rewrite H2', E1 in H2. lra.
Qed.

(** ** The readout of a gauge *)

Lemma clamp_percent_value (v : float) : F64.valid v = true ->
  nonneg (clamp v 0 100) /\ (0 <= F2Q (clamp v 0 100) <= 100)%Q.
Proof.
  intros V. destruct (clamp_range v) as [H0 H1].
  assert (Vs : F64.valid (clamp v 0 100) = true).
  { destruct (clamp_cases v 0%f64 100%f64 eq_refl) as [(E & _)|[(E & _)|(E & _)]];
      rewrite E; trivial. }
  assert (N : nonneg (clamp v 0 100)).
  { revert H0 H1. unfold F64.leb, SFleb.
    destruct (clamp v 0 100) as [s|s| |s m e]; cbn [SFcompare nonneg]; trivial;
      try destruct s; intros G0 G1; try discriminate G0; try discriminate G1; exact I. }
  split; [exact N|].
  pose proof (leb_F2Q _ 100%f64 Vs eq_refl N I H1) as U.
  assert (E100 : (F2Q 100%f64 == 100)%Q) by (vm_compute; reflexivity).
  rewrite E100 in U.
  split; [|exact U].
  destruct (clamp v 0 100) as [s|s| |[] m e]; cbn [nonneg] in N; try tauto.
  - cbn [F2Q]. lra.
  - apply Qlt_le_weak. cbn [F2Q cond_Zopp]. pose proof (pow2_pos e) as P.
    assert (Pm : (0 < inject_Z (Zpos m))%Q)
      by (change 0%Q with (inject_Z 0); now rewrite <- Zlt_Qlt).
    revert P Pm. generalize (inject_Z (Zpos m)) (2 ^ e)%Q. clear. intros a p P Pm. nra.
Qed.

(** X7: whatever float is passed to [setValue], the next [paintEvent]
    succeeds and draws six primitives; the last is the readout, the text
    [str(n)] followed by the unit (or ["%"] when the unit is empty), where
    [n = int(value)] is the integer part of the stored value and lies
    between 0 and 100; it is right-aligned in the widget rectangle shrunk
    by 8 pixels on each side. *)
Theorem gauge_readout (self : NeonBar.t) (v : float) (W H : Z) :
  F64.valid v = true ->
  let bar := NeonBar.setValue self v in
  exists (n : Z) (before : list Prim),
    0 <= n <= 100 /\
    (inject_Z n <= F2Q (NeonBar.value bar) < inject_Z n + 1)%Q /\
    List.length before = 5%nat /\
    Qt.run (NeonBar.paintEvent bar W H) =
    Ok (before ++
        [DrawText (IntRect (mkQRect 8 8 (W - 16) (H - 16)))
           (Z.lor AlignRight AlignVCenter)
           (Py.str n ++ (if String.eqb (NeonBar.unit self) "" then "%"
                         else NeonBar.unit self))%string
           (pen_of_color (rgb 230 240 255)) (Some (mkFont "Consolas" 11 DemiBold))]).
Proof.
  intros V. cbv zeta.
  destruct (clamp_percent_value v V) as (N & L & U).
  destruct (int_floor _ N) as (n & En & N0 & F).
  exists n. eexists. split.
  - split; [exact N0|].
    assert (G : (inject_Z n < inject_Z 101)%Q) by (change (inject_Z 101) with 101%Q; lra).
    rewrite <- Zlt_Qlt in G. lia.
  - split; [exact F|].
    rewrite (bar_paint_run (NeonBar.setValue self v) W H n En). unfold bar_prims.
    cbn [NeonBar.setValue NeonBar.unit NeonBar.title NeonBar.value NeonBar.style].
    match goal with
    | |- _ /\ Ok [?a; ?b; ?c; ?d; ?e; ?f] = _ =>
        change [a; b; c; d; e; f] with ([a; b; c; d; e] ++ [f])
    end.
    split; [|reflexivity]. reflexivity.
Qed.

Lemma gauge_readout_witness :
  let bar := NeonBar.setValue (NeonBar.init "CPU UTILIZATION" 65 "rainbow") 42.5%f64 in
  exists (n : Z) (before : list Prim),
    0 <= n <= 100 /\
    (inject_Z n <= F2Q (NeonBar.value bar) < inject_Z n + 1)%Q /\
    List.length before = 5%nat /\
    Qt.run (NeonBar.paintEvent bar 300 56) =
    Ok (before ++
        [DrawText (IntRect (mkQRect 8 8 (300 - 16) (56 - 16)))
           (Z.lor AlignRight AlignVCenter) (Py.str n ++ "%")%string
           (pen_of_color (rgb 230 240 255)) (Some (mkFont "Consolas" 11 DemiBold))]).
Proof.
  exact (gauge_readout (NeonBar.init "CPU UTILIZATION" 65 "rainbow") 42.5%f64 300 56 eq_refl).
Defined.

(* ===================================================================== *)
(** * Further properties of the ring field *)
(* ===================================================================== *)

Section RingCensus.

Variables cos sin : float -> float.

Lemma ring_prims_census (center : QPointF) (radius width : float) (color : QColor)
    (base : float) :
  let prims := ring_prims cos sin center radius width color base in
  List.length prims = 38%nat /\
  List.length (filter is_arc prims) = 2%nat /\
  List.length (filter is_ellipse prims) = 36%nat.
Proof.
  cbv zeta. unfold ring_prims.
  assert (A : forall l, filter is_arc (map (dot_prim cos sin center radius width base) l) = [])
    by (induction l as [|k l IH]; [reflexivity|exact IH]).
  assert (E : forall l, filter is_ellipse (map (dot_prim cos sin center radius width base) l)
                        = map (dot_prim cos sin center radius width base) l)
    by (induction l as [|k l IH]; [reflexivity|cbn [map filter is_ellipse dot_prim]; now rewrite IH]).
  rewrite !filter_app, A, E, !length_app, !length_map.
  unfold Py.range. rewrite !length_map, !length_seq. repeat split.
Qed.

Lemma concat_census (f : Prim -> bool) (n : nat) (ls : list (list Prim)) :
  Forall (fun l => List.length (filter f l) = n) ls ->
  List.length (filter f (List.concat ls)) = (List.length ls * n)%nat.
Proof.
  induction 1 as [|l ls Hl _ IH]; [reflexivity|].
  cbn [List.concat List.length]. rewrite filter_app, length_app, Hl, IH. reflexivity.
Qed.

Lemma concat_length_uniform (n : nat) (ls : list (list Prim)) :
  Forall (fun l => List.length l = n) ls ->
  List.length (List.concat ls) = (List.length ls * n)%nat.
Proof.
  induction 1 as [|l ls Hl _ IH]; [reflexivity|].
  cbn [List.concat List.length]. rewrite length_app, Hl, IH. reflexivity.
Qed.

(** X8: for a phase in [0, 1) and any widget size, [paintEvent] of the ring
    field succeeds and draws 193 primitives: the radial background first,
    then the five rings (10 arcs and 180 orbit dots in all, nothing else),
    then the caption and the ONLINE line. *)
Theorem ring_field_census (caption : string) (self : AnimatedRings.t) (W H : Z) :
  unit_interval (AnimatedRings.phase self) ->
  exists (bg : Brush) (body : list Prim) (p1 p2 : Pen) (f1 f2 : option QFont),
    Qt.run (AnimatedRings.paintEvent cos sin caption self W H) =
    Ok (FillRect (IntRect (Qt.rect W H)) bg
        :: body
        ++ [DrawText (IntRect (Qt.rect W H)) AlignCenter caption p1 f1;
            DrawText (IntRect (adjusted (Qt.rect W H) 0 40 0 0)) (Z.lor AlignHCenter AlignTop)
              (String "226" (String "128" (String "162" "  ONLINE"))) p2 f2]) /\
    List.length body = 190%nat /\
    List.length (filter is_arc body) = 10%nat /\
    List.length (filter is_ellipse body) = 180%nat.
Proof.
  intros Hp. rewrite (paintEvent_run cos sin caption self W H Hp).
  unfold field_prims, background, captions.
  do 6 eexists. split; [reflexivity|].
  set (c := field_centre W H). set (ph := AnimatedRings.phase self).
  assert (F : forall f n,
             (forall r w col b, List.length (filter f (ring_prims cos sin c r w col b)) = n) ->
             List.length (filter f (List.concat (map (ring_of cos sin ph c)
                                          (AnimatedRings.rings (field_radius W H)))))
             = (5 * n)%nat).
  { intros f n Hf. rewrite (concat_census f n).
    - rewrite length_map. unfold AnimatedRings.rings. cbn [List.length]. reflexivity.
    - apply Forall_forall. intros l Hl. apply in_map_iff in Hl.
      destruct Hl as ([[[r w] off] col] & <- & _). unfold ring_of. apply Hf. }
  split; [|split].
  - rewrite (concat_length_uniform 38).
    + rewrite length_map. unfold AnimatedRings.rings. cbn [List.length]. reflexivity.
    + apply Forall_forall. intros l Hl. apply in_map_iff in Hl.
      destruct Hl as ([[[r w] off] col] & <- & _). unfold ring_of.
      exact (proj1 (ring_prims_census _ _ _ _ _)).
  - apply (F is_arc 2%nat). intros r w col b.
    exact (proj1 (proj2 (ring_prims_census c r w col b))).
  - apply (F is_ellipse 36%nat). intros r w col b.
    exact (proj2 (proj2 (ring_prims_census c r w col b))).
Qed.

(** X9: the two revisions repaint the ring field to the same primitives,
    except for the text of the caption: ["NOVA"] in [nov.py],
    ["J.A.R.V.I.S"] in [nova.py]. *)
Theorem revisions_differ_in_caption (h : NovaHUD.t) (W H : Z) :
  unit_interval (AnimatedRings.phase (NovaHUD.rings h)) ->
  exists (before : list Prim) (rect : Rect) (flags : Z) (p : Pen) (f : option QFont)
         (online : Prim),
    NovaHUD.paint_rings cos sin NovaHUD.nov_py h W H =
      Ok (before ++ [DrawText rect flags "NOVA" p f; online]) /\
    NovaHUD.paint_rings cos sin NovaHUD.nova_py h W H =
      Ok (before ++ [DrawText rect flags "J.A.R.V.I.S" p f; online]).
Proof.
  intros Hp. unfold NovaHUD.paint_rings.
  rewrite !(paintEvent_run cos sin _ _ W H Hp).
  unfold field_prims, captions, NovaHUD.caption.
  exists (background W H
          :: List.concat (map (ring_of cos sin (AnimatedRings.phase (NovaHUD.rings h))
                                 (field_centre W H))
                              (AnimatedRings.rings (field_radius W H)))).
  do 5 eexists. split; reflexivity.
Qed.

End RingCensus.

Lemma ring_field_census_witness :
  exists (bg : Brush) (body : list Prim) (p1 p2 : Pen) (f1 f2 : option QFont),
    Qt.run (AnimatedRings.paintEvent (fun x => x) (fun x => x) "NOVA" AnimatedRings.init 520 520) =
    Ok (FillRect (IntRect (Qt.rect 520 520)) bg
        :: body
        ++ [DrawText (IntRect (Qt.rect 520 520)) AlignCenter "NOVA" p1 f1;
            DrawText (IntRect (adjusted (Qt.rect 520 520) 0 40 0 0))
              (Z.lor AlignHCenter AlignTop)
              (String "226" (String "128" (String "162" "  ONLINE"))) p2 f2]) /\
    List.length body = 190%nat /\
    List.length (filter is_arc body) = 10%nat /\
    List.length (filter is_ellipse body) = 180%nat.
Proof.
  exact (ring_field_census (fun x => x) (fun x => x) "NOVA" AnimatedRings.init 520 520
           (conj eq_refl (conj eq_refl eq_refl))).
Defined.

Lemma revisions_differ_in_caption_witness :
  exists (before : list Prim) (rect : Rect) (flags : Z) (p : Pen) (f : option QFont)
         (online : Prim),
    NovaHUD.paint_rings (fun x => x) (fun x => x) NovaHUD.nov_py NovaHUD.widgets 520 520 =
      Ok (before ++ [DrawText rect flags "NOVA" p f; online]) /\
    NovaHUD.paint_rings (fun x => x) (fun x => x) NovaHUD.nova_py NovaHUD.widgets 520 520 =
      Ok (before ++ [DrawText rect flags "J.A.R.V.I.S" p f; online]).
Proof.
  exact (revisions_differ_in_caption (fun x => x) (fun x => x) NovaHUD.widgets 520 520
           (conj eq_refl (conj eq_refl eq_refl))).
Defined.

(* ===================================================================== *)
(** * Further properties of the main window *)
(* ===================================================================== *)

Section WindowFacts.

Variable sin : float -> float.
Variable rev : NovaHUD.revision.

Lemma setValue_in_range (b : NeonBar.t) (v : float) : in_range (NeonBar.setValue b v).
Proof. unfold in_range. cbn [NeonBar.setValue NeonBar.value]. apply clamp_range. Qed.

Lemma sampleStats_in_range (h : NovaHUD.t) (env : Env) :
  gauges_in_range (NovaHUD.sampleStats sin rev h env).
Proof.
  destruct (sampleStats_fields sin rev h env) as (E1 & E2 & E3 & E4 & E5 & _).
  cbv zeta in E1, E2, E3, E4, E5. unfold gauges_in_range.
  rewrite E1, E2, E3, E4, E5. repeat split; apply clamp_range.
Qed.

Lemma handle_in_range (h : NovaHUD.t) (ev : NovaHUD.event) :
  gauges_in_range h -> gauges_in_range (NovaHUD.handle sin rev h ev).
Proof.
  intros G. destruct ev as [|env|hms date]; cbn [NovaHUD.handle].
  - exact G.
  - apply sampleStats_in_range.
  - exact G.
Qed.

Lemma run_in_range (evs : list NovaHUD.event) : forall h : NovaHUD.t,
  gauges_in_range h -> gauges_in_range (NovaHUD.run sin rev h evs).
Proof.
  induction evs as [|ev evs IH]; intros h G; [exact G|].
  unfold NovaHUD.run in *. cbn [fold_left]. apply IH. now apply handle_in_range.
Qed.

(** X10: in every state the window can reach (the constructor followed by
    any sequence of timer events, with any provider answers, failures and
    random numbers) each of the five gauges holds a value in [0, 100]. *)
Theorem gauges_stay_in_range (env : Env) (hms date : string) (evs : list NovaHUD.event) :
  gauges_in_range (NovaHUD.run sin rev (NovaHUD.init sin rev env hms date) evs).
Proof.
  apply run_in_range. unfold NovaHUD.init.
  exact (sampleStats_in_range NovaHUD.widgets env).
Qed.

(** ** The address shown in the network card *)

Lemma scan_addresses_spec (arr : list snicaddr) (ip : string) :
  (Forall (fun a => usable a = false) arr /\ NovaHUD.scan_addresses arr ip = ip) \/
  (exists arr1 a arr2,
     arr = arr1 ++ a :: arr2 /\ Forall (fun b => usable b = false) arr1 /\
     usable a = true /\ NovaHUD.scan_addresses arr ip = address a).
Proof.
  induction arr as [|a arr IH]; [left; split; [constructor|reflexivity]|].
  cbn [NovaHUD.scan_addresses]. fold (usable a).
  destruct (usable a) eqn:U.
  - right. exists [], a, arr. repeat split; trivial.
  - destruct IH as [[F E]|(arr1 & b & arr2 & -> & F & Ub & E)].
    + left. split; [now constructor|exact E].
    + right. exists (a :: arr1), b, arr2. repeat split; trivial. now constructor.
Qed.

Lemma usable_address (a : snicaddr) : usable a = true ->
  Py.count "."%char (address a) = 3 /\ Py.startswith "169.254" (address a) = false.
Proof.
  unfold usable. intros H. apply andb_true_iff in H. destruct H as [H H3].
  apply andb_true_iff in H. destruct H as [_ H2].
  apply Z.eqb_eq in H2. apply negb_true_iff in H3. now split.
Qed.

Lemma scan_interfaces_origin (addrs : list (string * list snicaddr)) :
  let ip := NovaHUD.scan_interfaces addrs "0.0.0.0" in
  ip = "0.0.0.0"%string \/
  exists name arr a, In (name, arr) addrs /\ In a arr /\ usable a = true /\ address a = ip.
Proof.
  cbv zeta. induction addrs as [|[name arr] addrs IH]; [now left|].
  cbn [NovaHUD.scan_interfaces].
  destruct (scan_addresses_spec arr "0.0.0.0") as [[F E]|(arr1 & a & arr2 & Ea & F & U & E)];
    rewrite E.
  - cbn [String.eqb Ascii.eqb Bool.eqb negb]. destruct IH as [IH|(n & r & a & I1 & I2 & U & Ea)].
    + now left.
    + right. exists n, r, a. repeat split; trivial. now right.
  - destruct (String.eqb_spec (address a) "0.0.0.0") as [Z|Z]; cbn [negb].
    + rewrite Z. destruct IH as [IH|(n & r & b & I1 & I2 & Ub & Eb)].
      * now left.
      * right. exists n, r, b. repeat split; trivial. now right.
    + right. exists name, arr, a. repeat split; trivial.
      * now left.
      * rewrite Ea. apply in_elt.
Qed.

Lemma sampleStats_net (h : NovaHUD.t) (env : Env) :
  NovaHUD.net (NovaHUD.sampleStats sin rev h env)
    = fst (NovaHUD.sample_network env (NovaHUD.net h) (NovaHUD.last_bytes h)) /\
  NovaHUD.last_bytes (NovaHUD.sampleStats sin rev h env)
    = snd (NovaHUD.sample_network env (NovaHUD.net h) (NovaHUD.last_bytes h)).
Proof.
  destruct (sampleStats_fields sin rev h env) as (_ & _ & _ & _ & _ & _ & _ & E).
  cbv zeta in E. rewrite <- E. split; reflexivity.
Qed.

Lemma sample_network_ip (env : Env) (net : NetworkStats.t) (last : option (Z * Z))
    (ps : Psutil) :
  psutil env = Some ps ->
  NetworkStats.ip (fst (NovaHUD.sample_network env net last)) =
  match net_if_addrs ps with
  | Ok addrs => ("IP Address: " ++ NovaHUD.scan_interfaces addrs "0.0.0.0")%string
  | Raise _ => "IP Address: 0.0.0.0"%string
  end.
Proof.
  intros Hps. unfold NovaHUD.sample_network. rewrite Hps.
  destruct (net_io_counters ps) as [nowb|e]; [|reflexivity].
  destruct last as [lastb|]; [|reflexivity].
  destruct (NovaHUD.throughput (fst nowb) (fst lastb)),
           (NovaHUD.throughput (snd nowb) (snd lastb)); reflexivity.
Qed.

(** X11: when the provider lists its interfaces, the IP label reads
    ["IP Address: "] followed by ["0.0.0.0"] or by an address of the
    listing that has a family, exactly three dots and no ["169.254"]
    prefix; so the label never shows a link-local address. *)
Theorem ip_label_origin (h : NovaHUD.t) (env : Env) (ps : Psutil)
    (addrs : list (string * list snicaddr)) :
  psutil env = Some ps -> net_if_addrs ps = Ok addrs ->
  exists ip,
    NetworkStats.ip (NovaHUD.net (NovaHUD.sampleStats sin rev h env))
      = ("IP Address: " ++ ip)%string /\
    (ip = "0.0.0.0"%string \/
     exists name arr a, In (name, arr) addrs /\ In a arr /\ usable a = true /\ address a = ip) /\
    Py.count "."%char ip = 3 /\ Py.startswith "169.254" ip = false.
Proof.
  intros Hps Ha.
  exists (NovaHUD.scan_interfaces addrs "0.0.0.0"). split.
  - rewrite (proj1 (sampleStats_net h env)), (sample_network_ip env _ _ ps Hps), Ha.
    reflexivity.
  - pose proof (scan_interfaces_origin addrs) as O. cbv zeta in O.
    split; [exact O|].
    destruct O as [->|(n & r & a & _ & _ & U & <-)]; [split; reflexivity|].
    now apply usable_address.
Qed.

Lemma scan_addresses_none (arr : list snicaddr) (ip : string) :
  Forall (fun b => usable b = false) arr -> NovaHUD.scan_addresses arr ip = ip.
Proof.
  induction 1 as [|b arr Hb _ IH]; [reflexivity|].
  cbn [NovaHUD.scan_addresses]. fold (usable b). now rewrite Hb.
Qed.

Lemma scan_addresses_first (arr1 arr2 : list snicaddr) (a : snicaddr) (ip : string) :
  Forall (fun b => usable b = false) arr1 -> usable a = true ->
  NovaHUD.scan_addresses (arr1 ++ a :: arr2) ip = address a.
Proof.
  intros F U. induction F as [|b arr Hb _ IH];
    rewrite ?app_nil_l, <- ?app_comm_cons; cbn [NovaHUD.scan_addresses].
  - fold (usable a). now rewrite U.
  - fold (usable b). now rewrite Hb.
Qed.

Lemma scan_interfaces_first (pre post : list (string * list snicaddr)) (name : string)
    (arr1 arr2 : list snicaddr) (a : snicaddr) :
  Forall (fun entry => Forall (fun b => usable b = false) (snd entry)) pre ->
  Forall (fun b => usable b = false) arr1 -> usable a = true ->
  address a <> "0.0.0.0"%string ->
  NovaHUD.scan_interfaces (pre ++ (name, arr1 ++ a :: arr2) :: post) "0.0.0.0" = address a.
Proof.
  intros Fp F1 U Z. induction Fp as [|[n arr] pre Hn _ IH];
    rewrite ?app_nil_l, <- ?app_comm_cons; cbn [NovaHUD.scan_interfaces].
  - rewrite (scan_addresses_first _ _ _ _ F1 U).
    destruct (String.eqb_spec (address a) "0.0.0.0"); [contradiction|reflexivity].
  - cbn [snd] in Hn. rewrite (scan_addresses_none _ _ Hn). exact IH.
Qed.

(** X12: the address shown is the first acceptable one, in the iteration
    order of the interfaces and of their addresses: entries without a
    family, IPv6 addresses and link-local addresses before it are skipped
    (an acceptable address that reads ["0.0.0.0"] does not end the
    search). *)
Theorem ip_label_first_usable (h : NovaHUD.t) (env : Env) (ps : Psutil)
    (pre post : list (string * list snicaddr)) (name : string)
    (arr1 arr2 : list snicaddr) (a : snicaddr) :
  psutil env = Some ps ->
  net_if_addrs ps = Ok (pre ++ (name, arr1 ++ a :: arr2) :: post) ->
  Forall (fun entry => Forall (fun b => usable b = false) (snd entry)) pre ->
  Forall (fun b => usable b = false) arr1 -> usable a = true ->
  address a <> "0.0.0.0"%string ->
  NetworkStats.ip (NovaHUD.net (NovaHUD.sampleStats sin rev h env))
    = ("IP Address: " ++ address a)%string.
Proof.
  intros Hps Ha Fp F1 U Z.
  rewrite (proj1 (sampleStats_net h env)), (sample_network_ip env _ _ ps Hps), Ha.
  now rewrite scan_interfaces_first.
Qed.

Lemma sample_network_counters (env : Env) (net : NetworkStats.t) (last : option (Z * Z))
    (ps : Psutil) :
  psutil env = Some ps ->
  let r := NovaHUD.sample_network env net last in
  (NetworkStats.up (fst r), NetworkStats.down (fst r), snd r) =
  match net_io_counters ps, last with
  | Ok nowb, Some lastb =>
      match NovaHUD.throughput (fst nowb) (fst lastb),
            NovaHUD.throughput (snd nowb) (snd lastb) with
      | Ok up, Ok down =>
          (("Upload: " ++ Py.format_1f up ++ " MB/s")%string,
           ("Download: " ++ Py.format_1f down ++ " MB/s")%string, Some nowb)
      | _, _ => (NetworkStats.up net, NetworkStats.down net, last)
      end
  | Ok nowb, None => (NetworkStats.up net, NetworkStats.down net, Some nowb)
  | Raise _, _ => (NetworkStats.up net, NetworkStats.down net, last)
  end.
Proof.
  intros Hps. cbv zeta. unfold NovaHUD.sample_network. rewrite Hps.
  destruct (net_io_counters ps) as [nowb|e]; [|reflexivity].
  destruct last as [lastb|]; [|reflexivity].
  destruct (NovaHUD.throughput (fst nowb) (fst lastb)),
           (NovaHUD.throughput (snd nowb) (snd lastb)); reflexivity.
Qed.

(** X13: the address scan and the throughput update are separate [try]
    blocks and do not influence each other: a failing [net_if_addrs] sets
    the IP label to ["IP Address: 0.0.0.0"], and the throughput labels and
    the stored counters are what they are with any other answer of
    [net_if_addrs]; likewise the IP label does not depend on the answer of
    [net_io_counters]. *)
Theorem network_blocks_independent (h : NovaHUD.t) (env1 env2 : Env) (ps1 ps2 : Psutil) :
  psutil env1 = Some ps1 -> psutil env2 = Some ps2 ->
  let h1 := NovaHUD.sampleStats sin rev h env1 in
  let h2 := NovaHUD.sampleStats sin rev h env2 in
  (net_io_counters ps1 = net_io_counters ps2 ->
   NetworkStats.up (NovaHUD.net h1) = NetworkStats.up (NovaHUD.net h2) /\
   NetworkStats.down (NovaHUD.net h1) = NetworkStats.down (NovaHUD.net h2) /\
   NovaHUD.last_bytes h1 = NovaHUD.last_bytes h2) /\
  (net_if_addrs ps1 = net_if_addrs ps2 ->
   NetworkStats.ip (NovaHUD.net h1) = NetworkStats.ip (NovaHUD.net h2)) /\
  (forall e, net_if_addrs ps1 = Raise e ->
   NetworkStats.ip (NovaHUD.net h1) = "IP Address: 0.0.0.0"%string).
Proof.
  intros H1 H2. cbv zeta.
  rewrite !(proj1 (sampleStats_net h _)), !(proj2 (sampleStats_net h _)).
  split; [|split].
  - intros E.
    pose proof (sample_network_counters env1 (NovaHUD.net h) (NovaHUD.last_bytes h) ps1 H1) as C1.
    pose proof (sample_network_counters env2 (NovaHUD.net h) (NovaHUD.last_bytes h) ps2 H2) as C2.
    cbv zeta in C1, C2. rewrite E in C1. rewrite <- C2 in C1.
    injection C1 as -> -> ->. repeat split.
  - intros E. rewrite (sample_network_ip env1 _ _ ps1 H1), (sample_network_ip env2 _ _ ps2 H2).
    now rewrite E.
  - intros e E. now rewrite (sample_network_ip env1 _ _ ps1 H1), E.
Qed.

(** ** The temperature and battery readings *)

Lemma first_current_skip (pre post : list (string * list float)) :
  Forall (fun entry => snd entry = []) pre ->
  NovaHUD.first_current (pre ++ post) = NovaHUD.first_current post.
Proof.
  induction 1 as [|[n v] pre Hv _ IH]; rewrite ?app_nil_l, <- ?app_comm_cons; [reflexivity|].
  cbn [snd] in Hv. subst v. cbn [NovaHUD.first_current]. exact IH.
Qed.

(** X14: the CPU-temperature gauge takes the first reading of the first
    sensor group that has one (groups with an empty list are skipped) and
    stores [clamp((t / 100.0) * 100, 0, 100)]. *)
Theorem temperature_first_reading (h : NovaHUD.t) (env : Env) (ps : Psutil)
    (pre post : list (string * list float)) (name : string) (t : float) (ts : list float) :
  psutil env = Some ps ->
  sensors_temperatures ps = Ok (pre ++ (name, t :: ts) :: post) ->
  Forall (fun entry => snd entry = []) pre ->
  NeonBar.value (NovaHUD.cpu_temp (NovaHUD.sampleStats sin rev h env))
    = clamp ((t / 100.0) * 100)%f64 0 100.
Proof.
  intros Hps Ht Fp.
  destruct (sampleStats_fields sin rev h env) as (_ & E & _). cbv zeta in E. rewrite E.
  cbn [NeonBar.setValue NeonBar.value]. rewrite clamp_idempotent.
  unfold NovaHUD.sample_temp. rewrite Hps, Ht, (first_current_skip _ _ Fp). reflexivity.
Qed.

(** X15: a reading that is absent, not failing, is replaced by the synthetic
    value of the source: when no sensor group has a reading the temperature
    is [48 + 12 * sin(time / 6.5) + uniform(-2, 2)], and when [psutil] has no
    [sensors_battery] or it returns [None] the battery percentage is
    [70 + 8 * sin(time / 10.0) + uniform(-4, 4)]. *)
Theorem absent_readings_are_simulated (h : NovaHUD.t) (env : Env) (ps : Psutil) :
  psutil env = Some ps ->
  let h' := NovaHUD.sampleStats sin rev h env in
  (forall temps, sensors_temperatures ps = Ok temps ->
     Forall (fun entry => snd entry = []) temps ->
     NeonBar.value (NovaHUD.cpu_temp h') =
     clamp (((48 + 12 * sin (time_time env / 6.5) + random_uniform env (-2) 2) / 100.0) * 100)%f64
           0 100) /\
  (has_sensors_battery ps = false \/ sensors_battery ps = Ok None ->
   NeonBar.value (NovaHUD.battery h') =
   NovaHUD.battery_reading rev
     (70 + 8 * sin (time_time env / 10.0) + random_uniform env (-4) 4)%f64).
Proof.
  intros Hps. cbv zeta.
  destruct (sampleStats_fields sin rev h env) as (_ & E2 & E3 & _). cbv zeta in E2, E3.
  rewrite E2, E3. cbn [NeonBar.setValue NeonBar.value]. split.
  - intros temps Ht F. rewrite clamp_idempotent.
    unfold NovaHUD.sample_temp. rewrite Hps, Ht.
    rewrite <- (app_nil_r temps), (first_current_skip _ _ F). reflexivity.
  - intros HB. unfold NovaHUD.sample_battery. rewrite Hps.
    assert (E : (if has_sensors_battery ps
                 then match sensors_battery ps with
                      | Ok (Some pct) => Some pct
                      | _ => None
                      end
                 else None) = None).
    { destruct HB as [-> | ->]; [reflexivity|]. now destruct (has_sensors_battery ps). }
    rewrite E. destruct rev; apply clamp_idempotent.
Qed.

(** ** The three timers *)

Lemma run_projection {X : Type} (P : NovaHUD.t -> X) (f : X -> NovaHUD.event -> X)
    (tm : timer) :
  (forall h ev, P (NovaHUD.handle sin rev h ev) = f (P h) ev) ->
  (forall x ev, same_timer (timer_of ev) tm = false -> f x ev = x) ->
  forall evs h, P (NovaHUD.run sin rev h evs) = fold_left f (events_of tm evs) (P h).
Proof.
  intros Hstep Hskip. induction evs as [|ev evs IH]; intros h; [reflexivity|].
  unfold NovaHUD.run in *. cbn [fold_left]. rewrite IH, Hstep.
  unfold events_of. cbn [filter]. fold (events_of tm evs).
  destruct (same_timer (timer_of ev) tm) eqn:E; [reflexivity|].
  now rewrite (Hskip _ _ E).
Qed.

Lemma window_ext (h1 h2 : NovaHUD.t) :
  NovaHUD.rings h1 = NovaHUD.rings h2 -> sampled h1 = sampled h2 ->
  NovaHUD.clock h1 = NovaHUD.clock h2 -> h1 = h2.
Proof.
  destruct h1, h2. unfold sampled. cbn. intros -> E ->. now inversion E.
Qed.

(** X16: the slots of the three timers act on separate parts of the
    window, so the state after a run does not depend on how the timers
    interleave: two runs in which every timer fires the same events in the
    same order end in the same window, whatever the order between events
    of different timers.  The order of the events of one timer does
    matter: two ticks of the clock that differ do not commute. *)
Theorem timers_commute (h : NovaHUD.t) (evs1 evs2 : list NovaHUD.event) :
  (forall tm, events_of tm evs1 = events_of tm evs2) ->
  NovaHUD.run sin rev h evs1 = NovaHUD.run sin rev h evs2 /\
  (forall hms date hms' date', (hms, date) <> (hms', date') ->
   NovaHUD.run sin rev h [NovaHUD.clockTimer hms date; NovaHUD.clockTimer hms' date']
   <> NovaHUD.run sin rev h [NovaHUD.clockTimer hms' date'; NovaHUD.clockTimer hms date]).
Proof.
  intros Hev. split.
  - apply window_ext.
    + rewrite 2 (run_projection NovaHUD.rings
                   (fun r ev => match ev with
                                | NovaHUD.animTimer =>
                                    NovaHUD.rings (NovaHUD.animate (NovaHUD.set_rings h r))
                                | _ => r
                                end) anim_timer).
      * now rewrite Hev.
      * intros h0 [|env|hms date]; [reflexivity| |reflexivity].
        cbn [NovaHUD.handle]. unfold NovaHUD.sampleStats.
        destruct (NovaHUD.sample_network env (NovaHUD.net h0) (NovaHUD.last_bytes h0)).
        reflexivity.
      * intros x [|env|hms date] E; [discriminate E|reflexivity|reflexivity].
      * intros h0 [|env|hms date]; [reflexivity| |reflexivity].
        cbn [NovaHUD.handle]. unfold NovaHUD.sampleStats.
        destruct (NovaHUD.sample_network env (NovaHUD.net h0) (NovaHUD.last_bytes h0)).
        reflexivity.
      * intros x [|env|hms date] E; [discriminate E|reflexivity|reflexivity].
    + rewrite 2 (run_projection sampled
                   (fun x ev =>
                      match ev with
                      | NovaHUD.statTimer env =>
                          let '(c1, c2, b, m, d, n, l) := x in
                          sampled (NovaHUD.sampleStats sin rev
                                     (NovaHUD.mk c1 c2 b m d AnimatedRings.init n
                                        ClockCard.init l) env)
                      | _ => x
                      end) stat_timer).
      * now rewrite Hev.
      * intros [c1 c2 b m d r n c l] [|env|hms date]; [reflexivity| |reflexivity].
        cbn [NovaHUD.handle]. unfold sampled at 2.
        cbn [NovaHUD.cpu_util NovaHUD.cpu_temp NovaHUD.battery NovaHUD.mem NovaHUD.disk
             NovaHUD.net NovaHUD.last_bytes].
        unfold NovaHUD.sampleStats.
        cbn [NovaHUD.cpu_util NovaHUD.cpu_temp NovaHUD.battery NovaHUD.mem NovaHUD.disk
             NovaHUD.rings NovaHUD.net NovaHUD.clock NovaHUD.last_bytes].
        destruct (NovaHUD.sample_network env n l). reflexivity.
      * intros x [|env|hms date] E; [reflexivity|discriminate E|reflexivity].
      * intros [c1 c2 b m d r n c l] [|env|hms date]; [reflexivity| |reflexivity].
        cbn [NovaHUD.handle]. unfold sampled at 2.
        cbn [NovaHUD.cpu_util NovaHUD.cpu_temp NovaHUD.battery NovaHUD.mem NovaHUD.disk
             NovaHUD.net NovaHUD.last_bytes].
        unfold NovaHUD.sampleStats.
        cbn [NovaHUD.cpu_util NovaHUD.cpu_temp NovaHUD.battery NovaHUD.mem NovaHUD.disk
             NovaHUD.rings NovaHUD.net NovaHUD.clock NovaHUD.last_bytes].
        destruct (NovaHUD.sample_network env n l). reflexivity.
      * intros x [|env|hms date] E; [reflexivity|discriminate E|reflexivity].
    + rewrite 2 (run_projection NovaHUD.clock
                   (fun c ev => match ev with
                                | NovaHUD.clockTimer hms date => ClockCard.tick c hms date
                                | _ => c
                                end) clock_timer).
      * now rewrite Hev.
      * intros h0 [|env|hms date]; [reflexivity| |reflexivity].
        cbn [NovaHUD.handle]. unfold NovaHUD.sampleStats.
        destruct (NovaHUD.sample_network env (NovaHUD.net h0) (NovaHUD.last_bytes h0)).
        reflexivity.
      * intros x [|env|hms date] E; [reflexivity|reflexivity|discriminate E].
      * intros h0 [|env|hms date]; [reflexivity| |reflexivity].
        cbn [NovaHUD.handle]. unfold NovaHUD.sampleStats.
        destruct (NovaHUD.sample_network env (NovaHUD.net h0) (NovaHUD.last_bytes h0)).
        reflexivity.
      * intros x [|env|hms date] E; [reflexivity|reflexivity|discriminate E].
  - intros hms date hms' date' Hne E. apply Hne.
    apply (f_equal NovaHUD.clock) in E. cbn in E. now inversion E.
Qed.

(** X17: the constructor samples once and ticks once: with a provider
    whose byte counters can be read, the new window already holds these
    counters while its throughput labels still read 0.0 MB/s (so the first
    timer cycle shows a throughput); its clock shows the time of
    construction and its phase is 0.0. *)
Theorem constructor_state (env : Env) (ps : Psutil) (hms date : string) (counters : Z * Z) :
  psutil env = Some ps -> net_io_counters ps = Ok counters ->
  let h := NovaHUD.init sin rev env hms date in
  NovaHUD.last_bytes h = Some counters /\
  NetworkStats.up (NovaHUD.net h) = "Upload: 0.0 MB/s"%string /\
  NetworkStats.down (NovaHUD.net h) = "Download: 0.0 MB/s"%string /\
  ClockCard.timeLbl (NovaHUD.clock h) = hms /\
  ClockCard.dateLbl (NovaHUD.clock h) = date /\
  AnimatedRings.phase (NovaHUD.rings h) = 0.0%f64.
Proof.
  intros Hps Hc. cbv zeta. unfold NovaHUD.init, NovaHUD.tick, NovaHUD.set_clock.
  cbn [NovaHUD.last_bytes NovaHUD.net NovaHUD.clock NovaHUD.rings ClockCard.tick
       ClockCard.timeLbl ClockCard.dateLbl].
  destruct (sampleStats_fields sin rev NovaHUD.widgets env) as (_ & _ & _ & _ & _ & R & _ & _).
  cbv zeta in R. rewrite R.
  pose proof (sample_network_counters env (NovaHUD.net NovaHUD.widgets)
                (NovaHUD.last_bytes NovaHUD.widgets) ps Hps) as C.
  cbv zeta in C. rewrite Hc in C.
  rewrite <- (proj1 (sampleStats_net NovaHUD.widgets env)) in C.
  rewrite <- (proj2 (sampleStats_net NovaHUD.widgets env)) in C.
  change (NovaHUD.last_bytes NovaHUD.widgets) with (@None (Z * Z)) in C.
  change (NetworkStats.up (NovaHUD.net NovaHUD.widgets)) with "Upload: 0.0 MB/s"%string in C.
  change (NetworkStats.down (NovaHUD.net NovaHUD.widgets)) with "Download: 0.0 MB/s"%string in C.
  injection C as -> -> ->. repeat split.
Qed.

End WindowFacts.

Lemma ip_label_origin_witness :
  exists ip,
    NetworkStats.ip (NovaHUD.net (NovaHUD.sampleStats (fun x => x) NovaHUD.nova_py
                                    NovaHUD.widgets (desktop_env (Ok listing))))
      = ("IP Address: " ++ ip)%string /\
    Py.count "."%char ip = 3 /\ Py.startswith "169.254" ip = false.
Proof.
  destruct (ip_label_origin (fun x => x) NovaHUD.nova_py NovaHUD.widgets
              (desktop_env (Ok listing)) (desktop (Ok listing)) listing eq_refl eq_refl)
    as (ip & E & _ & C & S).
  exists ip. split; [exact E|]. split; [exact C|exact S].
Defined.

Lemma ip_label_first_usable_witness :
  NetworkStats.ip (NovaHUD.net (NovaHUD.sampleStats (fun x => x) NovaHUD.nov_py
                                  NovaHUD.widgets (desktop_env (Ok listing))))
    = "IP Address: 192.168.1.7"%string.
Proof.
  exact (ip_label_first_usable (fun x => x) NovaHUD.nov_py NovaHUD.widgets
           (desktop_env (Ok listing)) (desktop (Ok listing))
           [("lo"%string, [])] [("wlan0"%string, [mkAddr 2 "10.0.0.3"])] "eth0"
           [mkAddr 2 "169.254.10.2"; mkAddr 10 "fe80::1"] [] (mkAddr 2 "192.168.1.7")
           eq_refl eq_refl
           (Forall_cons ("lo"%string, []) (Forall_nil _) (Forall_nil _))
           (Forall_cons (mkAddr 2 "169.254.10.2") eq_refl
              (Forall_cons (mkAddr 10 "fe80::1") eq_refl (Forall_nil _)))
           eq_refl ltac:(discriminate)).
Defined.

Lemma network_blocks_independent_witness :
  let h1 := NovaHUD.sampleStats (fun x => x) NovaHUD.nov_py NovaHUD.widgets
              (desktop_env (Raise ValueError)) in
  let h2 := NovaHUD.sampleStats (fun x => x) NovaHUD.nov_py NovaHUD.widgets
              (desktop_env (Ok listing)) in
  NovaHUD.last_bytes h1 = NovaHUD.last_bytes h2 /\
  NetworkStats.ip (NovaHUD.net h1) = "IP Address: 0.0.0.0"%string.
Proof.
  cbv zeta.
  destruct (network_blocks_independent (fun x => x) NovaHUD.nov_py NovaHUD.widgets
              (desktop_env (Raise ValueError)) (desktop_env (Ok listing))
              (desktop (Raise ValueError)) (desktop (Ok listing)) eq_refl eq_refl)
    as (C & _ & R).
  split; [exact (proj2 (proj2 (C eq_refl)))|exact (R ValueError eq_refl)].
Defined.

Lemma temperature_first_reading_witness :
  NeonBar.value (NovaHUD.cpu_temp (NovaHUD.sampleStats (fun x => x) NovaHUD.nov_py
                                     NovaHUD.widgets (desktop_env (Ok listing))))
    = clamp ((55.0 / 100.0) * 100)%f64 0 100.
Proof.
  exact (temperature_first_reading (fun x => x) NovaHUD.nov_py NovaHUD.widgets
           (desktop_env (Ok listing)) (desktop (Ok listing))
           [("acpitz"%string, [])] [] "coretemp" 55.0%f64 [48.0%f64]
           eq_refl eq_refl (Forall_cons ("acpitz"%string, []) eq_refl (Forall_nil _))).
Defined.

Lemma absent_readings_are_simulated_witness :
  NeonBar.value (NovaHUD.battery (NovaHUD.sampleStats (fun x => x) NovaHUD.nova_py
                                    NovaHUD.widgets (desktop_env (Ok listing))))
    = NovaHUD.battery_reading NovaHUD.nova_py (70 + 8 * (0.0 / 10.0) + (-4))%f64.
Proof.
  exact (proj2 (absent_readings_are_simulated (fun x => x) NovaHUD.nova_py NovaHUD.widgets
                  (desktop_env (Ok listing)) (desktop (Ok listing)) eq_refl)
               (or_intror eq_refl)).
Defined.

Lemma constructor_state_witness :
  let h := NovaHUD.init (fun x => x) NovaHUD.nov_py (desktop_env (Ok listing))
             "12:00:00" "Monday, 01 Jan 2024" in
  NovaHUD.last_bytes h = Some (4096, 8192) /\
  NetworkStats.up (NovaHUD.net h) = "Upload: 0.0 MB/s"%string.
Proof.
  cbv zeta.
  destruct (constructor_state (fun x => x) NovaHUD.nov_py (desktop_env (Ok listing))
              (desktop (Ok listing)) "12:00:00" "Monday, 01 Jan 2024" (4096, 8192)
              eq_refl eq_refl) as (L & U & _).
  split; [exact L|exact U].
Defined.

Lemma timers_commute_witness :
  let stat := NovaHUD.statTimer working_env in
  let clock := NovaHUD.clockTimer "12:00:00" "Monday, 01 January 2024" in
  NovaHUD.run (fun x => x) NovaHUD.nov_py NovaHUD.widgets
    [NovaHUD.animTimer; stat; clock; NovaHUD.animTimer; stat]
  = NovaHUD.run (fun x => x) NovaHUD.nov_py NovaHUD.widgets
      [clock; stat; NovaHUD.animTimer; stat; NovaHUD.animTimer].
Proof.
  cbv zeta.
  refine (proj1 (timers_commute (fun x => x) NovaHUD.nov_py NovaHUD.widgets _ _ _)).
  intros []; reflexivity.
Defined.

(* ===================================================================== *)
(** * Properties of the camera card *)
(* ===================================================================== *)

Section CameraFacts.

Import Cv2.

Variable resize_data : Image -> Z -> Z -> list Z.
Variable gray_data rgb_data : Image -> list Z.
Variable roi : Image -> Z -> Z -> Z -> Z -> Image.
Variable detectMultiScale : Image -> list (Z * Z * Z * Z).
Variable analyze : Image -> option (list (list (string * string))).

Local Abbreviation update_frame :=
  (CameraWidget.update_frame resize_data gray_data rgb_data roi detectMultiScale analyze).
Local Abbreviation run :=
  (CameraWidget.run resize_data gray_data rgb_data roi detectMultiScale analyze).
Local Abbreviation handle :=
  (CameraWidget.handle resize_data gray_data rgb_data roi detectMultiScale analyze).

Lemma annotate_marks (rgb : Image) (faces : list (Z * Z * Z * Z)) : forall frame : Mat,
  let frame' := fold_left (CameraWidget.annotate roi analyze rgb) faces frame in
  image frame' = image frame /\
  marks frame' = marks frame ++ flat_map (face_marks roi analyze rgb) faces.
Proof.
  induction faces as [|[[[x y] w] h] faces IH]; intros frame; cbv zeta.
  - split; [reflexivity|]. cbn [flat_map fold_left]. now rewrite app_nil_r.
  - cbn [fold_left flat_map]. destruct (IH (CameraWidget.annotate roi analyze rgb frame (x, y, w, h)))
      as [I M]. cbv zeta in I, M. rewrite I, M. clear IH I M.
    unfold CameraWidget.annotate, face_marks.
    destruct (CameraWidget.emotion_of roi analyze rgb x y w h) as [e|];
      unfold putText, rectangle; cbn [image marks]; split; trivial;
      rewrite <- !app_assoc; reflexivity.
Qed.

Lemma face_marks_rectangles (rgb : Image) (faces : list (Z * Z * Z * Z)) :
  List.length (filter is_rectangle (flat_map (face_marks roi analyze rgb) faces))
  = List.length faces.
Proof.
  induction faces as [|[[[x y] w] h] faces IH]; [reflexivity|].
  cbn [flat_map]. rewrite filter_app, length_app, IH. unfold face_marks.
  destruct (CameraWidget.emotion_of roi analyze rgb x y w h); reflexivity.
Qed.

(** X18: when the capture is open and delivers an image, [update_frame]
    raises [cv2.error] if the image is empty or has neither 3 nor 4
    channels, and the widget then stays as it is; otherwise it shows a 320
    by 240 pixmap with [channels * 320] bytes per line whose frame carries,
    for every detected face in detection order, its box followed by its
    emotion when the analysis gave one: one box per face, whether or not
    the analysis of this or another face failed. *)
Theorem camera_frame_marks (self : CameraWidget.t) (img : Image) :
  isOpened (CameraWidget.capture self) = true ->
  let small := mkImage 240 320 (channels img) (resize_data img 320 240) in
  let faces := detectMultiScale (mkImage 240 320 1 (gray_data small)) in
  let rgb := mkImage 240 320 3 (rgb_data small) in
  (0 < rows img -> 0 < cols img -> channels img = 3 \/ channels img = 4 ->
   exists q,
     update_frame self (Some img)
       = Returns (CameraWidget.mk (CameraWidget.LabelPixmap q) (CameraWidget.capture self)
                    (CameraWidget.timer self)) /\
     CameraWidget.width q = 320 /\ CameraWidget.height q = 240 /\
     CameraWidget.bytesPerLine q = channels img * 320 /\
     image (CameraWidget.bits q) = small /\
     marks (CameraWidget.bits q) = flat_map (face_marks roi analyze rgb) faces /\
     List.length (filter is_rectangle (marks (CameraWidget.bits q))) = List.length faces) /\
  (rows img <= 0 \/ cols img <= 0 \/ (channels img <> 3 /\ channels img <> 4) ->
   update_frame self (Some img) = Throws cv2_error /\
   handle self (CameraWidget.timeout (Some img)) = self).
Proof.
  intros Ho. cbv zeta. split.
  - intros Hr Hc Hch. unfold CameraWidget.update_frame, read. rewrite Ho.
    unfold CameraWidget.resize.
    replace ((rows img <=? 0) || (cols img <=? 0))%bool with false
      by (symmetry; apply orb_false_iff; split; apply Z.leb_gt; assumption).
    unfold CameraWidget.to_gray, CameraWidget.to_rgb. cbn [channels rows cols].
    replace ((channels img =? 3) || (channels img =? 4))%bool with true
      by (symmetry; apply orb_true_iff; destruct Hch as [E|E]; [left|right];
          now apply Z.eqb_eq).
    set (small := mkImage 240 320 (channels img) (resize_data img 320 240)).
    set (faces := detectMultiScale (mkImage 240 320 1 (gray_data small))).
    set (rgb := mkImage 240 320 3 (rgb_data small)).
    destruct (annotate_marks rgb faces (mkMat small [])) as [I M]. cbv zeta in I, M.
    cbv beta iota zeta. eexists. split; [reflexivity|].
    cbn [CameraWidget.width CameraWidget.height CameraWidget.bytesPerLine CameraWidget.bits].
    rewrite I, M. cbn [image marks]. rewrite app_nil_l.
    subst small. cbn [rows cols channels].
    repeat split. apply face_marks_rectangles.
  - intros Hbad.
    assert (E : update_frame self (Some img) = Throws cv2_error).
    { unfold CameraWidget.update_frame, read. rewrite Ho. unfold CameraWidget.resize.
      destruct ((rows img <=? 0) || (cols img <=? 0))%bool eqn:Eb; [reflexivity|].
      apply orb_false_iff in Eb. destruct Eb as [E1 E2].
      apply Z.leb_gt in E1. apply Z.leb_gt in E2.
      unfold CameraWidget.to_gray. cbn [channels].
      destruct ((channels img =? 3) || (channels img =? 4))%bool eqn:Ec; [|reflexivity].
      apply orb_true_iff in Ec. rewrite !Z.eqb_eq in Ec. lia. }
    split; [exact E|]. cbn [CameraWidget.handle]. rewrite E.
    now destruct (CameraWidget.timer self).
Qed.

Lemma stopped_handle (self : CameraWidget.t) (ev : CameraWidget.event) :
  CameraWidget.timer self = false -> isOpened (CameraWidget.capture self) = false ->
  handle self ev = self.
Proof.
  intros T O. destruct ev as [next|]; cbn [CameraWidget.handle].
  - now rewrite T.
  - unfold CameraWidget.stop_camera. cbn [CameraWidget.capture]. rewrite O.
    destruct self as [l c t]. cbn in T. now subst t.
Qed.

Lemma stopped_run (evs : list CameraWidget.event) (self : CameraWidget.t) :
  CameraWidget.timer self = false -> isOpened (CameraWidget.capture self) = false ->
  run self evs = self.
Proof.
  intros T O. induction evs as [|ev evs IH]; [reflexivity|].
  unfold CameraWidget.run in *. cbn [fold_left]. now rewrite stopped_handle.
Qed.

(** X19: [stop_camera] is final: it stops the timer, releases the capture
    exactly when it is open, and leaves the label as it is; whatever
    happens afterwards (timer events, closing again) changes nothing, so
    [release] is not called a second time. *)
Theorem stop_camera_is_final (self : CameraWidget.t) (evs : list CameraWidget.event) :
  let stopped := CameraWidget.stop_camera self in
  CameraWidget.timer stopped = false /\
  isOpened (CameraWidget.capture stopped) = false /\
  CameraWidget.video_label stopped = CameraWidget.video_label self /\
  released (CameraWidget.capture stopped)
    = (released (CameraWidget.capture self)
       + (if isOpened (CameraWidget.capture self) then 1 else 0))%nat /\
  run stopped evs = stopped.
Proof.
  cbv zeta.
  assert (H : CameraWidget.timer (CameraWidget.stop_camera self) = false /\
              isOpened (CameraWidget.capture (CameraWidget.stop_camera self)) = false).
  { unfold CameraWidget.stop_camera. cbn [CameraWidget.capture].
    destruct (isOpened (CameraWidget.capture self)) eqn:O; cbn; auto. }
  destruct H as [T O]. split; [exact T|]. split; [exact O|].
  split; [|split; [|now apply stopped_run]].
  - unfold CameraWidget.stop_camera. cbn [CameraWidget.capture].
    destruct (isOpened (CameraWidget.capture self)); reflexivity.
  - unfold CameraWidget.stop_camera. cbn [CameraWidget.capture].
    destruct (isOpened (CameraWidget.capture self)); cbn; lia.
Qed.

Lemma closed_handle (self : CameraWidget.t) (ev : CameraWidget.event) :
  isOpened (CameraWidget.capture self) = false ->
  isOpened (CameraWidget.capture (handle self ev)) = false /\
  CameraWidget.video_label (handle self ev) = CameraWidget.video_label self /\
  released (CameraWidget.capture (handle self ev)) = released (CameraWidget.capture self).
Proof.
  intros O. destruct ev as [next|]; cbn [CameraWidget.handle].
  - destruct (CameraWidget.timer self); [|auto].
    unfold CameraWidget.update_frame, read. rewrite O. auto.
  - unfold CameraWidget.stop_camera. cbn [CameraWidget.capture]. rewrite O. cbn. auto.
Qed.

(** X20: a widget whose capture did not open (no camera) never shows a
    frame: after any sequence of timer and close events the label still
    reads ["Initializing Camera..."], and [release] is never called. *)
Theorem no_camera_no_frame (evs : list CameraWidget.event) :
  let w := run (CameraWidget.init false) evs in
  CameraWidget.video_label w = CameraWidget.LabelText "Initializing Camera..." /\
  released (CameraWidget.capture w) = 0%nat.
Proof.
  cbv zeta.
  assert (G : forall self, isOpened (CameraWidget.capture self) = false ->
                CameraWidget.video_label (run self evs) = CameraWidget.video_label self /\
                released (CameraWidget.capture (run self evs))
                  = released (CameraWidget.capture self)).
  { induction evs as [|ev evs IH]; intros self O; [split; reflexivity|].
    unfold CameraWidget.run in *. cbn [fold_left].
    destruct (closed_handle self ev O) as (O' & L & R).
    destruct (IH _ O') as [L' R']. rewrite L', R'. now split. }
  exact (G (CameraWidget.init false) eq_refl).
Qed.

End CameraFacts.

(* ===================================================================== *)
(** * The remainder modulo 1.0 is exact *)
(* ===================================================================== *)

Lemma binary_round_exact_value (mx : positive) (ex : Z) :
  fexp (Zpos (digits2_pos mx) + ex) <= ex -> Zpos (digits2_pos mx) + ex <= 1024 ->
  (F2Q (binary_round F64.prec F64.emax false mx ex) == inject_Z (Zpos mx) * 2 ^ ex)%Q.
Proof.
  intros Hf Hs. unfold binary_round.
  destruct (shl_align mx ex (fexp (Zpos (digits2_pos mx) + ex))) as [mz ez] eqn:E.
  destruct (shl_align_spec mx ex (fexp (Zpos (digits2_pos mx) + ex)) Hf) as [H1 H2].
  rewrite E in H1, H2. cbn [fst snd] in H1, H2.
  assert (Hd : Zpos (digits2_pos mz) + ez = Zpos (digits2_pos mx) + ex).
  { change (Zpos (digits2_pos mz)) with (Zdigits2 (Zpos mz)).
    rewrite H1, Zdigits2_mul_pow by lia. cbn [Zdigits2]. lia. }
  assert (Hb : bounded F64.prec F64.emax mz ez = true).
  { unfold bounded, canonical_mantissa. apply andb_true_iff. split.
    - apply Z.eqb_eq. rewrite fexp_eq in *. lia.
    - apply Z.leb_le. rewrite fexp_eq in *. unfold F64.emax, F64.prec. lia. }
  rewrite (binary_round_aux_canonical false mz ez Hb). cbn [F2Q cond_Zopp].
  rewrite H1, inject_Z_mult, pow2_Z by lia. rewrite <- Qmult_assoc, <- pow2_add.
  replace (ex - fexp (Zpos (digits2_pos mx) + ex) + ez) with ex by lia. reflexivity.
Qed.

(** [x % 1.0] of a non-negative float is its fractional part, without any
    rounding. *)
Lemma float_mod_one_value (K : Z) (x : float) :
  bounded_size K x -> nonneg x ->
  exists n : Z, 0 <= n /\
    (F2Q x == inject_Z n + F2Q (F64.float_mod x 1.0%f64))%Q.
Proof.
  intros B N. destruct x as [s| | |[] mx ex]; cbn [nonneg bounded_size] in B, N; try tauto.
  - exists 0. split; [lia|]. destruct s; reflexivity.
  - destruct B as [Bx _]. destruct (bounded_facts _ _ Bx) as (D & E & C).
    set (ez := Z.min ex (-52)).
    destruct (shl_align_spec mx ex ez ltac:(lia)) as [HX _].
    destruct (shl_align_spec 4503599627370496 (-52) ez ltac:(lia)) as [HY _].
    set (X := Zpos (fst (shl_align mx ex ez))) in *.
    set (Y := Zpos (fst (shl_align 4503599627370496 (-52) ez))) in *.
    assert (EY : Y = 2 ^ (- ez)).
    { rewrite HY. change 4503599627370496 with (2 ^ 52).
      rewrite <- Z.pow_add_r by lia. f_equal. lia. }
    assert (PY : 0 < Y) by (unfold Y; lia).
    assert (PX : 0 < X) by (unfold X; lia).
    pose proof (Z.rem_bound_pos X Y ltac:(lia) PY) as Hr.
    assert (Hle : Z.rem X Y <= X) by (rewrite Z.rem_mod_nonneg by lia; apply Z.mod_le; lia).
    pose proof (Z.quot_rem' X Y) as QR.
    assert (Q0 : 0 <= Z.quot X Y) by (apply Z.quot_pos; lia).
    assert (VX : (F2Q (S754_finite false mx ex) == inject_Z X * 2 ^ ez)%Q).
    { cbn [F2Q cond_Zopp]. rewrite HX, inject_Z_mult, pow2_Z by lia.
      rewrite <- Qmult_assoc, <- pow2_add. now replace (ex - ez + ez) with ex by lia. }
    assert (VY : (inject_Z Y * 2 ^ ez == 1)%Q).
    { rewrite EY, pow2_Z by lia. rewrite <- pow2_add. now replace (- ez + ez) with 0 by lia. }
    exists (Z.quot X Y). split; [exact Q0|].
    assert (VR : (inject_Z (Z.rem X Y) * 2 ^ ez
                  == F2Q (F64.float_mod (S754_finite false mx ex) 1.0%f64))%Q).
    { unfold F64.float_mod, F64.fmod. cbn [cond_Zopp]. fold ez. fold X. fold Y.
      destruct (Z.rem X Y) as [|r|r] eqn:Er; [cbn; ring| |lia].
      cbn [binary_normalize].
      assert (Dr1 : Zdigits2 (Zpos r) <= - ez) by (apply Zdigits2_le; lia).
      assert (Dr2 : Zdigits2 (Zpos r) <= 53).
      { destruct (Z_le_gt_dec ex (-52)).
        - transitivity (Zdigits2 X); [apply Zdigits2_mono; lia|].
          rewrite HX. replace (ex - ez) with 0 by lia. rewrite Z.mul_1_r. cbn [Zdigits2]. lia.
        - lia. }
      cbn [Zdigits2] in Dr1, Dr2.
      destruct (binary_round_exact false r ez) as (m & e & Eq & Bm & Sm).
      { rewrite fexp_eq. lia. }
      { lia. }
      pose proof (binary_round_exact_value r ez) as V.
      rewrite Eq in V |- *. cbn [F64.is_zero F64.ltb SFltb SFcompare].
      cbn [Bool.eqb negb]. symmetry. apply V; [rewrite fexp_eq; lia|lia]. }
    rewrite <- VR, VX.
    rewrite QR at 1. rewrite inject_Z_plus, inject_Z_mult.
    revert VY. generalize (inject_Z Y) (inject_Z (Z.quot X Y)) (inject_Z (Z.rem X Y)) (2 ^ ez)%Q.
    clear. intros y q r p VY.
    assert (H : ((y * q + r) * p == q * (y * p) + r * p)%Q) by ring.
    rewrite H, VY. ring.
Qed.

(** The sum of two non-negative floats. *)
Lemma add_value (a K : Z) (x y : float) : nonneg x -> nonneg y ->
  bounded_size a x -> bounded_size a y -> a + 2 <= K -> -1073 <= K -> K <= 1024 ->
  near (F2Q x + F2Q y) (F2Q (x + y)%f64).
Proof.
  intros Nx Ny Bx By HK1 HK2 HK3.
  pose proof (F2Q_range a x Nx Bx) as [Px _]. pose proof (F2Q_range a y Ny By) as [Py _].
  revert Nx Ny Bx By Px Py.
  destruct x as [sx| | |[] mx ex], y as [sy| | |[] my ey]; cbn [nonneg bounded_size]; try tauto;
    intros _ _ Bx By Px Py.
  - apply (near_eq 0 _ 0 _); [cbn [F2Q]; ring| |apply near_refl; lra].
    cbn [F64.add SFadd]. destruct sx, sy; reflexivity.
  - cbn [F64.add SFadd].
    apply (near_eq (F2Q (S754_finite false my ey)) _ (F2Q (S754_finite false my ey)) _);
      [cbn [F2Q]; ring|reflexivity|apply near_refl; exact Py].
  - cbn [F64.add SFadd].
    apply (near_eq (F2Q (S754_finite false mx ex)) _ (F2Q (S754_finite false mx ex)) _);
      [cbn [F2Q]; ring|reflexivity|apply near_refl; exact Px].
  - destruct Bx as [_ Sx], By as [_ Sy]. unfold F64.add, SFadd. cbn [cond_Zopp].
    cbn [F2Q cond_Zopp].
    set (ez := Z.min ex ey).
    destruct (shl_align_spec mx ex ez ltac:(lia)) as [HX _].
    destruct (shl_align_spec my ey ez ltac:(lia)) as [HY _].
    pose proof (shl_align_size mx ex ez ltac:(lia)) as SX.
    pose proof (shl_align_size my ey ez ltac:(lia)) as SY.
    set (X := Zpos (fst (shl_align mx ex ez))) in *.
    set (Y := Zpos (fst (shl_align my ey ez))) in *.
    assert (EV : (inject_Z (X + Y) * 2 ^ ez ==
                  inject_Z (Zpos mx) * 2 ^ ex + inject_Z (Zpos my) * 2 ^ ey)%Q).
    { rewrite inject_Z_plus, HX, HY, !inject_Z_mult. rewrite !pow2_Z by lia.
      replace ex with ((ex - ez) + ez) at 2 by lia.
      replace ey with ((ey - ez) + ez) at 2 by lia.
      rewrite !pow2_add. ring. }
    assert (PX : 0 < X) by (unfold X; lia). assert (PY : 0 < Y) by (unfold Y; lia).
    eapply near_eq; [exact EV|reflexivity|].
    apply normalize_value; [lia|].
    assert (Zdigits2 (X + Y) <= a - ez + 1) by (apply Zdigits2_add; lia).
    lia.
Qed.

(** X21: one animation tick moves a phase [p] of [0, 1) to the float sum
    [p + 0.0075] when that is below one, and to that sum minus exactly one
    otherwise: the wrap-around [% 1.0] itself adds no rounding error. *)
Theorem animate_wraps_exactly (self : NovaHUD.t) :
  unit_interval (AnimatedRings.phase (NovaHUD.rings self)) ->
  let p := AnimatedRings.phase (NovaHUD.rings self) in
  let p' := AnimatedRings.phase (NovaHUD.rings (NovaHUD.animate self)) in
  exists n : Z, (n = 0 \/ n = 1) /\
    (F2Q p' == F2Q (p + 0.0075)%f64 - inject_Z n)%Q /\ (0 <= F2Q p' < 1)%Q.
Proof.
  intros U. cbv zeta. cbn [NovaHUD.animate NovaHUD.set_rings NovaHUD.rings AnimatedRings.phase].
  set (p := AnimatedRings.phase (NovaHUD.rings self)) in *.
  pose proof (advance_unit p U) as U'. unfold advance in U'.
  apply unit_interval_spec in U. destruct U as [Np Bp].
  apply unit_interval_spec in U'. destruct U' as [Np' Bp'].
  assert (Bc : bounded_size 0 0.0075%f64) by (split; [reflexivity|cbn; lia]).
  pose proof (add_bounded 0 0 2 p 0.0075%f64 Bp Bc ltac:(lia) ltac:(lia) ltac:(lia) ltac:(lia))
    as Bq.
  assert (Nq : nonneg (p + 0.0075)%f64).
  { apply strict_nonneg_nonneg. apply (sign_is_false_finite _ _ Bq). now apply add_nonneg. }
  destruct (float_mod_one_value 2 _ Bq Nq) as (n & N0 & V).
  pose proof (add_value 0 2 p 0.0075%f64 Np I Bp Bc ltac:(lia) ltac:(lia) ltac:(lia)) as A.
  pose proof (F2Q_range 0 p Np Bp) as [P0 P1]. change (2 ^ 0)%Q with 1%Q in P1.
  pose proof (F2Q_range 0 _ Np' Bp') as [R0 R1]. change (2 ^ 0)%Q with 1%Q in R1.
  assert (C : (F2Q 0.0075%f64 <= 1 # 100)%Q) by (vm_compute; discriminate).
  assert (C0 : (0 <= F2Q 0.0075%f64)%Q) by (vm_compute; discriminate).
  apply near_coarse in A; [|lra].
  exists n. split; [|split; [rewrite V; ring|split; assumption]].
  assert (G : (inject_Z n < inject_Z 2)%Q) by (change (inject_Z 2) with 2%Q; lra).
  rewrite <- Zlt_Qlt in G. lia.
Qed.

Lemma animate_wraps_exactly_witness :
  exists n : Z, (n = 0 \/ n = 1) /\
    (F2Q (AnimatedRings.phase (NovaHUD.rings (NovaHUD.animate NovaHUD.widgets)))
     == F2Q (0.0 + 0.0075)%f64 - inject_Z n)%Q.
Proof.
  destruct (animate_wraps_exactly NovaHUD.widgets (conj eq_refl (conj eq_refl eq_refl)))
    as (n & N & V & _).
  exists n. split; [exact N|exact V].
Defined.

Lemma camera_frame_marks_witness :
  let detect := fun _ : Cv2.Image => [(10, 20, 30, 40); (100, 50, 20, 20)] in
  let analyze := fun img : Cv2.Image =>
                   if Z.eqb (Cv2.rows img) 40
                   then Some [[("dominant_emotion", "happy")]]%string else None in
  let roi := fun (img : Cv2.Image) (y0 y1 x0 x1 : Z) =>
               Cv2.mkImage (y1 - y0) (x1 - x0) (Cv2.channels img) [] in
  let run_update := CameraWidget.update_frame (fun _ _ _ => []) (fun _ => []) (fun _ => [])
                      roi detect analyze (CameraWidget.init true) in
  (exists q,
     run_update (Some (Cv2.mkImage 480 640 3 []))
       = Cv2.Returns (CameraWidget.mk (CameraWidget.LabelPixmap q) (Cv2.mkCapture true 0) true) /\
     CameraWidget.bytesPerLine q = 960 /\
     Cv2.marks (CameraWidget.bits q) =
     [ Cv2.Rectangle (10, 20) (40, 60) (100, 220, 255) 2;
       Cv2.Text "Happy" (10, 10) Cv2.FONT_HERSHEY_SIMPLEX 0.7%f64 (100, 220, 255) 2;
       Cv2.Rectangle (100, 50) (120, 70) (100, 220, 255) 2 ]) /\
  run_update (Some (Cv2.mkImage 480 640 1 [])) = Cv2.Throws Cv2.cv2_error.
Proof.
  cbv zeta. split.
  - destruct (proj1 (camera_frame_marks (fun _ _ _ => []) (fun _ => []) (fun _ => [])
                (fun (img : Cv2.Image) (y0 y1 x0 x1 : Z) =>
                   Cv2.mkImage (y1 - y0) (x1 - x0) (Cv2.channels img) [])
                (fun _ : Cv2.Image => [(10, 20, 30, 40); (100, 50, 20, 20)])
                (fun img : Cv2.Image =>
                   if Z.eqb (Cv2.rows img) 40
                   then Some [[("dominant_emotion", "happy")]]%string else None)
                (CameraWidget.init true) (Cv2.mkImage 480 640 3 []) eq_refl)
              eq_refl eq_refl (or_introl eq_refl))
      as (q & L & _ & _ & B & _ & M & _).
    exists q. split; [exact L|]. split; [exact B|exact M].
  - refine (proj1 (proj2 (camera_frame_marks (fun _ _ _ => []) (fun _ => []) (fun _ => [])
                (fun (img : Cv2.Image) (y0 y1 x0 x1 : Z) =>
                   Cv2.mkImage (y1 - y0) (x1 - x0) (Cv2.channels img) [])
                (fun _ : Cv2.Image => [(10, 20, 30, 40); (100, 50, 20, 20)])
                (fun img : Cv2.Image =>
                   if Z.eqb (Cv2.rows img) 40
                   then Some [[("dominant_emotion", "happy")]]%string else None)
                (CameraWidget.init true) (Cv2.mkImage 480 640 1 []) eq_refl)
              (or_intror (or_intror (conj _ _))))); discriminate.
Defined.

(* ===================================================================== *)
(** * Throughput across cycles *)
(* ===================================================================== *)

Section ThroughputFacts.

Variable sin : float -> float.
Variable rev : NovaHUD.revision.

Lemma run_keeps_counters (evs : list NovaHUD.event) : forall h : NovaHUD.t,
  NovaHUD.last_bytes h <> None -> NovaHUD.last_bytes (NovaHUD.run sin rev h evs) <> None.
Proof.
  induction evs as [|ev evs IH]; intros h Hl; [exact Hl|].
  unfold NovaHUD.run in *. cbn [fold_left]. apply IH.
  destruct ev as [|env|hms date]; cbn [NovaHUD.handle]; try exact Hl.
  rewrite (proj2 (sampleStats_net sin rev h env)).
  unfold NovaHUD.sample_network.
  destruct (psutil env) as [ps|]; [|exact Hl].
  destruct (net_io_counters ps) as [nowb|e]; [|exact Hl].
  destruct (NovaHUD.last_bytes h) as [lastb|]; [|discriminate].
  destruct (NovaHUD.throughput (fst nowb) (fst lastb)),
           (NovaHUD.throughput (snd nowb) (snd lastb)); cbn [snd]; discriminate.
Qed.

(** X22: the throughput is measured against the last counters that were
    read, not against the previous cycle: when [net_io_counters] raises on
    one cycle and answers on the next, the window shows the difference to
    the counters stored before the failure, the traffic of two cycles. *)
Theorem throughput_spans_failed_cycle (h : NovaHUD.t) (env1 env2 : Env) (ps1 ps2 : Psutil)
    (e : exn) (sent0 recv0 sent recv : Z) :
  NovaHUD.last_bytes h = Some (sent0, recv0) ->
  psutil env1 = Some ps1 -> net_io_counters ps1 = Raise e ->
  psutil env2 = Some ps2 -> net_io_counters ps2 = Ok (sent, recv) ->
  0 <= sent0 < 2 ^ 64 -> 0 <= recv0 < 2 ^ 64 -> 0 <= sent < 2 ^ 64 -> 0 <= recv < 2 ^ 64 ->
  let h2 := NovaHUD.sampleStats sin rev (NovaHUD.sampleStats sin rev h env1) env2 in
  NetworkStats.up (NovaHUD.net h2) =
    ("Upload: " ++ Py.format_1f (F64.of_Z (sent - sent0) / 1024.0 / 1024.0)%f64
                ++ " MB/s")%string /\
  NetworkStats.down (NovaHUD.net h2) =
    ("Download: " ++ Py.format_1f (F64.of_Z (recv - recv0) / 1024.0 / 1024.0)%f64
                  ++ " MB/s")%string /\
  NovaHUD.last_bytes h2 = Some (sent, recv).
Proof.
  intros Hl P1 R1 P2 O2 B1 B2 B3 B4. cbv zeta.
  pose proof (sample_network_counters env1 (NovaHUD.net h) (NovaHUD.last_bytes h) ps1 P1) as C1.
  cbv zeta in C1. rewrite R1 in C1.
  rewrite <- (proj1 (sampleStats_net sin rev h env1)) in C1.
  rewrite <- (proj2 (sampleStats_net sin rev h env1)) in C1.
  set (h1 := NovaHUD.sampleStats sin rev h env1) in *.
  injection C1 as U1 D1 L1. rewrite Hl in L1.
  pose proof (sample_network_counters env2 (NovaHUD.net h1) (NovaHUD.last_bytes h1) ps2 P2) as C2.
  cbv zeta in C2.
  rewrite <- (proj1 (sampleStats_net sin rev h1 env2)) in C2.
  rewrite <- (proj2 (sampleStats_net sin rev h1 env2)) in C2.
  rewrite O2, L1 in C2. cbn [fst snd] in C2.
  rewrite (throughput_ok sent sent0), (throughput_ok recv recv0) in C2 by lia.
  injection C2 as -> -> ->. repeat split.
Qed.

(** X23: stored byte counters are never forgotten: once a cycle has read
    the counters, every later state of the window holds counters, whatever
    events follow, so from then on every successful read shows a
    throughput. *)
Theorem counters_are_kept (h : NovaHUD.t) (env : Env) (ps : Psutil) (counters : Z * Z)
    (evs : list NovaHUD.event) :
  psutil env = Some ps -> net_io_counters ps = Ok counters ->
  NovaHUD.last_bytes h = None ->
  NovaHUD.last_bytes (NovaHUD.sampleStats sin rev h env) = Some counters /\
  NovaHUD.last_bytes (NovaHUD.run sin rev (NovaHUD.sampleStats sin rev h env) evs) <> None.
Proof.
  intros Hps Hc Hl.
  assert (E : NovaHUD.last_bytes (NovaHUD.sampleStats sin rev h env) = Some counters).
  { pose proof (sample_network_counters env (NovaHUD.net h) (NovaHUD.last_bytes h) ps Hps) as C.
    cbv zeta in C. rewrite <- (proj2 (sampleStats_net sin rev h env)) in C.
    rewrite Hc, Hl in C. now injection C. }
  split; [exact E|]. apply run_keeps_counters. rewrite E. discriminate.
Qed.

End ThroughputFacts.

Lemma throughput_spans_failed_cycle_witness :
  let env0 := mkEnv (Some (counting 0 0)) 100%f64 (fun a _ => a) in
  let env1 := mkEnv (Some counters_fail) 101%f64 (fun a _ => a) in
  let env2 := mkEnv (Some (counting 2097152 1048576)) 102%f64 (fun a _ => a) in
  let h := NovaHUD.sampleStats (fun x => x) NovaHUD.nov_py NovaHUD.widgets env0 in
  let h2 := NovaHUD.sampleStats (fun x => x) NovaHUD.nov_py
              (NovaHUD.sampleStats (fun x => x) NovaHUD.nov_py h env1) env2 in
  NetworkStats.up (NovaHUD.net h2) =
    ("Upload: " ++ Py.format_1f (F64.of_Z (2097152 - 0) / 1024.0 / 1024.0)%f64
                ++ " MB/s")%string.
Proof.
  cbv zeta.
  exact (proj1 (throughput_spans_failed_cycle (fun x => x) NovaHUD.nov_py
                  (NovaHUD.sampleStats (fun x => x) NovaHUD.nov_py NovaHUD.widgets
                     (mkEnv (Some (counting 0 0)) 100%f64 (fun a _ => a)))
                  (mkEnv (Some counters_fail) 101%f64 (fun a _ => a))
                  (mkEnv (Some (counting 2097152 1048576)) 102%f64 (fun a _ => a))
                  counters_fail (counting 2097152 1048576) ValueError 0 0 2097152 1048576
                  eq_refl eq_refl eq_refl eq_refl eq_refl
                  ltac:(lia) ltac:(lia) ltac:(lia) ltac:(lia))).
Defined.

Lemma counters_are_kept_witness :
  NovaHUD.last_bytes
    (NovaHUD.sampleStats (fun x => x) NovaHUD.nov_py NovaHUD.widgets
       (mkEnv (Some (counting 4096 8192)) 100%f64 (fun a _ => a)))
  = Some (4096, 8192).
Proof.
  exact (proj1 (counters_are_kept (fun x => x) NovaHUD.nov_py NovaHUD.widgets
                  (mkEnv (Some (counting 4096 8192)) 100%f64 (fun a _ => a))
                  (counting 4096 8192) (4096, 8192) [] eq_refl eq_refl eq_refl)).
Defined.
